(** * CDTools: forward model, propagators and probe tidying

    A shallow embedding of the parts of CDTools that its specification
    makes claims about:

    - [CDTools/tools/propagators.py]  (far field, near field, exit waves),
    - [CDTools/models/fancy_ptycho.py] (construction, interaction,
      measurement, probe tidying, result export),
    - [cdtools/tools/analysis/analysis.py] ([orthogonalize_probes]).

    Numbers.  The Python code computes in [float32] / [complex64].  Here a
    real number is an element of an ordered field [R] and every operation is
    exact; a complex number is the pair of its real and imaginary part, the
    layout of the last tensor axis in [propagators.py].  Statements are
    therefore about the algorithms, not about rounding. *)

From Stdlib Require Import NArith ZArith String Ascii Lia.
From HB Require Import structures.
From mathcomp Require Import boot order algebra.
From mathcomp Require Import archimedean algC.
From mathcomp Require Import ring_tactic field_tactic lra.

Set Implicit Arguments.
Unset Strict Implicit.
Unset Printing Implicit Defensive.

Import Order.TTheory GRing.Theory Num.Theory.
Local Open Scope ring_scope.

(** Python integers are Stdlib's [Z]; [%Z] is taken by MathComp's [int].
    Code points are Stdlib's binary [N]; [%N] is MathComp's [nat]. *)
Delimit Scope Z_scope with PyZ.
Delimit Scope N_scope with PyN.

(** ** Complex numbers in the stacked (real, imaginary) layout *)

Section ComplexDef.
Variable R : realFieldType.

Record cplx : Type := Cplx { Re : R; Im : R }.

Definition cplx_pair (z : cplx) : R * R := (Re z, Im z).
Definition pair_cplx (p : R * R) : cplx := Cplx p.1 p.2.
Lemma cplx_pairK : cancel cplx_pair pair_cplx.
Proof. by case. Qed.

HB.instance Definition _ := Equality.copy cplx (can_type cplx_pairK).
HB.instance Definition _ := Choice.copy cplx (can_type cplx_pairK).

Definition cadd (x y : cplx) := Cplx (Re x + Re y) (Im x + Im y).
Definition cneg (x : cplx) := Cplx (- Re x) (- Im x).
(** [cmath.cmult]: the product of two stacked complex numbers. *)
Definition cmult (x y : cplx) :=
  Cplx (Re x * Re y - Im x * Im y) (Re x * Im y + Im x * Re y).
(** [cmath.cabssq]: the squared modulus. *)
Definition cabssq (x : cplx) : R := Re x ^+ 2 + Im x ^+ 2.
Definition cinv (x : cplx) := Cplx (Re x / cabssq x) (- Im x / cabssq x).
Definition cconj (x : cplx) := Cplx (Re x) (- Im x).
Definition czero := Cplx 0 0.
Definition cone := Cplx 1 0.
(** A real number seen as a complex one, and a real factor applied to a
    complex number (what broadcasting a real tensor over the last axis
    does). *)
Definition creal (a : R) := Cplx a 0.
Definition cscale (a : R) (x : cplx) := Cplx (a * Re x) (a * Im x).

Lemma cplx_eq (x y : cplx) : Re x = Re y -> Im x = Im y -> x = y.
Proof. by case: x y => [a b] [c d] /= -> ->. Qed.

Lemma caddA : associative cadd.
Proof. by move=> x y z; apply: cplx_eq => /=; ring. Qed.
Lemma caddC : commutative cadd.
Proof. by move=> x y; apply: cplx_eq => /=; ring. Qed.
Lemma cadd0 : left_id czero cadd.
Proof. by move=> x; apply: cplx_eq => /=; ring. Qed.
Lemma caddN : left_inverse czero cneg cadd.
Proof. by move=> x; apply: cplx_eq => /=; ring. Qed.

HB.instance Definition _ := GRing.isZmodule.Build cplx caddA caddC cadd0 caddN.

Lemma cmultA : associative cmult.
Proof. by move=> x y z; apply: cplx_eq => /=; ring. Qed.
Lemma cmultC : commutative cmult.
Proof. by move=> x y; apply: cplx_eq => /=; ring. Qed.
Lemma cmult1 : left_id cone cmult.
Proof. by move=> x; apply: cplx_eq => /=; ring. Qed.
Lemma cmultDl : left_distributive cmult cadd.
Proof. by move=> x y z; apply: cplx_eq => /=; ring. Qed.
Lemma cone_neq0 : cone != czero.
Proof. by apply/eqP => -[] /eqP; rewrite oner_eq0. Qed.

HB.instance Definition _ :=
  GRing.Zmodule_isComNzRing.Build cplx cmultA cmultC cmult1 cmultDl cone_neq0.

Lemma cabssq_ge0 (x : cplx) : 0 <= cabssq x.
Proof. by rewrite /cabssq addr_ge0 ?sqr_ge0. Qed.

Lemma cabssq_eq0 (x : cplx) : (cabssq x == 0) = (x == 0).
Proof.
case: x => a b; rewrite /cabssq /= paddr_eq0 ?sqr_ge0 // !sqrf_eq0.
by apply/andP/eqP => [[/eqP -> /eqP ->]|[-> ->]].
Qed.

Lemma cmultV (x : cplx) : x != 0 -> cmult (cinv x) x = 1.
Proof.
rewrite -cabssq_eq0 => nz.
by apply: cplx_eq; rewrite /= -/(cabssq x); rewrite /cabssq in nz *; field.
Qed.
Lemma cinv0 : cinv 0 = 0.
Proof. by apply: cplx_eq; rewrite /= ?oppr0 mul0r. Qed.

HB.instance Definition _ := GRing.ComNzRing_isField.Build cplx cmultV cinv0.

Lemma ReD (x y : cplx) : Re (x + y) = Re x + Re y. Proof. by []. Qed.
Lemma ImD (x y : cplx) : Im (x + y) = Im x + Im y. Proof. by []. Qed.
Lemma ReM (x y : cplx) : Re (x * y) = Re x * Re y - Im x * Im y.
Proof. by []. Qed.
Lemma ImM (x y : cplx) : Im (x * y) = Re x * Im y + Im x * Re y.
Proof. by []. Qed.
Lemma Re0 : Re (0 : cplx) = 0. Proof. by []. Qed.
Lemma Im0 : Im (0 : cplx) = 0. Proof. by []. Qed.

Lemma cscaleE (a : R) (x : cplx) : cscale a x = creal a * x.
Proof. by apply: cplx_eq; rewrite /= ?mul0r ?subr0 ?addr0. Qed.

Lemma crealD (a b : R) : creal (a + b) = creal a + creal b.
Proof. by apply: cplx_eq; rewrite //= addr0. Qed.
Lemma crealM (a b : R) : creal (a * b) = creal a * creal b.
Proof. by apply: cplx_eq; rewrite /= ?mulr0 ?mul0r ?subr0 ?addr0. Qed.
Lemma creal0 : creal 0 = 0. Proof. by []. Qed.
Lemma creal1 : creal 1 = 1. Proof. by []. Qed.
Lemma creal_inj : injective creal.
Proof. by move=> a b []. Qed.

Lemma cconjD (x y : cplx) : cconj (x + y) = cconj x + cconj y.
Proof. by apply: cplx_eq => //=; rewrite opprD. Qed.
Lemma cconjM (x y : cplx) : cconj (x * y) = cconj x * cconj y.
Proof. by apply: cplx_eq => /=; ring. Qed.
Lemma cconjK : involutive cconj.
Proof. by case=> a b; rewrite /cconj /= opprK. Qed.
Lemma cconj0 : cconj 0 = 0.
Proof. by apply: cplx_eq; rewrite //= oppr0. Qed.
Lemma cconj1 : cconj 1 = 1.
Proof. by apply: cplx_eq; rewrite //= oppr0. Qed.
Lemma cconj_real (a : R) : cconj (creal a) = creal a.
Proof. by apply: cplx_eq; rewrite //= oppr0. Qed.
Lemma cmul_conj (x : cplx) : x * cconj x = creal (cabssq x).
Proof. by apply: cplx_eq; rewrite /cabssq /=; ring. Qed.

End ComplexDef.

Arguments czero {R}.
Arguments cone {R}.

(** ** Python values used by the configuration code *)

Module Py.

(** A [str] is the sequence of its Unicode code points. *)
Definition str := seq N.
Definition str_of (s : string) : str :=
  [seq N_of_ascii c | c <- list_ascii_of_string s].

(** The white space that [str.strip] removes: TAB..CR, FS..US, SPACE, NEL,
    NBSP, U+1680, U+2000..U+200A, U+2028, U+2029, U+202F, U+205F and
    U+3000. *)
Definition isspace (n : N) : bool :=
  [|| (9 <=? n)%PyN && (n <=? 13)%PyN, (28 <=? n)%PyN && (n <=? 32)%PyN,
      (n =? 133)%PyN, (n =? 160)%PyN, (n =? 5760)%PyN,
      (8192 <=? n)%PyN && (n <=? 8202)%PyN,
      (8232 <=? n)%PyN && (n <=? 8233)%PyN,
      (n =? 8239)%PyN, (n =? 8287)%PyN | (n =? 12288)%PyN].

(** [str.lower] on one code point.  A..Z and the Latin-1 capitals move up
    by 32 and the Kelvin sign U+212A becomes k.  The Kelvin sign is the only
    code point above 255 whose lower case lies below 128; the other cased
    code points up there have a lower case above 127 (for U+0130 the letter
    i followed by U+0307) and are left in place: the code compares the
    lowered string with literals below 128 only, and that comparison fails
    on the code point as on its lower case. *)
Definition lower_char (n : N) : N :=
  if (65 <=? n)%PyN && (n <=? 90)%PyN
     || [&& (192 <=? n)%PyN, (n <=? 222)%PyN & negb (n =? 215)%PyN]
  then (n + 32)%PyN
  else if (n =? 8490)%PyN then 107%PyN else n.

Definition lower (s : str) : str := [seq lower_char c | c <- s].

Definition lstrip (s : str) : str := drop (find (predC isspace) s) s.
Definition rstrip (s : str) : str := rev (lstrip (rev s)).
Definition strip (s : str) : str := rstrip (lstrip s).

(** The exceptions the modelled code can raise. *)
Inductive exn : Type :=
  | KeyError (msg : string)
  | IndexError
  | RuntimeError
  | AttributeError.

(** A computation that returns a value or raises. *)
Definition result (A : Type) : Type := (exn + A)%type.
Definition ret {A} (a : A) : result A := inr a.
Definition raise {A} (e : exn) : result A := inl e.
Definition bind {A B} (m : result A) (f : A -> result B) : result B :=
  match m with inl e => inl e | inr a => f a end.
Definition raises {A} (m : result A) : bool :=
  if m is inl _ then true else false.

Lemma isspace_lower (c : N) : isspace (lower_char c) = isspace c.
Proof.
have H : forall n : nat, (n < 256)%N ->
    isspace (lower_char (N.of_nat n)) = isspace (N.of_nat n).
  by do 256![case=> [_|]; first by vm_compute].
case: (N.ltb_spec c 256) => [lt|le].
  rewrite -(N2Nat.id c); apply: H; apply/ssrnat.ltP.
  by rewrite -[256%N]/(N.to_nat 256); lia.
have E90 : (c <=? 90)%PyN = false by apply/N.leb_gt; lia.
have E222 : (c <=? 222)%PyN = false by apply/N.leb_gt; lia.
rewrite /lower_char E90 E222 !andbF /=.
by case: N.eqb_spec => [->|_].
Qed.

Lemma lstrip_cat (w s : str) :
  all isspace w -> ~~ isspace (head 0%PyN s) || (s == [::]) = true ->
  lstrip (w ++ s) = s.
Proof.
rewrite /lstrip; elim: w => [|c w IH] /=.
  by case: s => [|c s] //= _; rewrite orbF => ->.
by case/andP=> -> /IH{}IH /IH.
Qed.

Lemma lstrip_split (s : str) :
  exists2 w, s = w ++ lstrip s & all isspace w.
Proof.
rewrite /lstrip; elim: s => [|c s [w E sw]] /=; first by exists [::].
case: ifP => [_|/negbFE sc]; first by exists [::].
by exists (c :: w); rewrite /= ?sc // -E.
Qed.

Lemma rstrip_split (s : str) :
  exists2 w, s = rstrip s ++ w & all isspace w.
Proof.
have [w E sw] := lstrip_split (rev s); exists (rev w); last by rewrite all_rev.
by rewrite /rstrip -rev_cat -E revK.
Qed.

Lemma rstrip_cat (w s : str) :
  all isspace w -> ~~ isspace (last 0%PyN s) || (s == [::]) = true ->
  rstrip (s ++ w) = s.
Proof.
move=> sw hs; rewrite /rstrip rev_cat lstrip_cat ?revK ?all_rev //.
case: (lastP s) hs => [|s' c] //; rewrite last_rcons rev_rcons /=.
by rewrite -size_eq0 size_rcons /= !orbF.
Qed.

(** A spelling of [name]: [name] up to letter case, between two runs of
    white space. *)
Definition spelling_of (name s : str) : Prop :=
  exists pre core post,
    [/\ s = pre ++ core ++ post, all isspace pre, all isspace post
      & lower core = name].

Lemma all_isspace_lower (s : str) : all isspace (lower s) = all isspace s.
Proof. by rewrite all_map; apply: eq_all => c /=; rewrite isspace_lower. Qed.

Lemma lower_cat (s1 s2 : str) : lower (s1 ++ s2) = lower s1 ++ lower s2.
Proof. exact: map_cat. Qed.

Lemma strip_lower_spelling (name s : str) :
  name != [::] ->
  ~~ isspace (head 0%PyN name) -> ~~ isspace (last 0%PyN name) ->
  (strip (lower s) = name) <-> spelling_of name s.
Proof.
move=> n0 hh hl; split=> [E|[pre [core [post [-> sp sq E]]]]]; last first.
  have hd : ~~ isspace (head 0%PyN (name ++ lower post))
             || (name ++ lower post == [::]) = true.
    by move: hh n0; clear; case: name => [|c r] //= ->.
  rewrite /strip !lower_cat E (lstrip_cat _ hd) ?all_isspace_lower //.
  by rewrite rstrip_cat ?all_isspace_lower // hl.
have [w1 E1 s1] := lstrip_split (lower s).
have [w2 E2 s2] := rstrip_split (lstrip (lower s)).
rewrite -/(strip _) E in E2; rewrite E2 in E1.
exists (take (size w1) s), (take (size name) (drop (size w1) s)),
       (drop (size name) (drop (size w1) s)).
have lower_take n (u : str) : lower (take n u) = take n (lower u).
  exact: map_take.
have lower_drop n (u : str) : lower (drop n u) = drop n (lower u).
  exact: map_drop.
have Et : lower (take (size w1) s) = w1.
  by rewrite lower_take E1 take_size_cat.
have Ed : lower (drop (size w1) s) = name ++ w2.
  by rewrite lower_drop E1 drop_size_cat.
split; first by rewrite !cat_take_drop.
- by rewrite -all_isspace_lower Et.
- by rewrite -all_isspace_lower lower_drop Ed drop_size_cat.
- by rewrite lower_take Ed take_size_cat.
Qed.

End Py.

Notation "x <- m ;; f" := (Py.bind m (fun x => f))
  (at level 61, m at next level, right associativity).

(** ** Arrays with a run-time shape

    A 2-D tensor is the list of its rows.  The helpers below are the
    element-wise operations the model code uses. *)

Section Arrays.
Variable R : realFieldType.
Local Notation C := (cplx R).

Definition image := seq (seq C).
Definition rimage := seq (seq R).

Definition map2 {A B D : Type} (f : A -> B -> D) (a : seq A) (b : seq B) :=
  [seq f p.1 p.2 | p <- zip a b].

Definition imap {A B : Type} (f : A -> B) (a : seq (seq A)) : seq (seq B) :=
  [seq [seq f x | x <- r] | r <- a].
Definition imap2 {A B D : Type} (f : A -> B -> D)
    (a : seq (seq A)) (b : seq (seq B)) : seq (seq D) :=
  map2 (map2 f) a b.

(** [tensor.shape] of a 2-D tensor. *)
Definition shape2 {A : Type} (a : seq (seq A)) : nat * nat :=
  (size a, size (head [::] a)).
Definition rectangular {A : Type} (a : seq (seq A)) : bool :=
  all (fun r => size r == (shape2 a).2) a.

Definition full {A : Type} (sh : nat * nat) (x : A) : seq (seq A) :=
  nseq sh.1 (nseq sh.2 x).

(** A complex number divided by, and multiplied with, a real one. *)
Definition cdivr (z : C) (n : R) : C := Cplx (Re z / n) (Im z / n).

(** A pair of Python slices [a:b, c:d] with non-negative bounds. *)
Definition slice2 : Type := (nat * nat) * (nat * nat).
Definition py_slice {A : Type} (a b : nat) (s : seq A) : seq A :=
  take (b - a) (drop a s).
Definition getslice2 {A : Type} (sl : slice2) (x : seq (seq A)) :=
  [seq py_slice sl.2.1 sl.2.2 r | r <- py_slice sl.1.1 sl.1.2 x].

Lemma map2_mapl {A A' B D : Type} (f : A' -> B -> D) (g : A -> A') a b :
  map2 f (map g a) b = map2 (fun x y => f (g x) y) a b.
Proof. by rewrite /map2; elim: a b => [|x a IH] [|y b] //=; rewrite IH. Qed.

Lemma map_map2 {A B D E : Type} (h : D -> E) (f : A -> B -> D) a b :
  map h (map2 f a b) = map2 (fun x y => h (f x y)) a b.
Proof. by rewrite /map2 -map_comp. Qed.

Lemma eq_map2 {A B D : Type} (f g : A -> B -> D) a b :
  (forall x y, f x y = g x y) -> map2 f a b = map2 g a b.
Proof. by move=> E; apply: eq_map => p. Qed.

Lemma size_map2 {A B D : Type} (f : A -> B -> D) a b :
  size (map2 f a b) = minn (size a) (size b).
Proof. by rewrite size_map size_zip. Qed.

Lemma nth_map2 {A B D : Type} (f : A -> B -> D) x0 y0 z0 a b i :
  size a = size b -> (i < size a)%N ->
  nth z0 (map2 f a b) i = f (nth x0 a i) (nth y0 b i).
Proof.
move=> E lt; rewrite (nth_map (x0, y0)) ?size_zip -?E ?minnn //.
by rewrite nth_zip.
Qed.

Lemma imap2_imapl {A A' B D : Type} (f : A' -> B -> D) (g : A -> A') a b :
  imap2 f (imap g a) b = imap2 (fun x y => f (g x) y) a b.
Proof.
by rewrite /imap2 /imap map2_mapl; apply: eq_map2 => r r'; rewrite map2_mapl.
Qed.

Lemma map2_mapr {A B B' D : Type} (f : A -> B' -> D) (g : B -> B') a b :
  map2 f a (map g b) = map2 (fun x y => f x (g y)) a b.
Proof. by rewrite /map2; elim: a b => [|x a IH] [|y b] //=; rewrite IH. Qed.

Lemma imap2_imapr {A B B' D : Type} (f : A -> B' -> D) (g : B -> B') a b :
  imap2 f a (imap g b) = imap2 (fun x y => f x (g y)) a b.
Proof.
by rewrite /imap2 /imap map2_mapr; apply: eq_map2 => r r'; rewrite map2_mapr.
Qed.

Lemma imap_imap2 {A B D E : Type} (h : D -> E) (f : A -> B -> D) a b :
  imap h (imap2 f a b) = imap2 (fun x y => h (f x y)) a b.
Proof.
by rewrite /imap2 /imap map_map2; apply: eq_map2 => r r'; rewrite map_map2.
Qed.

Lemma eq_imap2 {A B D : Type} (f g : A -> B -> D) a b :
  (forall x y, f x y = g x y) -> imap2 f a b = imap2 g a b.
Proof. by move=> E; apply: eq_map2 => r r'; apply: eq_map2. Qed.

Lemma eq_imap {A B : Type} (f g : A -> B) (a : seq (seq A)) :
  (forall x, f x = g x) -> imap f a = imap g a.
Proof. by move=> E; apply: eq_map => r; apply: eq_map. Qed.

Lemma shape2_imap {A B : Type} (f : A -> B) (a : seq (seq A)) :
  shape2 (imap f a) = shape2 a.
Proof. by rewrite /shape2 /imap size_map; case: a => [|r a] //=; rewrite size_map. Qed.

Lemma imap_full {A B : Type} (f : A -> B) sh (x : A) :
  imap f (full sh x) = full sh (f x).
Proof. by rewrite /imap /full !map_nseq. Qed.

Lemma imap_comp {A B D : Type} (f : B -> D) (g : A -> B) (a : seq (seq A)) :
  imap f (imap g a) = imap (f \o g) a.
Proof. by rewrite /imap -map_comp; apply: eq_map => r /=; rewrite -map_comp. Qed.

Lemma imap_id_in {A : Type} (f : A -> A) (a : seq (seq A)) :
  (forall x, f x = x) -> imap f a = a.
Proof.
move=> fx; rewrite /imap -[RHS]map_id; apply: eq_map => r.
by rewrite -[RHS]map_id; apply: eq_map.
Qed.

End Arrays.

(** ** [CDTools/models/fancy_ptycho.py] *)

Module FancyPtycho.

(** [tools.losses]: the two loss functions a model can be built with. *)
Inductive loss_t : Type := amplitude_mse | poisson_nll.

Definition KeyError_loss : Py.exn :=
  Py.KeyError "Specified loss function not supported".
Definition KeyError_dm_rank : Py.exn :=
  Py.KeyError "Density matrix rank cannot be greater than the number of modes. Use dm_rank = -1 to use a full rank matrix.".

(** Lines 117-125 of [__init__]: the loss is chosen by name. *)
Definition select_loss (loss : Py.str) : Py.result loss_t :=
  let name := Py.strip (Py.lower loss) in
  if (name == Py.str_of "amplitude mse") || (name == Py.str_of "amplitude_mse")
  then Py.ret amplitude_mse
  else if (name == Py.str_of "poisson nll") || (name == Py.str_of "poisson_nll")
  then Py.ret poisson_nll
  else Py.raise KeyError_loss.

(** The loss names the specification calls recognized: the four names, in
    any letter case, with white space allowed around them. *)
Definition amplitude_mse_name (s : Py.str) : Prop :=
  Py.spelling_of (Py.str_of "amplitude mse") s
  \/ Py.spelling_of (Py.str_of "amplitude_mse") s.
Definition poisson_nll_name (s : Py.str) : Prop :=
  Py.spelling_of (Py.str_of "poisson nll") s
  \/ Py.spelling_of (Py.str_of "poisson_nll") s.
Definition recognized_loss (s : Py.str) : Prop :=
  amplitude_mse_name s \/ poisson_nll_name s.

Lemma select_loss_amplitude (s : Py.str) :
  amplitude_mse_name s <-> select_loss s = Py.ret amplitude_mse.
Proof.
rewrite /amplitude_mse_name /select_loss -!Py.strip_lower_spelling //.
split=> [[->|->] //|].
by do 2![case: eqP => [->|_] /=; first by [left | right]]; case: ifP.
Qed.

Lemma select_loss_poisson (s : Py.str) :
  poisson_nll_name s <-> select_loss s = Py.ret poisson_nll.
Proof.
rewrite /poisson_nll_name /select_loss -!Py.strip_lower_spelling //.
split=> [[->|->] //|].
do 2![case: eqP => [->|_] //=].
by do 2![case: eqP => [->|_] /=; first by [left | right]].
Qed.

Lemma select_loss_raises (s : Py.str) :
  ~ recognized_loss s <-> select_loss s = Py.raise KeyError_loss.
Proof.
split=> [nr|E [|] /[dup] H]; last 2 first.
- by move/select_loss_amplitude; rewrite E.
- by move/select_loss_poisson; rewrite E.
case E: (select_loss s) => [e|[]].
- by move: E; rewrite /select_loss; do 2![case: ifP => _ //]; case=> <-.
- by case: nr; left; apply/select_loss_amplitude.
- by case: nr; right; apply/select_loss_poisson.
Qed.

Lemma select_loss_exn (s : Py.str) (e : Py.exn) :
  select_loss s = Py.raise e -> ~ recognized_loss s.
Proof.
move=> E; apply/select_loss_raises; rewrite E.
by move: E; rewrite /select_loss; do 2![case: ifP => _ //].
Qed.

Section Model.
Variable R : rcfType.
Local Notation C := (cplx R).
Local Notation image := (image R).
Local Notation rimage := (rimage R).

(** Functions of [CDTools.tools.interactions] and of numpy/torch that the
    model calls and that are not part of the modelled sources. *)
Variable translations_to_pixel :
  seq (seq R) -> seq (seq R) -> seq R -> seq (R * R).
Variable pixel_to_translations :
  seq (seq R) -> seq (R * R) -> seq R -> seq (seq R).
Variable ptycho_2D_sinc :
  seq (seq image) -> image -> seq (R * R) -> seq (seq image).
Variable pi : R.
(** [t.exp(1j * x)] for a real [x]. *)
Variable t_expi : R -> C.

(** Per-shot weights: one real number per shot ([len(weights.shape) == 1])
    or one complex rank-by-modes matrix per shot. *)
Inductive weights_t : Type :=
  | ScalarWeights (w : seq R)
  | MatrixWeights (w : seq (seq (seq C))).

Record model : Type := Model {
  min_translation : R * R;
  probe_basis : seq (seq R);
  detector_basis : seq (seq R);
  detector_slice : option slice2;
  surface_normal : seq R;
  saturation : option R;
  probe_norm : R;
  probe : seq image;
  obj : image;
  background : rimage;
  weights : option weights_t;
  translation_offsets : option (seq (R * R));
  translation_scale : R;
  probe_support : seq (seq bool);
  oversampling : nat;
  simulate_probe_translation : bool;
  I_phase : rimage;
  J_phase : rimage;
  loss : loss_t
}.

(** The arguments of [__init__]; [None] defaults are [option]s.  The
    wavelength, the units, the mask and the rest of the detector geometry
    are stored unchanged by the source and take part in none of the
    modelled methods, so they are left out. *)
Record init_args : Type := InitArgs {
  a_probe_basis : seq (seq R);
  a_detector_basis : seq (seq R);
  a_probe_guess : seq image;
  a_obj_guess : image;
  a_detector_slice : option slice2;
  a_surface_normal : seq R;
  a_min_translation : R * R;
  a_background : option rimage;
  a_translation_offsets : option (seq (R * R));
  a_weights : option weights_t;
  a_translation_scale : R;
  a_saturation : option R;
  a_probe_support : option (seq (seq bool));
  a_oversampling : nat;
  a_loss : Py.str;
  a_simulate_probe_translation : bool
}.

(** [t.abs] of a complex number and [t.max] of a tensor; the latter raises
    on a tensor without elements. *)
Definition t_abs (z : C) : R := Num.sqrt (cabssq z).
Definition t_max (s : seq R) : Py.result R :=
  if s is x :: s' then Py.ret (foldl Num.max x s')
  else Py.raise Py.RuntimeError.

(** The indices that [x[i]] accepts on an axis of length [n]. *)
Definition valid_index (n : nat) (i : Z) : bool :=
  (- Z.of_nat n <=? i)%PyZ && (i <? Z.of_nat n)%PyZ.

(** [x[i]] for a Python integer [i]: negative indices count from the end. *)
Definition getitem {A : Type} (s : seq A) (i : Z) : Py.result A :=
  let n := Z.of_nat (size s) in
  if (0 <=? i)%PyZ && (i <? n)%PyZ then
    if s is x :: _ then Py.ret (nth x s (Z.to_nat i)) else Py.raise Py.IndexError
  else if (- n <=? i)%PyZ && (i <? 0)%PyZ then
    if s is x :: _ then Py.ret (nth x s (Z.to_nat (i + n)))
    else Py.raise Py.IndexError
  else Py.raise Py.IndexError.

(** [x[index]] for a tensor of indices. *)
Fixpoint getitems {A : Type} (s : seq A) (index : seq Z) : Py.result (seq A) :=
  if index is i :: index' then
    x <- getitem s i ;; xs <- getitems s index' ;; Py.ret (x :: xs)
  else Py.ret [::].

Definition one_e6 : R := (10 ^+ 6)^-1.

Definition scale2 (a : R) (p : R * R) : R * R := (a * p.1, a * p.2).
Definition add2 (p q : R * R) : R * R := (p.1 + q.1, p.2 + q.2).
Definition sub2 (p q : R * R) : R * R := (p.1 - q.1, p.2 - q.2).

(** [probe * probe_support]: a boolean mask keeps or zeroes a pixel. *)
Definition mask_image (im : image) (support : seq (seq bool)) : image :=
  imap2 (fun z (b : bool) => if b then z else 0) im support.

Definition phase_ramps (sh : nat * nat) : rimage * rimage :=
  (mkseq (fun i => mkseq (fun j => 2%:R * pi * (i%:R / (sh.1.-1)%:R)) sh.2) sh.1,
   mkseq (fun i => mkseq (fun j => 2%:R * pi * (j%:R / (sh.2.-1)%:R)) sh.2) sh.1).

Definition __init__ (a : init_args) : Py.result model :=
  p0 <- getitem (a_probe_guess a) 0 ;;
  norm <- t_max [seq t_abs z | z <- flatten p0] ;;
  let probe := [seq imap (fun z => cdivr z norm) p | p <- a_probe_guess a] in
  probe0 <- getitem probe 0 ;;
  let background :=
    match a_background a with
    | Some b => b
    | None =>
        match a_detector_slice a with
        | Some sl => imap (fun _ => one_e6 * 1) (getslice2 sl probe0)
        | None => imap (fun _ => one_e6 * 1) probe0
        end
    end in
  let offsets :=
    omap (map (fun o => (o.1 / a_translation_scale a,
                         o.2 / a_translation_scale a)))
         (a_translation_offsets a) in
  let support :=
    match a_probe_support a with
    | Some s => s
    | None => imap (fun _ => true) probe0
    end in
  let ramps :=
    if a_simulate_probe_translation a then phase_ramps (shape2 probe0)
    else ([::], [::]) in
  l <- select_loss (a_loss a) ;;
  Py.ret {|
    min_translation := a_min_translation a;
    probe_basis := a_probe_basis a;
    detector_basis := a_detector_basis a;
    detector_slice := a_detector_slice a;
    surface_normal := a_surface_normal a;
    saturation := a_saturation a;
    probe_norm := 1 * norm;
    probe := probe;
    obj := a_obj_guess a;
    background := background;
    weights := a_weights a;
    translation_offsets := offsets;
    translation_scale := a_translation_scale a;
    probe_support := support;
    oversampling := a_oversampling a;
    simulate_probe_translation := a_simulate_probe_translation a;
    I_phase := ramps.1;
    J_phase := ramps.2;
    loss := l |}.

(** *** [interaction] *)

(** The in-place [a += b] on an N x 2 tensor: [b] has as many rows, or one
    row that is broadcast. *)
Definition iadd_rows (a b : seq (R * R)) : Py.result (seq (R * R)) :=
  if size b == size a then Py.ret (map2 add2 a b)
  else if b is [:: b0] then Py.ret [seq add2 p b0 | p <- a]
  else Py.raise Py.RuntimeError.

(** Lines 267-275: the translation, in pixels, of every shot. *)
Definition interaction_pix_trans (m : model)
    (index : seq Z) (translations : seq (seq R)) : Py.result (seq (R * R)) :=
  let pix_trans :=
    translations_to_pixel (probe_basis m) translations (surface_normal m) in
  let pix_trans := [seq sub2 p (min_translation m) | p <- pix_trans] in
  match translation_offsets m with
  | Some offsets =>
      sel <- getitems offsets index ;;
      iadd_rows pix_trans [seq scale2 (translation_scale m) o | o <- sel]
  | None => Py.ret pix_trans
  end.

(** [t.sum(ws[..., None, None] * prs, axis=-3)] for one weight row. *)
Definition weighted_sum (ws : seq C) (prs : seq image) : image :=
  foldr (imap2 +%R) (full (shape2 (head [::] prs)) 0)
        (map2 (fun w p => imap ( *%R w) p) ws prs).

(** Lines 277-310: the probes of every shot, built from [probe]. *)
Definition interaction_probes (stored_probe : seq image) (m : model)
    (index : seq Z) (translations : seq (seq R)) : Py.result (seq (seq image)) :=
  let basis_prs := [seq mask_image p (probe_support m) | p <- stored_probe] in
  prs <-
    match weights m with
    | None =>
        Py.ret [seq [seq imap (cscale w) p | p <- basis_prs]
               | w <- nseq (size index) (1 : R)]
    | Some (ScalarWeights ws) =>
        Ws <- getitems ws index ;;
        _ <- getitem ws 0 ;;
        Py.ret [seq [seq imap (cscale w) p | p <- basis_prs] | w <- Ws]
    | Some (MatrixWeights ws) =>
        Ws <- getitems ws index ;;
        _ <- getitem ws 0 ;;
        Py.ret [seq [seq weighted_sum row basis_prs | row <- W] | W <- Ws]
    end ;;
  if simulate_probe_translation m then
    let det_pix_trans :=
      translations_to_pixel (detector_basis m) translations
                            (surface_normal m) in
    let probe_masks :=
      [seq imap2 (fun i j => t_expi (d.1 * i + d.2 * j))
                 (I_phase m) (J_phase m) | d <- det_pix_trans] in
    Py.ret (map2 (fun ps mask => [seq imap2 *%R p mask | p <- ps])
                 prs probe_masks)
  else Py.ret prs.

(** The exit waves that [ptycho_2D_sinc] makes of a probe stack: lines
    260-317 without the factor [probe_norm]. *)
Definition exit_waves_of (stored_probe : seq image) (m : model)
    (index : seq Z) (translations : seq (seq R)) : Py.result (seq (seq image)) :=
  pix_trans <- interaction_pix_trans m index translations ;;
  prs <- interaction_probes stored_probe m index translations ;;
  Py.ret (ptycho_2D_sinc prs (obj m) pix_trans).

Definition interaction (m : model)
    (index : seq Z) (translations : seq (seq R)) : Py.result (seq (seq image)) :=
  waves <- exit_waves_of (probe m) m index translations ;;
  Py.ret [seq [seq imap (cscale (probe_norm m)) w | w <- ws] | ws <- waves].

(** *** [save_results] *)

Record results : Type := Results {
  r_basis : seq (seq R);
  r_translation : seq (seq R);
  r_probe : seq image;
  r_obj : image;
  r_background : rimage;
  r_weights : weights_t
}.

Definition corrected_translations (m : model) (translations : seq (seq R)) :=
  match translation_offsets m with
  | Some offsets =>
      let t_offset :=
        pixel_to_translations (probe_basis m)
          [seq scale2 (translation_scale m) o | o <- offsets]
          (surface_normal m) in
      imap2 +%R translations t_offset
  | None => translations
  end.

(** Lines 588-600.  Line 595 reads [self.weights.detach()]: without
    weights, the default of [__init__], it raises an [AttributeError]. *)
Definition save_results (m : model) (dataset_translations : seq (seq R))
    : Py.result results :=
  let basis := probe_basis m in
  let translations := corrected_translations m dataset_translations in
  let probe := [seq imap (cscale (probe_norm m)) p | p <- probe m] in
  let obj := obj m in
  let background := imap (fun b => b ^+ 2) (background m) in
  if weights m is Some weights then
    Py.ret {| r_basis := basis; r_translation := translations;
              r_probe := probe; r_obj := obj; r_background := background;
              r_weights := weights |}
  else Py.raise Py.AttributeError.

(** *** [measurement] *)

(** Modelled from the spec: [tools.measurements.incoherent_sum] and
    [tools.measurements.quadratic_background], which [measurement] calls
    and which are not among the sources.  Section 4.3 of the specification
    gives the steps: (a) crop every wavefield to the detector region, (b) sum
    the squared moduli over the modes, (c) add the square of the stored
    background, (d) for an oversampling above one bin every block of
    oversampling x oversampling pixels (sum or average: [bin_average]),
    (e) with a saturation value, clip the intensity above it. *)
Variable bin_average : bool.

Definition sumr (s : seq R) : R := foldr +%R 0 s.

Definition crop (ds : option slice2) (w : image) : image :=
  if ds is Some sl then getslice2 sl w else w.

Definition incoherent_sum (ds : option slice2) (modes : seq image) : rimage :=
  foldr (imap2 +%R) (full (shape2 (crop ds (head [::] modes))) 0)
        [seq imap (@cabssq R) (crop ds w) | w <- modes].

Definition bin (o : nat) (x : rimage) : rimage :=
  mkseq (fun i => mkseq (fun j =>
    let block :=
      sumr [seq sumr [seq nth 0 (nth [::] x (i * o + a)) (j * o + b)
                     | b <- iota 0 o] | a <- iota 0 o] in
    if bin_average then block / (o * o)%:R else block)
    ((shape2 x).2 %/ o)) ((shape2 x).1 %/ o).

Definition quadratic_background (modes : seq image) (bg : rimage)
    (ds : option slice2) (sat : option R) (o : nat) : rimage :=
  let raw := incoherent_sum ds modes in
  let lit := imap2 +%R raw (imap (fun b => b ^+ 2) bg) in
  let binned := if (1 < o)%N then bin o lit else lit in
  if sat is Some smax then imap (fun x => Num.min x smax) binned else binned.

(** Lines 329-336. *)
Definition measurement (m : model) (wavefields : seq (seq image)) : seq rimage :=
  [seq quadratic_background modes (background m) (detector_slice m)
                            (saturation m) (oversampling m)
  | modes <- wavefields].

(** *** [from_dataset] *)

(** What [from_dataset] reads from the dataset and receives from the
    initializers of [tools.initializers] and [tools.interactions]:
    [ds_probe] is the initial probe, [ds_rand i] the i-th draw of [t.rand],
    [ds_obj] the initial object. *)
Record dataset : Type := Dataset {
  ds_len : nat;
  ds_background : option rimage;
  ds_probe_basis : seq (seq R);
  ds_detector_basis : seq (seq R);
  ds_det_slice : option slice2;
  ds_surface_normal : seq R;
  ds_min_translation : R * R;
  ds_probe : image;
  ds_rand : nat -> image;
  ds_obj : image;
  ds_probe_support : option (seq (seq bool))
}.

(** Lines 209-226: the initial weights. [t.zeros] refuses a negative size. *)
Definition initial_weights (len : nat) (n_modes : Z) (dm_rank : option Z)
    : Py.result weights_t :=
  match dm_rank with
  | Some r =>
      if negb (r =? 0)%PyZ then
        if (r >? n_modes)%PyZ then Py.raise KeyError_dm_rank
        else
          let r := if (r =? -1)%PyZ then n_modes else r in
          if (r <? 0)%PyZ || (n_modes <? 0)%PyZ then Py.raise Py.RuntimeError
          else
            let W := mkseq (fun i => mkseq (fun j => if i == j then 1 else 0 : C)
                                           (Z.to_nat n_modes)) (Z.to_nat r) in
            Py.ret (MatrixWeights (nseq len W))
      else Py.ret (ScalarWeights (nseq len 1))
  | None => Py.ret (ScalarWeights (nseq len 1))
  end.

Definition one_hundredth : R := (10 ^+ 2)^-1.

Definition from_dataset (d : dataset) (n_modes : Z) (dm_rank : option Z)
    (translation_scale : R) (saturation : option R) (oversampling : nat)
    (loss : Py.str) (simulate_probe_translation : bool) : Py.result model :=
  let background := omap (imap Num.sqrt) (ds_background d) in
  probe_max <- t_max [seq t_abs z | z <- flatten (ds_probe d)] ;;
  let probe_stack :=
    [seq imap (cscale (one_hundredth * probe_max)) (ds_rand d i)
    | i <- iota 0 (Z.to_nat (n_modes - 1))] in
  let probe := ds_probe d :: probe_stack in
  let translation_offsets := nseq (ds_len d) (0 * 0, 0 * 0) in
  Ws <- initial_weights (ds_len d) n_modes dm_rank ;;
  let probe :=
    if ds_probe_support d is Some sup then [seq mask_image p sup | p <- probe]
    else probe in
  __init__ {|
    a_probe_basis := ds_probe_basis d;
    a_detector_basis := ds_detector_basis d;
    a_probe_guess := probe;
    a_obj_guess := ds_obj d;
    a_detector_slice := ds_det_slice d;
    a_surface_normal := ds_surface_normal d;
    a_min_translation := ds_min_translation d;
    a_background := background;
    a_translation_offsets := Some translation_offsets;
    a_weights := Some Ws;
    a_translation_scale := translation_scale;
    a_saturation := saturation;
    a_probe_support := ds_probe_support d;
    a_oversampling := oversampling;
    a_loss := loss;
    a_simulate_probe_translation := simulate_probe_translation |}.

(** *** Properties of the construction *)

Definition identity_weights (n : nat) : seq (seq C) :=
  mkseq (fun i => mkseq (fun j => if i == j then 1 else 0 : C) n) n.

Lemma getitem_exn {A : Type} (s : seq A) (i : Z) (e : Py.exn) :
  getitem s i = Py.raise e -> e = Py.IndexError.
Proof.
by rewrite /getitem; case: s => [|x s]; do ?[case: ifP => _ //]; case.
Qed.

Lemma t_max_exn (s : seq R) (e : Py.exn) :
  t_max s = Py.raise e -> e = Py.RuntimeError.
Proof. by case: s => [|x s] //= []. Qed.

Lemma init_inv (a : init_args) :
  match __init__ a with
  | inr m => select_loss (a_loss a) = Py.ret (loss m)
  | inl e =>
      e = Py.IndexError \/ e = Py.RuntimeError
      \/ select_loss (a_loss a) = Py.raise e
  end.
Proof.
rewrite /__init__.
case E0: (getitem _ _) => [e|p0] /=; first by left; apply: getitem_exn E0.
case E1: (t_max _) => [e|n] /=; first by right; left; apply: t_max_exn E1.
case E2: (getitem _ _) => [e|q0] /=; first by left; apply: getitem_exn E2.
by case E3: (select_loss _) => [e|l] /=; [right; right|].
Qed.

Lemma init_unrecognized (a : init_args) :
  ~ recognized_loss (a_loss a) -> Py.raises (__init__ a).
Proof.
move/select_loss_raises=> E; move: (init_inv a).
by case: (__init__ a) => [e|m] //; rewrite E.
Qed.

Lemma init_KeyError (a : init_args) (msg : string) :
  __init__ a = Py.raise (Py.KeyError msg) ->
  select_loss (a_loss a) = Py.raise (Py.KeyError msg).
Proof. by move=> E; move: (init_inv a); rewrite E; case=> [|[|]]. Qed.

Lemma init_weights (a : init_args) (m : model) :
  __init__ a = Py.ret m -> weights m = a_weights a.
Proof.
rewrite /__init__.
case: (getitem _ _) => [e|p0] //=; case: (t_max _) => [e|n] //=.
case: (getitem _ _) => [e|q0] //=; case: (select_loss _) => [e|l] //=.
by case=> <-.
Qed.

Lemma KeyError_distinct : KeyError_dm_rank <> KeyError_loss.
Proof. by []. Qed.

Lemma initial_weights_exn len n_modes dm_rank (msg : string) :
  initial_weights len n_modes dm_rank = Py.raise (Py.KeyError msg) ->
  Py.KeyError msg = KeyError_dm_rank /\
  exists r, [/\ dm_rank = Some r, r <> 0%PyZ & (n_modes < r)%PyZ].
Proof.
rewrite /initial_weights; case: dm_rank => [r|] //.
case: Z.eqb_spec => //= r0; case: Z.gtb_spec => [lt|_].
  by case=> <-; split=> //; exists r.
by case: ifP.
Qed.

Lemma init_succeeds (a : init_args) (p0 : image) (ps : seq image) (l : loss_t) :
  a_probe_guess a = p0 :: ps -> flatten p0 <> [::] ->
  select_loss (a_loss a) = Py.ret l ->
  exists m, __init__ a = Py.ret m.
Proof.
move=> Eg nz El; rewrite /__init__ Eg /= El.
by case: (flatten p0) nz => [|z s] //= _; eexists.
Qed.

Lemma init_accepts (a : init_args) (p0 : image) (ps : seq image) (l : loss_t) :
  a_probe_guess a = p0 :: ps -> flatten p0 <> [::] ->
  select_loss (a_loss a) = Py.ret l ->
  exists2 m, __init__ a = Py.ret m & loss m = l /\ weights m = a_weights a.
Proof.
move=> Eg nz El; have [m E] := init_succeeds Eg nz El; exists m => //.
split; last exact: init_weights E.
by move: (init_inv a); rewrite E El => -[].
Qed.

Lemma init_unrecognized_loss (a : init_args) (p0 : image) (ps : seq image) :
  a_probe_guess a = p0 :: ps -> flatten p0 <> [::] ->
  ~ recognized_loss (a_loss a) -> __init__ a = Py.raise KeyError_loss.
Proof.
move=> Eg nz /select_loss_raises El; rewrite /__init__ Eg /= El.
by case: (flatten p0) nz => [|z s].
Qed.

Lemma recognized_select_loss (s : Py.str) :
  recognized_loss s ->
  (amplitude_mse_name s /\ select_loss s = Py.ret amplitude_mse)
  \/ (poisson_nll_name s /\ select_loss s = Py.ret poisson_nll).
Proof.
case=> H; [left | right]; split=> //.
  exact/select_loss_amplitude.
exact/select_loss_poisson.
Qed.

(** A dataset whose initial probe has a pixel, also once it is cut to its
    support. *)
Definition probe_has_pixel (d : dataset) : Prop :=
  flatten (ds_probe d) <> [::]
  /\ forall sup, ds_probe_support d = Some sup ->
       flatten (mask_image (ds_probe d) sup) <> [::].

(** The weight matrix that starts a model of rank [r] on [n] modes: ones on
    the diagonal of an r x n matrix. *)
Definition diagonal_weights (r n : nat) : seq (seq C) :=
  mkseq (fun i => mkseq (fun j => if i == j then 1 else 0 : C) n) r.

Lemma initial_weights_scalar len n_modes dm_rank :
  dm_rank = None \/ dm_rank = Some 0%PyZ ->
  initial_weights len n_modes dm_rank
  = Py.ret (ScalarWeights (nseq len 1)).
Proof. by case=> ->. Qed.

Lemma initial_weights_rank len n_modes r :
  (0 < r <= n_modes)%PyZ ->
  initial_weights len n_modes (Some r)
  = Py.ret (MatrixWeights
      (nseq len (diagonal_weights (Z.to_nat r) (Z.to_nat n_modes)))).
Proof.
move=> br; rewrite /initial_weights.
case: Z.eqb_spec => [|_] /=; first by lia.
case: Z.gtb_spec => [|_] /=; first by lia.
case: Z.eqb_spec => [|_] /=; first by lia.
case: Z.ltb_spec => [|_] /=; first by lia.
by case: Z.ltb_spec => [|_] /=; first by lia.
Qed.

Lemma initial_weights_full len n_modes :
  (0 <= n_modes)%PyZ ->
  initial_weights len n_modes (Some (-1)%PyZ)
  = Py.ret (MatrixWeights (nseq len (identity_weights (Z.to_nat n_modes)))).
Proof.
move=> n0; rewrite /initial_weights /=.
case: Z.gtb_spec => [|_] /=; first by lia.
by case: Z.ltb_spec => [|_] /=; first by lia.
Qed.

Lemma from_dataset_accepts (d : dataset) (n_modes : Z) (dm_rank : option Z)
    (ts : R) (sat : option R) (o : nat) (loss_name : Py.str) (sim : bool)
    (W : weights_t) (l : loss_t) :
  probe_has_pixel d -> initial_weights (ds_len d) n_modes dm_rank = Py.ret W ->
  select_loss loss_name = Py.ret l ->
  exists2 m, from_dataset d n_modes dm_rank ts sat o loss_name sim = Py.ret m
           & loss m = l /\ weights m = Some W.
Proof.
move=> [nz nzs] EW El; rewrite /from_dataset.
case E: (flatten (ds_probe d)) nz => [|z s] // _ /=.
rewrite EW /=.
case Es: (ds_probe_support d) => [sup|].
  by apply: (@init_accepts _ (mask_image (ds_probe d) sup) _ l) => //; apply: nzs.
by apply: (@init_accepts _ (ds_probe d) _ l) => //; rewrite E.
Qed.

Lemma from_dataset_unrecognized (d : dataset) (n_modes : Z)
    (dm_rank : option Z) (ts : R) (sat : option R) (o : nat)
    (loss_name : Py.str) (sim : bool) (W : weights_t) :
  probe_has_pixel d -> initial_weights (ds_len d) n_modes dm_rank = Py.ret W ->
  ~ recognized_loss loss_name ->
  from_dataset d n_modes dm_rank ts sat o loss_name sim
  = Py.raise KeyError_loss.
Proof.
move=> [nz nzs] EW nr; rewrite /from_dataset.
case E: (flatten (ds_probe d)) nz => [|z s] // _ /=.
rewrite EW /=.
case Es: (ds_probe_support d) => [sup|].
  by apply: (@init_unrecognized_loss _ (mask_image (ds_probe d) sup)) => //;
     apply: nzs.
by apply: (@init_unrecognized_loss _ (ds_probe d)) => //; rewrite E.
Qed.

(** C7: construction ends in an exception or in a model, never in both.
    [__init__] raises for every loss name that is not a recognized spelling,
    with the [KeyError] of the loss when the probe guess itself is usable (a
    first mode with a pixel), it raises a [KeyError] for no other reason, and
    it accepts every usable guess under a recognized name, with the loss of
    that name.  [from_dataset] raises when a positive [dm_rank] exceeds
    [n_modes], with the [KeyError] of the rank when the dataset has a probe,
    and raises that error for no other reason; it raises for an unrecognized
    loss name, and with the [KeyError] of the loss for no other reason; and
    for a dataset with a probe, a recognized loss name and
    [n_modes >= 0] it accepts [dm_rank = -1] (identity weight matrices of
    full rank), [dm_rank] of [None] or [0] (one scalar weight per shot) and
    every rank from 1 to [n_modes]. *)
Theorem configuration_errors_are_fatal (a : init_args) (d : dataset)
    (n_modes : Z) (dm_rank : option Z) (ts : R) (sat : option R) (o : nat)
    (loss_name : Py.str) (sim : bool) :
  let build := from_dataset d n_modes dm_rank ts sat o loss_name sim in
  let usable_guess :=
    exists p0 ps, a_probe_guess a = p0 :: ps /\ flatten p0 <> [::] in
  let valid_rank :=
    match dm_rank with
    | None => True
    | Some r => (r = 0 \/ r = -1 \/ 0 < r <= n_modes)%PyZ
    end in
  [/\ ~ recognized_loss (a_loss a) ->
        Py.raises (__init__ a)
        /\ (usable_guess -> __init__ a = Py.raise KeyError_loss),
      forall msg, __init__ a = Py.raise (Py.KeyError msg) ->
        ~ recognized_loss (a_loss a),
      forall m, __init__ a = Py.ret m ->
        (amplitude_mse_name (a_loss a) /\ loss m = amplitude_mse)
        \/ (poisson_nll_name (a_loss a) /\ loss m = poisson_nll)
    & usable_guess -> recognized_loss (a_loss a) ->
        exists m, __init__ a = Py.ret m]
  /\
  [/\ forall r, dm_rank = Some r -> (0 < r)%PyZ -> (n_modes < r)%PyZ ->
        Py.raises build
        /\ (flatten (ds_probe d) <> [::] -> build = Py.raise KeyError_dm_rank),
      (0 <= n_modes)%PyZ -> build = Py.raise KeyError_dm_rank ->
        exists r, [/\ dm_rank = Some r, (0 < r)%PyZ & (n_modes < r)%PyZ],
      ~ recognized_loss loss_name ->
        Py.raises build
        /\ (probe_has_pixel d -> (0 <= n_modes)%PyZ -> valid_rank ->
            build = Py.raise KeyError_loss),
      build = Py.raise KeyError_loss -> ~ recognized_loss loss_name
    & probe_has_pixel d -> recognized_loss loss_name -> (0 <= n_modes)%PyZ ->
      [/\ dm_rank = Some (-1)%PyZ ->
            exists2 m, build = Py.ret m
              & weights m = Some (MatrixWeights
                  (nseq (ds_len d) (identity_weights (Z.to_nat n_modes)))),
          dm_rank = None \/ dm_rank = Some 0%PyZ ->
            exists2 m, build = Py.ret m
              & weights m = Some (ScalarWeights (nseq (ds_len d) 1))
        & forall r, dm_rank = Some r -> (0 < r <= n_modes)%PyZ ->
            exists2 m, build = Py.ret m
              & weights m = Some (MatrixWeights (nseq (ds_len d)
                  (diagonal_weights (Z.to_nat r) (Z.to_nat n_modes))))]].
Proof.
cbv zeta; split; first split.
- move=> nr; split; first exact: init_unrecognized.
  by case=> p0 [ps [Eg nz]]; apply: init_unrecognized_loss Eg nz nr.
- by move=> msg /init_KeyError/select_loss_exn.
- move=> m E; move: (init_inv a); rewrite E /=; case: (loss m) => El.
    by left; split=> //; apply/select_loss_amplitude.
  by right; split=> //; apply/select_loss_poisson.
- case=> p0 [ps [Eg nz]] /recognized_select_loss [] [_ El].
    exact: init_succeeds Eg nz El.
  exact: init_succeeds Eg nz El.
have Ew r : dm_rank = Some r -> (0 < r)%PyZ -> (n_modes < r)%PyZ ->
    initial_weights (ds_len d) n_modes dm_rank = Py.raise KeyError_dm_rank.
  move=> -> r0 lt; rewrite /initial_weights.
  case: Z.eqb_spec => [?|_] /=; first by lia.
  by case: Z.gtb_spec => //; lia.
split.
- move=> r Er r0 lt; rewrite /from_dataset (Ew r) //.
  case: (flatten (ds_probe d)) => [|z s] /=; first by split.
  by split.
- move=> n0; rewrite /from_dataset.
  case E1: (t_max _) => [e|n] /=; first by move/t_max_exn: E1 => ->.
  case E2: (initial_weights _ _ _) => [e|W] /=.
    case=> Ee; move: E2; rewrite Ee => /initial_weights_exn [_ [r [-> r0 lt]]].
    by exists r; split=> //; lia.
  by move/init_KeyError; rewrite /select_loss; do 2![case: ifP => _ //].
- move=> nr; split.
    rewrite /from_dataset.
    case: (t_max _) => [e|n] //=; case: (initial_weights _ _ _) => [e|W] //=.
    exact: init_unrecognized.
  move=> hp n0 vr.
  have [W EW] : exists W, initial_weights (ds_len d) n_modes dm_rank = Py.ret W.
    case: dm_rank vr {Ew} => [r|] vr; last first.
      by eexists; apply: initial_weights_scalar; left.
    case: vr => [->|[->|br]].
    + by eexists; apply: initial_weights_scalar; right.
    + by eexists; apply: initial_weights_full.
    + by eexists; apply: initial_weights_rank.
  exact: from_dataset_unrecognized hp EW nr.
- rewrite /from_dataset.
  case E1: (t_max _) => [e|n] /=; first by move/t_max_exn: E1 => ->.
  case E2: (initial_weights _ _ _) => [e|W] /=; last first.
    by move/init_KeyError/select_loss_exn.
  case=> Ee; move: E2; rewrite Ee => /initial_weights_exn [El _].
  by case: KeyError_distinct.
- move=> hp rl n0.
  have acc W : initial_weights (ds_len d) n_modes dm_rank = Py.ret W ->
      exists2 m, from_dataset d n_modes dm_rank ts sat o loss_name sim
                 = Py.ret m & weights m = Some W.
    move=> EW; case/recognized_select_loss: rl => -[_ El].
      by have [m E [_ Em]] := from_dataset_accepts ts sat o sim hp EW El;
         exists m.
    by have [m E [_ Em]] := from_dataset_accepts ts sat o sim hp EW El;
       exists m.
  split.
  + by move=> Ed; apply: acc; rewrite Ed; apply: initial_weights_full.
  + by move=> Ed; apply: acc; apply: initial_weights_scalar.
  + by move=> r Ed br; apply: acc; rewrite Ed; apply: initial_weights_rank.
Qed.

(** *** Properties of [interaction] *)

Definition scale_waves (c : R) (w : seq (seq image)) : seq (seq image) :=
  [seq [seq imap (cscale c) x | x <- ws] | ws <- w].

Lemma interactionE (m : model) (index : seq Z) (translations : seq (seq R)) :
  interaction m index translations =
    (pix_trans <- interaction_pix_trans m index translations ;;
     prs <- interaction_probes (probe m) m index translations ;;
     Py.ret (scale_waves (probe_norm m)
                         (ptycho_2D_sinc prs (obj m) pix_trans))).
Proof.
rewrite /interaction /exit_waves_of.
by case: (interaction_pix_trans _ _ _) => [e|pt] //=; case: (interaction_probes _ _ _ _).
Qed.

Lemma getitem_invalid {A : Type} (s : seq A) (i : Z) :
  ~~ valid_index (size s) i -> getitem s i = Py.raise Py.IndexError.
Proof.
rewrite /valid_index /getitem.
case: Z.leb_spec => l1; case: Z.ltb_spec => l2 //= _;
  do ![case: Z.leb_spec => ? //=; try lia | case: Z.ltb_spec => ? //=; try lia];
  by case: s l1 l2.
Qed.

Lemma getitems_invalid {A : Type} (s : seq A) (index : seq Z) :
  has (fun i => ~~ valid_index (size s) i) index ->
  getitems s index = Py.raise Py.IndexError.
Proof.
elim: index => [|i index IH] //=.
case E: (getitem s i) => [e|x] /=; first by rewrite (getitem_exn E).
case/orP=> [/getitem_invalid|/IH ->] //.
by rewrite E.
Qed.

Lemma getitem_valid {A : Type} (x0 : A) (s : seq A) (i : Z) :
  valid_index (size s) i ->
  getitem s i = Py.ret (nth x0 s (Z.to_nat (i mod Z.of_nat (size s)))).
Proof.
rewrite /valid_index /getitem => /andP[/Z.leb_spec0 l1 /Z.ltb_spec0 l2].
case: s l1 l2 => [|x s] l1 l2; first by move: l1 l2 => /=; lia.
move: l1 l2; set n := Z.of_nat _ => l1 l2.
have Enth k : (0 <= k < n)%PyZ -> nth x (x :: s) (Z.to_nat k)
                                  = nth x0 (x :: s) (Z.to_nat k).
  move=> [k0 kn]; apply: set_nth_default; apply/ssrnat.ltP.
  by rewrite -(Nat2Z.id (size (x :: s))); apply/Z2Nat.inj_lt;
     first [exact: Nat2Z.is_nonneg | exact: kn | exact: k0].
case: Z.leb_spec => l3.
  rewrite andTb; case: Z.ltb_spec => [_|]; last by lia.
  have bi : (0 <= i < n)%PyZ by lia.
  by rewrite (Z.mod_small _ _ bi) (Enth _ bi).
rewrite andFb; case: Z.leb_spec => [_|]; last by lia.
rewrite andTb; case: Z.ltb_spec => [_|]; last by lia.
have bi : (0 <= i + n < n)%PyZ by lia.
have -> : (i mod n = i + n)%PyZ.
  have n0 : (n <> 0)%PyZ by lia.
  by rewrite -(Z.mod_add i 1 n n0) Z.mul_1_l (Z.mod_small _ _ bi).
by rewrite (Enth _ bi).
Qed.

Lemma getitems_valid {A : Type} (x0 : A) (s : seq A) (index : seq Z) :
  all (valid_index (size s)) index ->
  getitems s index
  = Py.ret [seq nth x0 s (Z.to_nat (i mod Z.of_nat (size s))) | i <- index].
Proof.
elim: index => [|i index IH] // /andP[vi /IH {}IH].
have -> : getitems s (i :: index)
          = (y <- getitem s i ;; ys <- getitems s index ;; Py.ret (y :: ys)).
  by [].
by rewrite (getitem_valid x0 vi) /= IH.
Qed.

(** C6: [interaction] hands to [ptycho_2D_sinc] the converted translations
    less [min_translation], component by component, and nothing else when no
    offsets are stored.  With stored offsets it adds [translation_scale]
    times the offset that each index selects (a negative index counts from
    the end), shot by shot when there is one index per shot, the one selected
    offset to every shot when there is a single index; an index outside the
    offsets raises an [IndexError], and a number of indices that is neither
    one nor the number of shots a [RuntimeError]. *)
Theorem interaction_pixel_translation (m : model) (index : seq Z)
    (translations : seq (seq R)) :
  let converted :=
    translations_to_pixel (probe_basis m) translations (surface_normal m) in
  let mt := min_translation m in
  let ts := translation_scale m in
  let exit_waves_at pix_trans :=
    (prs <- interaction_probes (probe m) m index translations ;;
     Py.ret (scale_waves (probe_norm m)
                         (ptycho_2D_sinc prs (obj m) pix_trans))) in
  let offset_at (offsets : seq (R * R)) (i : Z) :=
    nth (0, 0) offsets (Z.to_nat (i mod Z.of_nat (size offsets))) in
  [/\ translation_offsets m = None ->
        interaction m index translations
        = exit_waves_at [seq (p.1 - mt.1, p.2 - mt.2) | p <- converted],
      forall offsets, translation_offsets m = Some offsets ->
        all (valid_index (size offsets)) index ->
        size index = size converted ->
        interaction m index translations
        = exit_waves_at
            [seq (q.1.1 - mt.1 + ts * (offset_at offsets q.2).1,
                  q.1.2 - mt.2 + ts * (offset_at offsets q.2).2)
            | q <- zip converted index],
      forall offsets i, translation_offsets m = Some offsets ->
        index = [:: i] -> valid_index (size offsets) i ->
        interaction m index translations
        = exit_waves_at
            [seq (p.1 - mt.1 + ts * (offset_at offsets i).1,
                  p.2 - mt.2 + ts * (offset_at offsets i).2)
            | p <- converted],
      forall offsets, translation_offsets m = Some offsets ->
        has (fun i => ~~ valid_index (size offsets) i) index ->
        interaction m index translations = Py.raise Py.IndexError
    & forall offsets, translation_offsets m = Some offsets ->
        all (valid_index (size offsets)) index ->
        size index != size converted -> size index != 1%N ->
        interaction m index translations = Py.raise Py.RuntimeError].
Proof.
cbv zeta; rewrite interactionE /interaction_pix_trans; split.
- by move=> ->.
- move=> offsets -> vi Es; rewrite (getitems_valid (0, 0) vi) /=.
  by rewrite /iadd_rows !size_map Es eqxx /= map2_mapl !map2_mapr.
- move=> offsets i -> Ei vi; rewrite Ei (getitems_valid (0, 0)) /= ?vi //.
  rewrite /iadd_rows !size_map /=; case: ifP => [/eqP Es|_] /=; last first.
    by rewrite -map_comp.
  move: Es; rewrite /map2.
  by case: (translations_to_pixel _ _ _) => [|p [|p' l]].
- by move=> offsets -> bad; rewrite (getitems_invalid bad).
- move=> offsets -> vi ns n1; rewrite (getitems_valid (0, 0) vi) /=.
  rewrite /iadd_rows !size_map (negbTE ns).
  by case: (index) n1 => [|i [|i' l]].
Qed.

(** *** The probe rescaling *)

Lemma cscale0 (c : R) : cscale c (0 : C) = 0.
Proof. by rewrite cscaleE mulr0. Qed.

Lemma cscale_cdivr (n : R) (z : C) : n != 0 -> cscale n (cdivr z n) = z.
Proof.
by move=> n0; case: z => a b; rewrite /cscale /cdivr /= ![n * _]mulrC !divfK.
Qed.

Lemma cdivrE (n : R) (z : C) : cdivr z n = cscale n^-1 z.
Proof. by rewrite /cdivr /cscale ![_ / n]mulrC. Qed.

Lemma mask_image_scale (c : R) (p : image) (sup : seq (seq bool)) :
  mask_image (imap (cscale c) p) sup = imap (cscale c) (mask_image p sup).
Proof.
rewrite /mask_image imap2_imapl imap_imap2; apply: eq_imap2 => z [] //.
by rewrite cscale0.
Qed.

Lemma imap2_add_scale (c : R) (a b : image) :
  imap2 +%R (imap (cscale c) a) (imap (cscale c) b)
  = imap (cscale c) (imap2 +%R a b).
Proof.
rewrite imap2_imapl imap2_imapr imap_imap2; apply: eq_imap2 => x y.
by rewrite !cscaleE mulrDr.
Qed.

Lemma weighted_sum_scale (c : R) (row : seq C) (prs : seq image) :
  weighted_sum row [seq imap (cscale c) p | p <- prs]
  = imap (cscale c) (weighted_sum row prs).
Proof.
rewrite /weighted_sum map2_mapr.
have -> : shape2 (head [::] [seq imap (cscale c) p | p <- prs])
          = shape2 (head [::] prs).
  by case: prs => [|p prs] //=; rewrite shape2_imap.
set base := full _ _.
have Eb : base = imap (cscale c) base by rewrite /base imap_full cscale0.
rewrite /map2; elim: (zip row prs) => [|[w p] l IH] //=.
rewrite IH -imap2_add_scale; congr imap2.
by rewrite !imap_comp; apply: eq_imap => z /=; rewrite !cscaleE mulrCA.
Qed.

Lemma interaction_probes_scale (c : R) (guess : seq image) (m : model)
    (index : seq Z) (translations : seq (seq R)) :
  interaction_probes [seq imap (cscale c) p | p <- guess] m index translations
  = (prs <- interaction_probes guess m index translations ;;
     Py.ret (scale_waves c prs)).
Proof.
rewrite /interaction_probes -map_comp.
set bs := [seq mask_image p (probe_support m) | p <- guess].
have -> : [seq (mask_image^~ (probe_support m) \o imap (cscale c)) p | p <- guess]
          = [seq imap (cscale c) p | p <- bs].
  by rewrite -map_comp; apply: eq_map => p /=; rewrite mask_image_scale.
have Esc (w : R) : [seq imap (cscale w) p | p <- [seq imap (cscale c) p | p <- bs]]
    = [seq imap (cscale c) x | x <- [seq imap (cscale w) p | p <- bs]].
  rewrite -!map_comp; apply: eq_map => p /=; rewrite !imap_comp.
  by apply: eq_imap => z /=; rewrite !cscaleE mulrCA.
have Esim (prs : seq (seq image)) (masks : seq image) :
    map2 (fun ps mask => [seq imap2 *%R p mask | p <- ps])
         (scale_waves c prs) masks
    = scale_waves c (map2 (fun ps mask => [seq imap2 *%R p mask | p <- ps])
                          prs masks).
  rewrite /scale_waves map2_mapl map_map2; apply: eq_map2 => ps mask.
  rewrite -!map_comp; apply: eq_map => p /=.
  rewrite imap2_imapl imap_imap2; apply: eq_imap2 => x y.
  by rewrite !cscaleE mulrA.
have Etail (prs : seq (seq image)) :
    (if simulate_probe_translation m then
       Py.ret (map2 (fun ps mask => [seq imap2 *%R p mask | p <- ps])
                    (scale_waves c prs)
                    [seq imap2 (fun i j => t_expi (d.1 * i + d.2 * j))
                               (I_phase m) (J_phase m)
                    | d <- translations_to_pixel (detector_basis m)
                             translations (surface_normal m)])
     else Py.ret (scale_waves c prs))
    = (x <- (if simulate_probe_translation m then
               Py.ret (map2 (fun ps mask => [seq imap2 *%R p mask | p <- ps])
                    prs
                    [seq imap2 (fun i j => t_expi (d.1 * i + d.2 * j))
                               (I_phase m) (J_phase m)
                    | d <- translations_to_pixel (detector_basis m)
                             translations (surface_normal m)])
             else Py.ret prs) ;; Py.ret (scale_waves c x)).
  by case: ifP => _ //=; rewrite Esim.
case: (weights m) => [[ws|ws]|] /=.
- case: (getitems ws index) => [e|Ws] //=; case: (getitem ws 0) => [e|_] //=.
  rewrite -Etail; congr (if _ then _ else _); rewrite /scale_waves.
    by congr (Py.ret (map2 _ _ _)); rewrite -map_comp; apply: eq_map => w /=.
  by congr Py.ret; rewrite -map_comp; apply: eq_map => w /=.
- case: (getitems ws index) => [e|Ws] //=; case: (getitem ws 0) => [e|_] //=.
  have E : [seq [seq weighted_sum row [seq imap (cscale c) p | p <- bs]
                | row <- W] | W <- Ws]
         = scale_waves c [seq [seq weighted_sum row bs | row <- W] | W <- Ws].
    rewrite /scale_waves -map_comp; apply: eq_map => W /=.
    by rewrite -map_comp; apply: eq_map => row /=; rewrite weighted_sum_scale.
  by rewrite E -Etail.
- rewrite -Etail; congr (if _ then _ else _); rewrite /scale_waves.
    by congr (Py.ret (map2 _ _ _)); rewrite -map_comp; apply: eq_map => w /=.
  by congr Py.ret; rewrite -map_comp; apply: eq_map => w /=.
Qed.

Lemma scale_wavesK (c : R) (w : seq (seq image)) :
  c != 0 -> scale_waves c (scale_waves c^-1 w) = w.
Proof.
move=> c0; rewrite /scale_waves -map_comp -[RHS]map_id; apply: eq_map => ws /=.
rewrite -map_comp -[RHS]map_id; apply: eq_map => x /=.
rewrite imap_comp; apply: imap_id_in => z /=.
by rewrite -cdivrE cscale_cdivr.
Qed.

Lemma init_probe (a : init_args) (m : model) :
  __init__ a = Py.ret m ->
  [/\ exists2 p0, getitem (a_probe_guess a) 0 = Py.ret p0
               & t_max [seq t_abs z | z <- flatten p0] = Py.ret (probe_norm m)
     & probe m = [seq imap (cscale (probe_norm m)^-1) p | p <- a_probe_guess a]].
Proof.
rewrite /__init__.
case E0: (getitem _ _) => [e|p0] //=; case E1: (t_max _) => [e|n] //=.
case: (getitem _ _) => [e|q0] //=; case: (select_loss _) => [e|l] //=.
case=> <- /=; rewrite mul1r; split; first by exists p0.
by apply: eq_map => p; apply: eq_imap => z; rewrite cdivrE.
Qed.

Lemma save_results_weights (m : model) (W : weights_t)
    (dataset_translations : seq (seq R)) :
  weights m = Some W ->
  save_results m dataset_translations
  = Py.ret {| r_basis := probe_basis m;
              r_translation := corrected_translations m dataset_translations;
              r_probe := [seq imap (cscale (probe_norm m)) p | p <- probe m];
              r_obj := obj m;
              r_background := imap (fun b => b ^+ 2) (background m);
              r_weights := W |}.
Proof. by rewrite /save_results => ->. Qed.

Lemma save_results_no_weights (m : model)
    (dataset_translations : seq (seq R)) :
  weights m = None ->
  save_results m dataset_translations = Py.raise Py.AttributeError.
Proof. by rewrite /save_results => ->. Qed.


(** *** Properties of [measurement] *)

Definition all_pixels (P : pred R) (x : rimage) : bool := all (all P) x.

Lemma all_pixels_imap {A : Type} (P : pred R) (f : A -> R) (a : seq (seq A)) :
  (forall x, P (f x)) -> all_pixels P (imap f a).
Proof.
move=> Pf; rewrite /all_pixels /imap; elim: a => [|r a IH] //=.
by rewrite IH andbT; elim: r => [|x r IHr] //=; rewrite Pf.
Qed.

Lemma all_pixels_imap2 (P : pred R) (f : R -> R -> R) (a b : rimage) :
  (forall x y, P x -> P y -> P (f x y)) ->
  all_pixels P a -> all_pixels P b -> all_pixels P (imap2 f a b).
Proof.
move=> Pf; rewrite /all_pixels /imap2 /map2.
elim: a b => [|r a IH] [|r' b] //= /andP[Pr Pa] /andP[Pr' Pb].
rewrite IH // andbT.
by elim: r r' Pr Pr' {IH} => [|x r IH] [|y r'] //= /andP[Px Pr] /andP[Py Pr'];
   rewrite Pf //= IH.
Qed.

Lemma all_pixels_full (P : pred R) sh (x : R) : P x -> all_pixels P (full sh x).
Proof. by move=> Px; rewrite /all_pixels /full !all_nseq Px !orbT. Qed.

Lemma all_pixels_nth (P : pred R) (x : rimage) i j :
  P 0 -> all_pixels P x -> P (nth 0 (nth [::] x i) j).
Proof.
move=> P0 /allP Px; case: (ltnP i (size x)) => [lt|le]; last first.
  by rewrite (nth_default _ le) nth_nil.
have /allP Pr := Px _ (mem_nth [::] lt).
case: (ltnP j (size (nth [::] x i))) => [lt'|le]; first exact/Pr/mem_nth.
by rewrite (nth_default _ le).
Qed.

Lemma sumr_ge0 (s : seq R) : all (fun x => 0 <= x) s -> 0 <= sumr s.
Proof. by elim: s => [|x s IH] //= /andP[x0 /IH s0]; rewrite /sumr /= addr_ge0. Qed.

Lemma incoherent_sum_ge0 ds modes :
  all_pixels (fun x => 0 <= x) (incoherent_sum ds modes).
Proof.
rewrite /incoherent_sum; set base := full _ _.
have: all_pixels (fun x => 0 <= x) base by apply: all_pixels_full.
elim: modes base => [|w l IH] base Pb //=.
apply: all_pixels_imap2 (IH _ Pb); first by move=> x y; apply: addr_ge0.
by apply: all_pixels_imap => z; apply: cabssq_ge0.
Qed.

Lemma bin_ge0 (o : nat) (x : rimage) :
  all_pixels (fun v => 0 <= v) x -> all_pixels (fun v => 0 <= v) (bin o x).
Proof.
move=> Px; rewrite /all_pixels /bin; apply/allP => r /mapP[i _ ->].
apply/allP => v /mapP[j _ ->].
have blk : 0 <= sumr [seq sumr [seq nth 0 (nth [::] x (i * o + a)) (j * o + b)
                               | b <- iota 0 o] | a <- iota 0 o].
  apply: sumr_ge0; rewrite all_map; apply/allP => a _ /=.
  apply: sumr_ge0; rewrite all_map; apply/allP => b _ /=.
  exact: (@all_pixels_nth (fun v => 0 <= v)).
by case: bin_average => //; rewrite divr_ge0 // ler0n.
Qed.

(** C3: the predicted intensity is nowhere negative, be it without a
    saturation value or with one (a saturation value is an intensity, so not
    negative), and it is nowhere above a saturation value that is set. *)
Theorem measurement_bounds (m : model) (wavefields : seq (seq image)) :
  ((forall smax, saturation m = Some smax -> 0 <= smax) ->
     all (all_pixels (fun x => 0 <= x)) (measurement m wavefields))
  /\ (forall smax, saturation m = Some smax ->
     all (all_pixels (fun x => x <= smax)) (measurement m wavefields)).
Proof.
split=> [sat0|smax Es]; rewrite /measurement all_map; apply/allP => modes _ /=;
  rewrite /quadratic_background.
- set lit := imap2 _ _ _.
  have Plit : all_pixels (fun x => 0 <= x) lit.
    apply: all_pixels_imap2 (incoherent_sum_ge0 _ _) _.
      by move=> x y; apply: addr_ge0.
    by apply: all_pixels_imap => b; apply: sqr_ge0.
  have Pbin : all_pixels (fun x => 0 <= x)
                (if (1 < oversampling m)%N then bin (oversampling m) lit else lit).
    by case: ifP => _ //; apply: bin_ge0.
  case Es: (saturation m) => [smax|] //.
  move: Pbin; rewrite /all_pixels /imap all_map => /allP Pbin.
  apply/allP => r rin /=; rewrite all_map; apply/allP => v vin /=.
  rewrite le_min (sat0 _ Es) andbT.
  by have /allP := Pbin _ rin; apply.
- by rewrite Es; apply: all_pixels_imap => x; rewrite ge_min lexx orbT.
Qed.

End Model.

(** *** Worked instances over the real algebraic numbers *)

Section Instances.
Local Notation Rx := algR.

Definition ex_translations_to_pixel
    (basis trs : seq (seq Rx)) (normal : seq Rx) : seq (Rx * Rx) :=
  [seq (nth 0 t 0, nth 0 t 1) | t <- trs].
Definition ex_pixel_to_translations
    (basis : seq (seq Rx)) (ps : seq (Rx * Rx)) (normal : seq Rx) :=
  [seq [:: p.1; p.2] | p <- ps].
Definition ex_ptycho_2D_sinc
    (prs : seq (seq (image Rx))) (o : image Rx) (pt : seq (Rx * Rx)) := prs.
Definition ex_t_expi (x : Rx) : cplx Rx := 1.
Definition ex_pi : Rx := 3.

(** An interaction that hands back the pixel translations it was given:
    one wave of one pixel per shot. *)
Definition ex_sinc_trace
    (prs : seq (seq (image Rx))) (o : image Rx) (pt : seq (Rx * Rx))
    : seq (seq (image Rx)) :=
  [seq [:: [:: [:: Cplx p.1 p.2]]] | p <- pt].

Definition ex_args (guess : seq (image Rx)) (w : option (weights_t Rx))
    (loss_name : string) :=
  {| a_probe_basis := [::]; a_detector_basis := [::];
     a_probe_guess := guess; a_obj_guess := [:: [:: 1]];
     a_detector_slice := None; a_surface_normal := [::];
     a_min_translation := (0, 0); a_background := None;
     a_translation_offsets := None; a_weights := w;
     a_translation_scale := 1; a_saturation := None;
     a_probe_support := None; a_oversampling := 1;
     a_loss := Py.str_of loss_name;
     a_simulate_probe_translation := false |}.

Definition ex_dataset : dataset Rx :=
  {| ds_len := 2; ds_background := None; ds_probe_basis := [::];
     ds_detector_basis := [::]; ds_det_slice := None;
     ds_surface_normal := [::]; ds_min_translation := (0, 0);
     ds_probe := [:: [:: 1]]; ds_rand := fun _ => [:: [:: 1]];
     ds_obj := [:: [:: 1]]; ds_probe_support := None |}.

Definition ex_model (sat : option Rx) (offsets : option (seq (Rx * Rx))) :=
  {| min_translation := (1, 1); probe_basis := [::]; detector_basis := [::];
     detector_slice := None; surface_normal := [::]; saturation := sat;
     probe_norm := 1; probe := [:: [:: [:: 1]]]; obj := [:: [:: 1]];
     background := [:: [:: 0]]; weights := None;
     translation_offsets := offsets; translation_scale := 2;
     probe_support := [:: [:: true]]; oversampling := 1;
     simulate_probe_translation := false; I_phase := [::]; J_phase := [::];
     loss := amplitude_mse |}.

Lemma ex_loss_unrecognized : ~ recognized_loss (Py.str_of "l2").
Proof. by apply/select_loss_raises; vm_compute. Qed.

Lemma ex_loss_recognized :
  select_loss (Py.str_of " Poisson_NLL ") = Py.ret poisson_nll.
Proof. by vm_compute. Qed.

Lemma ex_probe_has_pixel : probe_has_pixel ex_dataset.
Proof. by split. Qed.

Lemma configuration_errors_witness :
  [/\ __init__ ex_pi (ex_args [:: [:: [:: 1]]] None "l2")
      = Py.raise KeyError_loss,
      from_dataset ex_pi ex_dataset 1 (Some 2%PyZ) 1 None 1
                   (Py.str_of " Poisson_NLL ") false
      = Py.raise KeyError_dm_rank
    & exists2 m,
        from_dataset ex_pi ex_dataset 1 (Some (-1)%PyZ) 1 None 1
                     (Py.str_of " Poisson_NLL ") false = Py.ret m
        & weights m = Some (MatrixWeights (nseq 2 (identity_weights Rx 1)))].
Proof.
have [[H1 _ _ _] [H2 _ _ _ _]] :=
  configuration_errors_are_fatal ex_pi (ex_args [:: [:: [:: 1]]] None "l2")
    ex_dataset 1 (Some 2%PyZ) 1 None 1 (Py.str_of " Poisson_NLL ") false.
have [_ _ _ _ H3] :=
  (configuration_errors_are_fatal ex_pi (ex_args [:: [:: [:: 1]]] None "l2")
     ex_dataset 1 (Some (-1)%PyZ) 1 None 1 (Py.str_of " Poisson_NLL ")
     false).2.
have rl : recognized_loss (Py.str_of " Poisson_NLL ").
  by right; apply/select_loss_poisson; apply: ex_loss_recognized.
split.
- have [_] := H1 ex_loss_unrecognized; apply.
  by exists [:: [:: 1]], [::].
- by have [_] := H2 2%PyZ erefl erefl erefl; apply.
- by have [H _ _] := H3 ex_probe_has_pixel rl (Z.le_0_1); apply: H.
Defined.

Lemma interaction_pixel_translation_witness :
  interaction ex_translations_to_pixel ex_sinc_trace ex_t_expi
    (ex_model None (Some [:: (1, 1); (3, 3)])) [:: (-1)%PyZ] [:: [:: 5; 7]]
  = Py.ret [:: [:: [:: [:: Cplx (5 - 1 + 2 * 3) (7 - 1 + 2 * 3)]]]].
Proof.
have [_ H _ _ _] :=
  interaction_pixel_translation ex_translations_to_pixel ex_sinc_trace
    ex_t_expi (ex_model None (Some [:: (1, 1); (3, 3)])) [:: (-1)%PyZ]
    [:: [:: 5; 7]].
rewrite (H [:: (1, 1); (3, 3)] erefl erefl erefl) /=.
by rewrite /cscale /= !mul1r.
Defined.

Lemma ex_init_ok (w : option (weights_t Rx)) :
  exists m, __init__ ex_pi (ex_args [:: [:: [:: 1]]] w " Amplitude MSE ")
            = Py.ret m.
Proof.
by apply: (@init_succeeds _ ex_pi _ [:: [:: 1]] [::] amplitude_mse).
Qed.

Lemma t_abs1 : t_abs (1 : cplx Rx) = 1.
Proof. by rewrite /t_abs /cabssq /= expr1n expr0n addr0 sqrtr1. Qed.

Lemma t_abs0 : t_abs (0 : cplx Rx) = 0.
Proof. by rewrite /t_abs /cabssq /= expr0n addr0 sqrtr0. Qed.



Lemma measurement_bounds_witness :
  all (all_pixels (fun x : Rx => 0 <= x))
      (measurement false (ex_model (Some 1) None) [:: [:: [:: [:: 1]]]])
  /\ all (all_pixels (fun x : Rx => x <= 1))
         (measurement false (ex_model (Some 1) None) [:: [:: [:: [:: 1]]]]).
Proof.
have [H1 H2] := measurement_bounds false (ex_model (Some 1) None)
                  [:: [:: [:: [:: 1]]]].
split; last exact: H2.
by apply: H1 => smax [<-]; apply: ler01.
Defined.

End Instances.
End FancyPtycho.

(** ** [CDTools/tools/propagators.py] *)

Module Propagators.

(** *** [get_exit_waves] *)

Section ExitWaves.
Variable R : archiRealFieldType.
Local Notation C := (cplx R).
Local Notation image := (image R).

(** A value of an [int32] tensor, and the sum of two of them. *)
Definition Z_of_int (i : int) : Z :=
  match i with
  | Posz n => Z.of_nat n
  | Negz n => Z.opp (Z.of_nat n.+1)
  end.
Definition wrap32 (z : Z) : Z :=
  ((z + 2 ^ 31) mod 2 ^ 32 - 2 ^ 31)%PyZ.
Definition to_int32 (i : int) : Z := wrap32 (Z_of_int i).
Definition add32 (a b : Z) : Z := wrap32 (a + b).

(** [x[a:b]] for integers [a] and [b]: a negative bound counts from the
    end, and both are clipped to the length. *)
Definition clip_index (n : nat) (a : Z) : nat :=
  if (a <? 0)%PyZ then Z.to_nat (a + Z.of_nat n) else minn (Z.to_nat a) n.
Definition slice {A : Type} (a b : Z) (s : seq A) : seq A :=
  let lo := clip_index (size s) a in
  let hi := clip_index (size s) b in
  take (hi - lo) (drop lo s).
Definition slice2d {A : Type} (a b c d : Z) (x : seq (seq A)) :=
  [seq slice c d r | r <- slice a b x].

(** Broadcasting of one axis: equal lengths pair up, a length of one is
    repeated, anything else is an error. *)
Definition bpairs {A B : Type} (a : seq A) (b : seq B)
    : Py.result (seq (A * B)) :=
  if size a == size b then Py.ret (zip a b)
  else if a is [:: x] then Py.ret [seq (x, y) | y <- b]
  else if b is [:: y] then Py.ret [seq (x, y) | x <- a]
  else Py.raise Py.RuntimeError.

Fixpoint sequence {A : Type} (l : seq (Py.result A)) : Py.result (seq A) :=
  if l is m :: l' then
    x <- m ;; xs <- sequence l' ;; Py.ret (x :: xs)
  else Py.ret [::].

(** An element-wise operation on two 2-D arrays. *)
Definition broadcast2 {A B D : Type} (f : A -> B -> D)
    (a : seq (seq A)) (b : seq (seq B)) : Py.result (seq (seq D)) :=
  rows <- bpairs a b ;;
  sequence [seq (cols <- bpairs p.1 p.2 ;;
                 Py.ret [seq f q.1 q.2 | q <- cols]) | p <- rows].

(** A 2-D tensor with its shape.  The list of rows alone does not tell how
    many columns a tensor without rows has, and broadcasting and [t.stack]
    look at just that.  An argument is given by its rows and has the columns
    of its first row. *)
Definition tensor : Type := (nat * nat) * image.
Definition tensor_of (x : image) : tensor := (shape2 x, x).

(** The length of [x[a:b]] on an axis of length [n]. *)
Definition slice_len (n : nat) (a b : Z) : nat :=
  clip_index n b - clip_index n a.

Definition tslice (a b c d : Z) (x : tensor) : tensor :=
  ((slice_len x.1.1 a b, slice_len x.1.2 c d), slice2d a b c d x.2).

(** A tensor times a number. *)
Definition tscale (c : R) (x : tensor) : tensor := (x.1, imap (cscale c) x.2).

(** The length that two axis lengths broadcast to. *)
Definition bdim (n m : nat) : Py.result nat :=
  if n == m then Py.ret n
  else if n == 1%N then Py.ret m
  else if m == 1%N then Py.ret n
  else Py.raise Py.RuntimeError.

Definition tbroadcast2 (f : C -> C -> C) (a b : tensor) : Py.result tensor :=
  h <- bdim a.1.1 b.1.1 ;;
  w <- bdim a.1.2 b.1.2 ;;
  x <- broadcast2 f a.2 b.2 ;;
  Py.ret ((h, w), x).

(** [t.stack]: it takes at least one tensor, and tensors of one shape. *)
Definition t_stack (l : seq tensor) : Py.result (seq image) :=
  if l is x :: l' then
    if all (fun y : tensor => y.1 == x.1) l' then Py.ret [seq y.2 | y <- l]
    else Py.raise Py.RuntimeError
  else Py.raise Py.RuntimeError.

(** Lines 136-161.  [cmath.cmult], which is not among the sources, is the
    element-wise product of two stacked complex tensors, with the
    broadcasting of every element-wise operation. *)
Definition get_exit_waves (probe object : image) (translations : seq (R * R))
    : Py.result (seq image) :=
  let integer_translations :=
    [seq ((Num.floor t.1)%:~R, (Num.floor t.2)%:~R) | t <- translations]
      : seq (R * R) in
  let subpixel_translations :=
    map2 (fun t i => (t.1 - i.1, t.2 - i.2))
         translations integer_translations in
  let integer_translations :=
    [seq (to_int32 (Num.floor t.1), to_int32 (Num.floor t.2))
    | t <- integer_translations] in
  let sh := (Z.of_nat (shape2 probe).1, Z.of_nat (shape2 probe).2) in
  let object := tensor_of object in
  selections <-
    sequence
      [seq (let tr := p.1 in let sp := p.2 in
            let sel00 := tslice tr.1 (add32 tr.1 sh.1)
                                tr.2 (add32 tr.2 sh.2) object in
            let sel01 := tslice tr.1 (add32 tr.1 sh.1)
                                (add32 tr.2 1) (add32 (add32 tr.2 1) sh.2)
                                object in
            let sel10 := tslice (add32 tr.1 1) (add32 (add32 tr.1 1) sh.1)
                                tr.2 (add32 tr.2 sh.2) object in
            let sel11 := tslice (add32 tr.1 1) (add32 (add32 tr.1 1) sh.1)
                                (add32 tr.2 1) (add32 (add32 tr.2 1) sh.2)
                                object in
            s <- tbroadcast2 +%R
                   (tscale (1 - sp.2) (tscale (1 - sp.1) sel00))
                   (tscale sp.2 (tscale (1 - sp.1) sel01)) ;;
            s <- tbroadcast2 +%R s
                   (tscale (1 - sp.2) (tscale sp.1 sel10)) ;;
            tbroadcast2 +%R s (tscale sp.2 (tscale sp.1 sel11)))
      | p <- zip integer_translations subpixel_translations] ;;
  waves <- sequence [seq tbroadcast2 (@cmult R) (tensor_of probe) selection
                    | selection <- selections] ;;
  t_stack waves.

(** The plain window of the object at a whole-pixel offset. *)
Definition window (object : image) (sh : nat * nat) (a b : nat) : image :=
  [seq take sh.2 (drop b r) | r <- take sh.1 (drop a object)].

Definition has_shape {A : Type} (h w : nat) (x : seq (seq A)) : bool :=
  (size x == h) && all (fun r => size r == w) x.

Lemma wrap32_small (z : Z) : (0 <= z < 2 ^ 31)%PyZ -> wrap32 z = z.
Proof. by move=> bz; rewrite /wrap32 Z.mod_small; lia. Qed.

Lemma Z_of_natD (a b : nat) :
  Z.of_nat (a + b)%N = (Z.of_nat a + Z.of_nat b)%PyZ.
Proof. by rewrite -plusE Nat2Z.inj_add. Qed.

Lemma Z_of_nat_le (a b : nat) : (a <= b)%N -> (Z.of_nat a <= Z.of_nat b)%PyZ.
Proof. by move/ssrnat.leP/Nat2Z.inj_le. Qed.

Lemma add32_nat (a b n : nat) :
  (a + b <= n)%N -> (Z.of_nat n < 2 ^ 31)%PyZ ->
  add32 (Z.of_nat a) (Z.of_nat b) = Z.of_nat (a + b).
Proof.
move=> /Z_of_nat_le le lt; rewrite /add32 -Z_of_natD wrap32_small //; lia.
Qed.

Lemma to_int32_floor (a n : nat) :
  (a <= n)%N -> (Z.of_nat n < 2 ^ 31)%PyZ ->
  to_int32 (Num.floor ((Num.floor (a%:R : R))%:~R : R)) = Z.of_nat a.
Proof.
move=> /Z_of_nat_le le lt.
by rewrite pmulrn !intrKfloor /to_int32 /= wrap32_small //; lia.
Qed.

Lemma subpixel_nat (a : nat) : (a%:R : R) - (Num.floor (a%:R : R))%:~R = 0.
Proof. by rewrite pmulrn intrKfloor subrr. Qed.

Lemma clip_index_nat (n a : nat) : clip_index n (Z.of_nat a) = minn a n.
Proof.
rewrite /clip_index Nat2Z.id; case: Z.ltb_spec => // lt0.
by have := Nat2Z.is_nonneg a; lia.
Qed.

Lemma slice_nat {A : Type} (a h : nat) (s : seq A) :
  (a + h <= size s)%N ->
  slice (Z.of_nat a) (Z.of_nat (a + h)) s = take h (drop a s).
Proof.
move=> le; rewrite /slice !clip_index_nat (minn_idPl le).
by rewrite (minn_idPl (leq_trans (leq_addr _ _) le)) addKn.
Qed.

Lemma has_shape_rows {A : Type} (h w : nat) (x : seq (seq A)) (i : nat) :
  has_shape h w x -> (i < size x)%N -> size (nth [::] x i) = w.
Proof.
case/andP=> _ /all_nthP-/(_ [::]) H lt; exact/eqP/H.
Qed.

Lemma all_take_drop {A : Type} (P : pred A) (s : seq A) (a h : nat) :
  all P s -> all P (take h (drop a s)).
Proof.
move=> Ps; have Pd : all P (drop a s).
  by move: Ps; rewrite -{1}(cat_take_drop a s) all_cat => /andP[].
by move: Pd; rewrite -{1}(cat_take_drop h (drop a s)) all_cat => /andP[].
Qed.

Lemma slice2d_window (object : image) (n0 n1 : nat) (sh : nat * nat) (a b : nat) :
  has_shape n0 n1 object -> (a + sh.1 <= n0)%N -> (b + sh.2 <= n1)%N ->
  slice2d (Z.of_nat a) (Z.of_nat (a + sh.1)) (Z.of_nat b) (Z.of_nat (b + sh.2))
          object
  = window object sh a b.
Proof.
case/andP=> /eqP En0 rows le0 le1; rewrite /slice2d /window slice_nat ?En0 //.
have: all (fun r : seq C => size r == n1) (take sh.1 (drop a object)).
  exact: all_take_drop.
elim: (take _ _) => [|r l IH] //= /andP[/eqP Er /IH ->].
by rewrite slice_nat ?Er.
Qed.

Lemma has_shape_window (object : image) (n0 n1 : nat) (sh : nat * nat) (a b : nat) :
  has_shape n0 n1 object -> (a + sh.1 <= n0)%N -> (b + sh.2 <= n1)%N ->
  has_shape sh.1 sh.2 (window object sh a b).
Proof.
case/andP=> /eqP En0 rows le0 le1; rewrite /has_shape /window size_map.
rewrite size_takel ?size_drop ?En0 ?leq_subRL ?(leq_trans (leq_addr _ _) le0) //.
rewrite eqxx all_map /=.
have: all (fun r : seq C => size r == n1) (take sh.1 (drop a object)).
  exact: all_take_drop.
elim: (take _ _) => [|r l IH] //= /andP[/eqP Er /IH ->].
by rewrite andbT size_takel // size_drop Er leq_subRL // (leq_trans (leq_addr _ _) le1).
Qed.

Lemma has_shape_imap {A B : Type} (f : A -> B) h w (x : seq (seq A)) :
  has_shape h w x -> has_shape h w (imap f x).
Proof.
rewrite /has_shape /imap size_map => /andP[-> /=].
by elim: x => [|r x IH] //= /andP[Er /IH ->]; rewrite size_map Er.
Qed.

Lemma has_shape_imap2 {A B D : Type} (f : A -> B -> D) h w x y :
  has_shape h w x -> has_shape h w y -> has_shape h w (imap2 f x y).
Proof.
rewrite /has_shape /imap2 size_map2 => /andP[/eqP -> rx] /andP[/eqP -> ry].
rewrite minnn eqxx /= /map2.
elim: x y rx ry => [|r x IH] [|r' y] //= /andP[/eqP Er rx] /andP[/eqP Er' ry].
by rewrite IH // size_map2 Er Er' minnn eqxx.
Qed.

Lemma bpairs_same {A B : Type} (a : seq A) (b : seq B) :
  size a = size b -> bpairs a b = Py.ret (zip a b).
Proof. by rewrite /bpairs => ->; rewrite eqxx. Qed.

Lemma broadcast2_same {A B D : Type} (f : A -> B -> D) h w
    (a : seq (seq A)) (b : seq (seq B)) :
  has_shape h w a -> has_shape h w b ->
  broadcast2 f a b = Py.ret (imap2 f a b).
Proof.
case/andP=> /eqP Ea ra /andP[/eqP Eb rb].
rewrite /broadcast2 bpairs_same ?Ea ?Eb //= /imap2 /map2.
elim: a b ra rb {Ea Eb} => [|r a IH] [|r' b] //= /andP[/eqP Er ra] /andP[/eqP Er' rb].
by rewrite bpairs_same ?Er ?Er' //= IH.
Qed.

Lemma imap2_fst {A B : Type} h w (x : seq (seq A)) (y : seq (seq B)) :
  has_shape h w x -> has_shape h w y -> imap2 (fun a _ => a) x y = x.
Proof.
case/andP=> /eqP Ex rx /andP[/eqP Ey ry]; rewrite /imap2 /map2.
move: Ex; rewrite -Ey => {Ey}.
elim: x y rx ry => [|r x IH] [|r' y] //= /andP[/eqP Er rx] /andP[/eqP Er' ry] [Es].
rewrite IH //; congr cons.
by move: Er; rewrite -Er' => {Er'}; elim: r r' => [|a r IHr] [|b r'] //= [/IHr ->].
Qed.

Lemma sequence_map_in {T : eqType} {A : Type}
    (f : T -> Py.result A) (g : T -> A) (l : seq T) :
  {in l, forall x, f x = Py.ret (g x)} -> sequence (map f l) = Py.ret (map g l).
Proof.
elim: l => [|x l IH] //= H; rewrite H ?mem_head //= IH // => y yl.
by apply: H; rewrite in_cons yl orbT.
Qed.

Lemma rectangular_shape {A : Type} (x : seq (seq A)) :
  rectangular x -> has_shape (shape2 x).1 (shape2 x).2 x.
Proof. by rewrite /has_shape /rectangular eqxx. Qed.

Lemma imap2_add_zero h w (x y : image) (g : C -> C) :
  has_shape h w x -> has_shape h w y -> (forall z, g z = 0) ->
  imap2 +%R x (imap g y) = x.
Proof.
move=> hx hy g0; rewrite imap2_imapr -[RHS](imap2_fst hx hy).
by apply: eq_imap2 => a b; rewrite g0 addr0.
Qed.

Lemma cscale1 (z : C) : cscale 1 z = z.
Proof. by rewrite cscaleE mul1r. Qed.

Lemma cscale0l (z : C) : cscale 0 z = 0.
Proof. by rewrite cscaleE mul0r. Qed.

Lemma cscaler0 (c : R) : cscale c (0 : C) = 0.
Proof. by rewrite cscaleE mulr0. Qed.

Lemma slice_len_nat (n a h : nat) :
  (a + h <= n)%N -> slice_len n (Z.of_nat a) (Z.of_nat (a + h)) = h.
Proof.
move=> le; rewrite /slice_len !clip_index_nat (minn_idPl le).
by rewrite (minn_idPl (leq_trans (leq_addr _ _) le)) addKn.
Qed.

Lemma tslice_window (object : image) (sh : nat * nat) (a b : nat) :
  has_shape (shape2 object).1 (shape2 object).2 object ->
  (a + sh.1 <= (shape2 object).1)%N -> (b + sh.2 <= (shape2 object).2)%N ->
  tslice (Z.of_nat a) (Z.of_nat (a + sh.1)) (Z.of_nat b) (Z.of_nat (b + sh.2))
         (tensor_of object)
  = ((sh.1, sh.2), window object sh a b).
Proof.
move=> ho le0 le1.
by rewrite /tslice /tensor_of /fst /snd !slice_len_nat // (slice2d_window ho).
Qed.

Lemma bdim_same (n : nat) : bdim n n = Py.ret n.
Proof. by rewrite /bdim eqxx. Qed.

Lemma tbroadcast2_same (f : C -> C -> C) h w (a b : image) :
  has_shape h w a -> has_shape h w b ->
  tbroadcast2 f ((h, w), a) ((h, w), b) = Py.ret ((h, w), imap2 f a b).
Proof.
by move=> ha hb; rewrite /tbroadcast2 /= !bdim_same /= (broadcast2_same _ ha hb).
Qed.

Lemma tbroadcast2_probe (probe x : image) :
  rectangular probe -> has_shape (shape2 probe).1 (shape2 probe).2 x ->
  tbroadcast2 (@cmult R) (tensor_of probe) (((shape2 probe).1, (shape2 probe).2), x)
  = Py.ret (((shape2 probe).1, (shape2 probe).2), imap2 (@cmult R) probe x).
Proof.
move=> /rectangular_shape hp hx.
by rewrite /tensor_of [shape2 probe]surjective_pairing tbroadcast2_same.
Qed.

Lemma t_stack_same {T : Type} (shp : nat * nat) (g : T -> image) (l : seq T) :
  l <> [::] -> t_stack [seq (shp, g p) | p <- l] = Py.ret [seq g p | p <- l].
Proof.
case: l => [|p l] // _; rewrite /t_stack /= all_map.
rewrite (@eq_all _ _ predT) ?all_predT -?map_comp // => q /=.
exact: eqxx.
Qed.

(** With whole-pixel weights the bilinear combination is its first term. *)
Lemma select_integer h w (w00 w01 w10 w11 : image) :
  has_shape h w w00 -> has_shape h w w01 ->
  has_shape h w w10 -> has_shape h w w11 ->
  (s <- tbroadcast2 +%R
          (tscale (1 - 0) (tscale (1 - 0) ((h, w), w00)))
          (tscale 0 (tscale (1 - 0) ((h, w), w01))) ;;
   s <- tbroadcast2 +%R s (tscale (1 - 0) (tscale 0 ((h, w), w10))) ;;
   tbroadcast2 +%R s (tscale 0 (tscale 0 ((h, w), w11))))
  = Py.ret ((h, w), w00).
Proof.
move=> h00 h01 h10 h11; rewrite /tscale /fst /snd !subr0.
have -> : imap (cscale 1) (imap (cscale 1) w00) = w00.
  by rewrite imap_comp; apply: imap_id_in => z /=; rewrite !cscale1.
rewrite !imap_comp.
have z01 (z : C) : (cscale 0 \o cscale 1) z = 0 by rewrite /= cscale0l.
have z10 (z : C) : (cscale 1 \o cscale 0) z = 0.
  by rewrite /= cscale0l cscaler0.
have z11 (z : C) : (cscale 0 \o cscale 0) z = 0 by rewrite /= cscale0l.
rewrite (tbroadcast2_same _ h00 (has_shape_imap _ h01)) /=.
rewrite (imap2_add_zero h00 h01 z01).
rewrite (tbroadcast2_same _ h00 (has_shape_imap _ h10)) /=.
rewrite (imap2_add_zero h00 h10 z10).
rewrite (tbroadcast2_same _ h00 (has_shape_imap _ h11)) /=.
by rewrite (imap2_add_zero h00 h11 z11).
Qed.

(** C5, as the code has it: for a list of at least one whole-pixel
    translation, on an object of fewer than 2^31 rows and columns (the
    window offsets are [int32]), each window keeping one pixel of margin to
    the lower and right object edge, every exit wave is the probe times the
    plain window of the object. *)
Theorem exit_waves_integer_translations (probe object : image)
    (offs : seq (nat * nat)) :
  let sh := shape2 probe in
  let osh := shape2 object in
  rectangular probe -> rectangular object -> offs != [::] ->
  (Z.of_nat osh.1 < 2 ^ 31)%PyZ -> (Z.of_nat osh.2 < 2 ^ 31)%PyZ ->
  all (fun p => (p.1 + sh.1 + 1 <= osh.1)%N && (p.2 + sh.2 + 1 <= osh.2)%N)
      offs ->
  get_exit_waves probe object [seq (p.1%:R, p.2%:R) | p <- offs]
  = Py.ret [seq imap2 (@cmult R) probe (window object sh p.1 p.2)
           | p <- offs].
Proof.
move=> sh osh rp /rectangular_shape ho n0 b0 b1 Hall.
rewrite /get_exit_waves; set zs := zip _ _.
have Ez : zs = [seq ((Z.of_nat p.1, Z.of_nat p.2), (0, 0)) | p <- offs].
  rewrite /zs /map2 {zs}; elim: offs Hall {n0} => [|p l IH] //=.
  case/andP=> /andP[h1 h2] /IH ->.
  have l1 : (p.1 <= osh.1)%N.
    by apply: leq_trans h1; rewrite -addnA leq_addr.
  have l2 : (p.2 <= osh.2)%N.
    by apply: leq_trans h2; rewrite -addnA leq_addr.
  by rewrite !(to_int32_floor l1) // !(to_int32_floor l2) // !subpixel_nat.
rewrite Ez -map_comp.
rewrite (@sequence_map_in _ _ _
           (fun p => ((sh.1, sh.2), window object sh p.1 p.2))) => [p|].
  move=> /(allP Hall) /andP[h1 h2] /=.
  have le0 : (p.1 + sh.1 <= osh.1)%N by apply: leq_trans h1; rewrite leq_addr.
  have le1 : (p.2 + sh.2 <= osh.2)%N by apply: leq_trans h2; rewrite leq_addr.
  have le0' : (p.1 + 1 + sh.1 <= osh.1)%N by rewrite addnAC.
  have le1' : (p.2 + 1 + sh.2 <= osh.2)%N by rewrite addnAC.
  have a1 : (p.1 + 1 <= osh.1)%N.
    by apply: leq_trans le0'; rewrite leq_addr.
  have a2 : (p.2 + 1 <= osh.2)%N.
    by apply: leq_trans le1'; rewrite leq_addr.
  rewrite -[1%PyZ]/(Z.of_nat 1) !(add32_nat a1) // !(add32_nat a2) //.
  rewrite !(add32_nat le0) // !(add32_nat le1) //.
  rewrite !(add32_nat le0') // !(add32_nat le1') //.
  rewrite (tslice_window (sh := sh) ho le0 le1).
  rewrite (tslice_window (sh := sh) ho le0 le1').
  rewrite (tslice_window (sh := sh) ho le0' le1).
  rewrite (tslice_window (sh := sh) ho le0' le1').
  by apply: select_integer; apply: (has_shape_window ho).
rewrite /= -map_comp.
rewrite (@sequence_map_in _ _ _
           (fun p => ((sh.1, sh.2),
                      imap2 (@cmult R) probe (window object sh p.1 p.2))))
  => [p|].
  move=> /(allP Hall) /andP[h1 h2] /=.
  apply: (tbroadcast2_probe rp); apply: (has_shape_window ho).
    by apply: leq_trans h1; rewrite leq_addr.
  by apply: leq_trans h2; rewrite leq_addr.
by rewrite /= t_stack_same //; apply/eqP.
Qed.

End ExitWaves.

(** Worked instances over the rationals. *)

Definition ex_probe : image rat := [:: [:: Cplx 0 1; Cplx 1 0]].
Definition ex_object : image rat :=
  [:: [:: Cplx 1 0; Cplx 2 0; Cplx 3 0; Cplx 4 0];
      [:: Cplx 5 0; Cplx 6 0; Cplx 7 0; Cplx 8 0]].

Lemma exit_waves_integer_witness :
  get_exit_waves ex_probe ex_object [:: (0%:R, 0%:R); (0%:R, 1%:R)]
  = Py.ret [:: [:: [:: Cplx 0 1; Cplx 2 0]]; [:: [:: Cplx 0 2; Cplx 3 0]]].
Proof.
have := @exit_waves_integer_translations rat ex_probe ex_object
          [:: (0%N, 0%N); (0%N, 1%N)] erefl erefl erefl erefl erefl erefl.
by move=> ->.
Defined.

(** C5 as stated fails for a window that touches the object edge: the
    window [0:1, 0:3] of a 1 x 3 object lies within the object, the column
    neighbours [0:1, 1:4] are one column short, and the sum of the two
    raises. *)
Lemma exit_waves_edge_window :
  get_exit_waves [:: [:: Cplx 1 0; Cplx 1 0; Cplx 1 0]]
                 [:: [:: Cplx 1 0; Cplx 2 0; Cplx (3 : rat) 0]]
                 [:: (0%:R, 0%:R)]
  = Py.raise Py.RuntimeError.
Proof. reflexivity. Qed.

(** At the lower right corner the neighbouring windows are empty and the sum
    broadcasts down to them: a 1 x 1 probe at (1, 1) of a 2 x 2 object gets
    an exit wave without pixels, and next to the wave of (0, 0) [t.stack]
    refuses it. *)
Lemma exit_waves_corner :
  let object : image rat := [:: [:: Cplx 1 0; Cplx 2 0]; [:: Cplx 3 0; Cplx 4 0]] in
  get_exit_waves [:: [:: Cplx 1 0]] object [:: (1%:R, 1%:R)] = Py.ret [:: [::]]
  /\ get_exit_waves [:: [:: Cplx 1 0]] object [:: (0%:R, 0%:R); (1%:R, 1%:R)]
     = Py.raise Py.RuntimeError.
Proof. by split; reflexivity. Qed.

(** *** The Fourier transforms of torch *)

Section Fourier.
Variable R : realFieldType.
Local Notation C := (cplx R).
Local Notation image := (image R).

(** [omega n] stands for exp(-2 pi i / n), the root of unity of the
    transform of length [n]. *)
Variable omega : nat -> C.

Definition sumc (s : seq C) : C := foldr +%R 0 s.

Definition at2 (a : image) (n m : nat) : C := nth 0 (nth [::] a n) m.

(** [t.fft(x, 2)]: the unnormalized 2-D transform over the two axes in
    front of the (real, imaginary) axis. *)
Definition t_fft (a : image) : image :=
  let sh := shape2 a in
  mkseq (fun k => mkseq (fun l =>
    sumc (mkseq (fun n => sumc (mkseq (fun m =>
      at2 a n m * omega sh.1 ^+ (k * n) * omega sh.2 ^+ (l * m))
      sh.2)) sh.1)) sh.2) sh.1.

(** [t.ifft(x, 2)]: the inverse transform, normalized by the number of
    pixels. *)
Definition t_ifft (a : image) : image :=
  let sh := shape2 a in
  mkseq (fun n => mkseq (fun m =>
    (sh.1 * sh.2)%:R^-1 *
    sumc (mkseq (fun k => sumc (mkseq (fun l =>
      at2 a k l * (omega sh.1)^-1 ^+ (n * k) * (omega sh.2)^-1 ^+ (m * l))
      sh.2)) sh.1)) sh.2) sh.1.

(** Modelled from the spec: [cmath.fftshift] and [cmath.ifftshift], which
    the propagators call and which are not among the sources.  Section 4.2
    describes the far field as the centered transform, the zero frequency
    moved to the middle of both image axes: along an axis of length n the
    shift rotates by (n + 1) // 2, its inverse by n // 2. *)
Definition fftshift1 {A : Type} (s : seq A) : seq A :=
  rot ((size s + 1) %/ 2) s.
Definition ifftshift1 {A : Type} (s : seq A) : seq A :=
  rot (size s %/ 2) s.
Definition fftshift (a : image) : image :=
  fftshift1 [seq fftshift1 r | r <- a].
Definition ifftshift (a : image) : image :=
  ifftshift1 [seq ifftshift1 r | r <- a].

(** Lines 8-51; a stack of wavefields is the list of its images. *)
Definition far_field (wavefront : seq image) : seq image :=
  [seq fftshift (t_fft a) | a <- wavefront].

Definition inverse_far_field (wavefront : seq image) : seq image :=
  [seq t_ifft (ifftshift a) | a <- wavefront].

(** The one-dimensional transform of a sequence given as a function. *)
Definition dft (w : C) (n : nat) (f : nat -> C) (k : nat) : C :=
  \sum_(i < n) f i * w ^+ (k * i).

Lemma sumcE (f : nat -> C) (n : nat) : sumc (mkseq f n) = \sum_(i < n) f i.
Proof.
rewrite /sumc foldrE /mkseq big_map -[X in iota 0 X]subn0 -/(index_iota 0 n).
by rewrite big_mkord.
Qed.

Lemma eq_dft (w : C) (n : nat) (f g : nat -> C) (k : nat) :
  (forall i, (i < n)%N -> f i = g i) -> dft w n f k = dft w n g k.
Proof. by move=> E; apply: eq_bigr => i _; rewrite E. Qed.

Lemma natc_neq0 (n : nat) : (0 < n)%N -> (n%:R : C) != 0.
Proof.
move=> n0; have -> : (n%:R : C) = creal n%:R.
  by elim: n {n0} => [|n IH] //; rewrite -natr1 IH -[in RHS]natr1 crealD.
by apply/eqP => -[] /eqP; rewrite pnatr_eq0; apply/negP; rewrite -lt0n.
Qed.

Lemma geometric_root (r : C) (n : nat) :
  r ^+ n = 1 -> r != 1 -> \sum_(k < n) r ^+ k = 0.
Proof.
move=> rn r1; have /eqP := subrX1 r n.
by rewrite rn subrr eq_sym mulf_eq0 subr_eq0 (negbTE r1) /= => /eqP.
Qed.

Lemma dft_orthogonal (w : C) (n i j : nat) :
  n.-primitive_root w -> (i < n)%N -> (j < n)%N ->
  \sum_(k < n) w ^+ (k * i) * w^-1 ^+ (j * k) = if i == j then n%:R else 0.
Proof.
move=> pw ltin ltjn.
have w0 : w != 0.
  apply/eqP => w0; have := prim_expr_order pw.
  rewrite w0 expr0n; case: (n) ltin => [|n'] //= _ /eqP.
  by rewrite eq_sym oner_eq0.
have E k : w ^+ (k * i) * w^-1 ^+ (j * k) = (w ^+ i / w ^+ j) ^+ k.
  by rewrite exprMn !exprVn -!exprM [(k * i)%N]mulnC.
under eq_bigr do rewrite E.
case: eqP => [->|/eqP nij].
  rewrite divff ?expf_neq0 //.
  by under eq_bigr do rewrite expr1n; rewrite sumr_const card_ord.
apply: geometric_root.
  by rewrite exprMn exprVn -!exprM ![(_ * n)%N]mulnC !exprM
             (prim_expr_order pw) !expr1n divr1.
apply/eqP => /(canRL (divfK (expf_neq0 _ w0))) /eqP.
rewrite mul1r (eq_prim_root_expr pw) !modn_small //.
exact/negP.
Qed.

(** The inverse transform undoes the transform. *)
Lemma dftK (w : C) (n : nat) (f : nat -> C) (j : nat) :
  n.-primitive_root w -> (j < n)%N ->
  n%:R^-1 * dft w^-1 n (dft w n f) j = f j.
Proof.
move=> pw ltjn; rewrite /dft.
under eq_bigr do rewrite big_distrl /=.
rewrite exchange_big /=.
have E (i : 'I_n) :
    \sum_(k < n) f i * w ^+ (k * i) * w^-1 ^+ (j * k)
    = f i * (if i == Ordinal ltjn then n%:R else 0).
  rewrite -(dft_orthogonal pw (ltn_ord i) ltjn) big_distrr /=.
  by apply: eq_bigr => k _; rewrite mulrA.
under eq_bigr do rewrite E.
rewrite (bigD1 (Ordinal ltjn)) //= eqxx big1 => [i /negbTE ->|].
  by rewrite mulr0.
by rewrite addr0 mulrCA mulVf ?mulr1 // natc_neq0 // (leq_ltn_trans _ ltjn).
Qed.

Lemma shape2_has_shape (a : image) (n m : nat) :
  has_shape n m a -> (0 < n)%N -> shape2 a = (n, m).
Proof.
rewrite /has_shape /shape2; case: a => [|r a] /=; first by case: n.
by case/andP=> /eqP <- /andP[/eqP <-].
Qed.

Lemma shape2_mkseq {A : Type} (f : nat -> nat -> A) (n m : nat) :
  (0 < n)%N -> shape2 (mkseq (fun k => mkseq (f k) m) n) = (n, m).
Proof. by case: n => [|n] // _; rewrite /shape2 size_mkseq /= size_mkseq. Qed.

Lemma at2_mkseq (f : nat -> nat -> C) (n m i j : nat) :
  (i < n)%N -> (j < m)%N -> at2 (mkseq (fun k => mkseq (f k) m) n) i j = f i j.
Proof. by move=> lti ltj; rewrite /at2 nth_mkseq // nth_mkseq. Qed.

Lemma t_fft_at (a : image) (n m k l : nat) :
  has_shape n m a -> (k < n)%N -> (l < m)%N ->
  at2 (t_fft a) k l
  = dft (omega m) m (fun j => dft (omega n) n (fun i => at2 a i j) k) l.
Proof.
move=> ha ltk ltl; have n0 : (0 < n)%N by apply: leq_ltn_trans ltk.
rewrite /t_fft (shape2_has_shape ha n0) /= at2_mkseq // sumcE /dft.
under eq_bigr do rewrite sumcE.
rewrite exchange_big /=; apply: eq_bigr => j _.
by rewrite big_distrl.
Qed.

Lemma t_ifft_at (b : image) (n m i j : nat) :
  has_shape n m b -> (i < n)%N -> (j < m)%N ->
  at2 (t_ifft b) i j
  = n%:R^-1 * dft (omega n)^-1 n
      (fun k => m%:R^-1 * dft (omega m)^-1 m (fun l => at2 b k l) j) i.
Proof.
move=> hb lti ltj; have n0 : (0 < n)%N by apply: leq_ltn_trans lti.
rewrite /t_ifft (shape2_has_shape hb n0) /= at2_mkseq // sumcE /dft.
under eq_bigr do rewrite sumcE.
rewrite natrM invfM -mulrA; congr (_ * _).
rewrite big_distrr /=; apply: eq_bigr => k _.
rewrite !big_distrr big_distrl /=; apply: eq_bigr => l _.
by rewrite -!mulrA; congr (_ * (_ * _)); rewrite mulrC.
Qed.

Lemma has_shape_t_fft (a : image) (n m : nat) :
  has_shape n m a -> (0 < n)%N -> has_shape n m (t_fft a).
Proof.
move=> ha n0; rewrite /t_fft (shape2_has_shape ha n0) /= /has_shape.
rewrite size_mkseq eqxx /=; apply/(all_nthP [::]) => i.
by rewrite size_mkseq => lti; rewrite nth_mkseq // size_mkseq.
Qed.

(** [t.ifft] undoes [t.fft] on an n x m image when the two roots of unity
    are primitive. *)
Lemma t_fftK (a : image) (n m : nat) :
  has_shape n m a ->
  n.-primitive_root (omega n) -> m.-primitive_root (omega m) ->
  t_ifft (t_fft a) = a.
Proof.
move=> ha pn pm; have n0 : (0 < n)%N by case/andP: pn.
have hf := has_shape_t_fft ha n0.
have Eat i j : (i < n)%N -> (j < m)%N -> at2 (t_ifft (t_fft a)) i j = at2 a i j.
  move=> lti ltj; rewrite (t_ifft_at hf) //.
  rewrite -[RHS](dftK (fun k => at2 a k j) pn lti); congr (_ * _).
  apply: eq_dft => k ltk.
  rewrite -[RHS](dftK (fun j0 => dft (omega n) n (fun i0 => at2 a i0 j0) k)
                      pm ltj).
  by congr (_ * _); apply: eq_dft => l ltl; rewrite (t_fft_at ha).
have Esh : shape2 (t_fft a) = (n, m) by apply: shape2_has_shape.
case/andP: (ha) => /eqP sa /(all_nthP [::]) ra.
apply: (@eq_from_nth _ [::]).
  by rewrite /t_ifft Esh /= size_mkseq sa.
rewrite /t_ifft Esh /= size_mkseq => i lti.
apply: (@eq_from_nth _ 0).
  by rewrite nth_mkseq // size_mkseq; apply/esym/eqP/ra; rewrite sa.
rewrite nth_mkseq // size_mkseq => j ltj.
move: (Eat i j lti ltj); rewrite /t_ifft Esh /= /at2.
by rewrite nth_mkseq.
Qed.

Lemma half_sum (n : nat) : (n %/ 2 + (n + 1) %/ 2)%N = n.
Proof. by rewrite !divn2 addn1 -uphalfE uphalf_half addnCA addnn odd_double_half. Qed.

Lemma shift1K {A : Type} (s : seq A) : ifftshift1 (fftshift1 s) = s.
Proof.
rewrite /ifftshift1 /fftshift1 size_rot rot_add_mod ?half_sum ?leqnn ?rot_size //.
  by rewrite -{2}(half_sum (size s)) leq_addl.
by rewrite -{2}(half_sum (size s)) leq_addr.
Qed.

Lemma map_fftshift1 {A B : Type} (f : A -> B) (s : seq A) :
  [seq f x | x <- fftshift1 s] = fftshift1 [seq f x | x <- s].
Proof. by rewrite /fftshift1 map_rot size_map. Qed.

Lemma fftshiftK (a : image) : ifftshift (fftshift a) = a.
Proof.
rewrite /ifftshift /fftshift map_fftshift1 shift1K.
by rewrite -map_comp -[RHS]map_id; apply: eq_map => r /=; rewrite shift1K.
Qed.

(** X1: the inverse far-field propagator undoes the far-field propagator on
    every stack of n x m wavefields, the roots of unity of the two
    transform lengths being primitive. *)
Theorem far_field_round_trip (wavefront : seq image) (n m : nat) :
  all (has_shape n m) wavefront ->
  n.-primitive_root (omega n) -> m.-primitive_root (omega m) ->
  inverse_far_field (far_field wavefront) = wavefront.
Proof.
move=> hw pn pm; rewrite /inverse_far_field /far_field -map_comp.
rewrite -[RHS]map_id.
elim: wavefront hw => [|a w IH] //= /andP[ha /IH ->].
by rewrite fftshiftK (t_fftK ha pn pm).
Qed.

Lemma has_shape_fftshift (a : image) (n m : nat) :
  has_shape n m a -> has_shape n m (fftshift a).
Proof.
rewrite /has_shape /fftshift /fftshift1 size_rot size_map.
case/andP=> -> /= /allP H; apply/allP => r.
by rewrite mem_rot => /mapP[r' /H /eqP E ->]; rewrite size_rot E.
Qed.

(** C2: on a stack of J wavefields of N x M pixels, N and M at least one,
    [far_field] returns J wavefields of N x M pixels, and
    [inverse_far_field] takes them back to the very stack it started from.
    [omega N] and [omega M] are the roots of unity exp(-2 pi i / N) and
    exp(-2 pi i / M) of the two transforms, which are primitive. *)
Theorem far_field_inverted (wavefront : seq image) (n m : nat) :
  all (has_shape n m) wavefront ->
  n.-primitive_root (omega n) -> m.-primitive_root (omega m) ->
  [/\ size (far_field wavefront) = size wavefront,
      all (has_shape n m) (far_field wavefront)
    & inverse_far_field (far_field wavefront) = wavefront].
Proof.
move=> hw pn pm; have n0 : (0 < n)%N by case/andP: pn.
split; first by rewrite /far_field size_map.
  rewrite /far_field all_map; apply/allP => a /(allP hw) ha /=.
  exact/has_shape_fftshift/has_shape_t_fft.
rewrite /inverse_far_field /far_field -map_comp -[RHS]map_id.
apply/eq_in_map => a /(allP hw) ha /=.
by rewrite fftshiftK (t_fftK ha pn pm).
Qed.

End Fourier.

(** *** The transforms the other way round, and the near field *)

Section NearField.
Variable R : realFieldType.
Local Notation C := (cplx R).
Local Notation image := (image R).
Variable omega : nat -> C.

Lemma prim_rootV (w : C) (n : nat) :
  n.-primitive_root w -> n.-primitive_root w^-1.
Proof.
case/andP=> n0 /forallP H; apply/andP; split=> //; apply/forallP => i.
by rewrite unity_rootE exprVn invr_eq1 -unity_rootE.
Qed.

Lemma dft_scale (w c : C) (n : nat) (f : nat -> C) (k : nat) :
  dft w n (fun i => c * f i) k = c * dft w n f k.
Proof. by rewrite /dft big_distrr /=; apply: eq_bigr => i _; rewrite mulrA. Qed.

(** The transform undoes the inverse transform. *)
Lemma dftVK (w : C) (n : nat) (f : nat -> C) (j : nat) :
  n.-primitive_root w -> (j < n)%N ->
  dft w n (fun i => n%:R^-1 * dft w^-1 n f i) j = f j.
Proof.
move=> pw ltj; rewrite dft_scale.
by have := dftK f (prim_rootV pw) ltj; rewrite invrK.
Qed.

Lemma eq_from_at2 (x y : image) (n m : nat) :
  has_shape n m x -> has_shape n m y ->
  (forall i j, (i < n)%N -> (j < m)%N -> at2 x i j = at2 y i j) -> x = y.
Proof.
case/andP=> /eqP sx /(all_nthP [::]) rx /andP[/eqP sy /(all_nthP [::]) ry] E.
apply: (@eq_from_nth _ [::]); first by rewrite sx sy.
move=> i; rewrite sx => lti.
have Ex : size (nth [::] x i) = m by apply/eqP/rx; rewrite sx.
have Ey : size (nth [::] y i) = m by apply/eqP/ry; rewrite sy.
apply: (@eq_from_nth _ 0); first by rewrite Ex Ey.
by move=> j; rewrite Ex => ltj; apply: E.
Qed.

Lemma has_shape_t_ifft (b : image) (n m : nat) :
  has_shape n m b -> (0 < n)%N -> has_shape n m (t_ifft omega b).
Proof.
move=> hb n0; rewrite /t_ifft (shape2_has_shape hb n0) /= /has_shape.
rewrite size_mkseq eqxx /=; apply/(all_nthP [::]) => i.
by rewrite size_mkseq => lti; rewrite nth_mkseq // size_mkseq.
Qed.

Lemma t_ifftK (b : image) (n m : nat) :
  has_shape n m b ->
  n.-primitive_root (omega n) -> m.-primitive_root (omega m) ->
  t_fft omega (t_ifft omega b) = b.
Proof.
move=> hb pn pm; have n0 : (0 < n)%N by case/andP: pn.
have hi := has_shape_t_ifft hb n0.
apply: (eq_from_at2 (has_shape_t_fft omega hi n0) hb) => k l ltk ltl.
rewrite (t_fft_at omega hi) //.
rewrite -[RHS](dftVK (fun j => at2 b k j) pm ltl); apply: eq_dft => j ltj.
rewrite -[RHS](dftVK (fun k0 => m%:R^-1 * dft (omega m)^-1 m
                                  (fun l0 => at2 b k0 l0) j) pn ltk).
by apply: eq_dft => i lti; rewrite (t_ifft_at omega hb).
Qed.

Lemma shift1VK {A : Type} (s : seq A) : fftshift1 (ifftshift1 s) = s.
Proof.
have h1 : (size s %/ 2 <= size s)%N.
  by rewrite -{2}(half_sum (size s)) leq_addr.
have h2 : ((size s + 1) %/ 2 <= size s)%N.
  by rewrite -{2}(half_sum (size s)) leq_addl.
rewrite /ifftshift1 /fftshift1 size_rot (rot_add_mod h1 h2).
by rewrite addnC half_sum leqnn rot_size.
Qed.

Lemma map_ifftshift1 {A B : Type} (f : A -> B) (s : seq A) :
  [seq f x | x <- ifftshift1 s] = ifftshift1 [seq f x | x <- s].
Proof. by rewrite /ifftshift1 map_rot size_map. Qed.

Lemma ifftshiftK (a : image) : fftshift (ifftshift a) = a.
Proof.
rewrite /ifftshift /fftshift map_ifftshift1 shift1VK.
by rewrite -map_comp -[RHS]map_id; apply: eq_map => r /=; rewrite shift1VK.
Qed.

Lemma has_shape_ifftshift (a : image) (n m : nat) :
  has_shape n m a -> has_shape n m (ifftshift a).
Proof.
rewrite /has_shape /ifftshift /ifftshift1 size_rot size_map.
case/andP=> -> /= /allP H; apply/allP => r.
by rewrite mem_rot => /mapP[r' /H /eqP E ->]; rewrite size_rot E.
Qed.

(** X2: the far-field propagator undoes the inverse far-field propagator
    on every stack of n x m wavefields, the roots of unity of the two
    transform lengths being primitive. *)
Theorem far_field_of_inverse (wavefront : seq image) (n m : nat) :
  all (has_shape n m) wavefront ->
  n.-primitive_root (omega n) -> m.-primitive_root (omega m) ->
  far_field omega (inverse_far_field omega wavefront) = wavefront.
Proof.
move=> hw pn pm; rewrite /inverse_far_field /far_field -map_comp.
rewrite -[RHS]map_id.
elim: wavefront hw => [|a w IH] //= /andP[ha /IH ->].
by rewrite (t_ifftK (has_shape_ifftshift ha) pn pm) ifftshiftK.
Qed.

(** [a * b] and [a ** -1] on tensors whose last axis holds the real and the
    imaginary part: torch multiplies and inverts component by component. *)
Definition emul (x y : C) : C := Cplx (Re x * Re y) (Im x * Im y).
Definition einv (x : C) : C := Cplx (Re x)^-1 (Im x)^-1.

(** Lines 84-113.  The kernel has no stack axis: it is broadcast against
    every wavefield of the stack. *)
Definition near_field (wavefront : seq image)
    (angular_spectrum_propagator : image) : Py.result (seq image) :=
  sequence [seq (x <- broadcast2 emul angular_spectrum_propagator (t_fft omega a) ;;
                 Py.ret (t_ifft omega x)) | a <- wavefront].

Definition inverse_near_field (wavefront : seq image)
    (angular_spectrum_propagator : image) : Py.result (seq image) :=
  sequence [seq (x <- broadcast2 emul (t_fft omega a)
                        (imap einv angular_spectrum_propagator) ;;
                 Py.ret (t_ifft omega x)) | a <- wavefront].

Definition nonzero_parts (z : C) : bool := (Re z != 0) && (Im z != 0).

Lemma emulK (k f : C) : nonzero_parts k -> emul (emul k f) (einv k) = f.
Proof.
case/andP=> r0 i0; case: f => a b; rewrite /emul /einv /=.
by rewrite ![_ * _ * _^-1]mulrAC !divff // !mul1r.
Qed.

Lemma emul_rowK (k f : seq C) :
  size k = size f -> all nonzero_parts k ->
  map2 emul (map2 emul k f) [seq einv z | z <- k] = f.
Proof.
rewrite /map2; elim: k f => [|x k IH] [|y f] //= [E] /andP[nx nk].
by rewrite emulK // IH.
Qed.

Lemma emul_imageK (k f : image) (n m : nat) :
  has_shape n m k -> has_shape n m f -> all (all nonzero_parts) k ->
  imap2 emul (imap2 emul k f) (imap einv k) = f.
Proof.
case/andP=> /eqP sk rk /andP[/eqP sf rf]; move: sk; rewrite -sf => {sf}.
rewrite /imap2 /imap /map2.
elim: k f rk rf => [|r k IH] [|r' f] //= /andP[/eqP Er rk] /andP[/eqP Er' rf].
case=> E /andP[nr nk]; rewrite IH // -/(map2 emul r r') -/(map2 emul _ _).
by rewrite emul_rowK // Er Er'.
Qed.

Lemma near_fieldE (wavefront : seq image) (k : image) (n m : nat) :
  all (has_shape n m) wavefront -> has_shape n m k -> (0 < n)%N ->
  near_field wavefront k
  = Py.ret [seq t_ifft omega (imap2 emul k (t_fft omega a)) | a <- wavefront].
Proof.
move=> hw hk n0; rewrite /near_field; apply: sequence_map_in => a ain.
have ha := allP hw _ ain.
by rewrite (broadcast2_same _ hk (has_shape_t_fft omega ha n0)).
Qed.

Lemma inverse_near_fieldE (wavefront : seq image) (k : image) (n m : nat) :
  all (has_shape n m) wavefront -> has_shape n m k -> (0 < n)%N ->
  inverse_near_field wavefront k
  = Py.ret [seq t_ifft omega (imap2 emul (t_fft omega a) (imap einv k)) | a <- wavefront].
Proof.
move=> hw hk n0; rewrite /inverse_near_field; apply: sequence_map_in => a ain.
have ha := allP hw _ ain.
by rewrite (broadcast2_same _ (has_shape_t_fft omega ha n0)
                            (has_shape_imap _ hk)).
Qed.

(** X3: on a stack of n x m wavefields and with an n x m kernel none of
    whose real and imaginary parts is zero, [inverse_near_field] undoes
    [near_field]. *)
Theorem near_field_round_trip (wavefront : seq image) (k : image) (n m : nat) :
  all (has_shape n m) wavefront -> has_shape n m k ->
  all (all nonzero_parts) k ->
  n.-primitive_root (omega n) -> m.-primitive_root (omega m) ->
  (x <- near_field wavefront k ;; inverse_near_field x k) = Py.ret wavefront.
Proof.
move=> hw hk nz pn pm; have n0 : (0 < n)%N by case/andP: pn.
rewrite (near_fieldE hw hk n0) /=.
have hx : all (has_shape n m)
              [seq t_ifft omega (imap2 emul k (t_fft omega a)) | a <- wavefront].
  rewrite all_map; apply/allP => a /(allP hw) ha /=.
  apply: has_shape_t_ifft => //; apply: has_shape_imap2 => //.
  exact: has_shape_t_fft.
rewrite (inverse_near_fieldE hx hk n0) -map_comp; congr Py.ret.
rewrite -[RHS]map_id; apply/eq_in_map => a /(allP hw) ha /=.
have hf := has_shape_t_fft omega ha n0.
rewrite (t_ifftK (has_shape_imap2 _ hk hf) pn pm).
by rewrite (emul_imageK hk hf nz) (t_fftK ha pn pm).
Qed.

End NearField.

(** *** Sub-pixel translations *)

Section Interpolation.
Variable R : archiRealFieldType.
Local Notation C := (cplx R).
Local Notation image := (image R).

(** The weighted sum of the four windows, as line 156 writes it. *)
Definition lerp2 (s t : R) (w00 w01 w10 w11 : image) : image :=
  imap2 +%R
    (imap2 +%R
       (imap2 +%R (imap (cscale (1 - t)) (imap (cscale (1 - s)) w00))
                  (imap (cscale t) (imap (cscale (1 - s)) w01)))
       (imap (cscale (1 - t)) (imap (cscale s) w10)))
    (imap (cscale t) (imap (cscale s) w11)).

(** A translation [a + s] with a whole part [a] and a fraction [s], in both
    axes, whose windows lie within the object. *)
Definition inside (sh osh : nat * nat) (p : (nat * nat) * (R * R)) : bool :=
  [&& 0 <= p.2.1 < 1, 0 <= p.2.2 < 1,
      (p.1.1 + sh.1 + 1 <= osh.1)%N & (p.1.2 + sh.2 + 1 <= osh.2)%N].

Definition translation_of (p : (nat * nat) * (R * R)) : R * R :=
  (p.1.1%:R + p.2.1, p.1.2%:R + p.2.2).

Lemma floor_nat_frac (a : nat) (s : R) :
  0 <= s < 1 -> Num.floor (a%:R + s) = Posz a.
Proof.
case/andP=> s0 s1; apply: floor_def.
by rewrite intrD -pmulrn lerDl s0 ltrD2l.
Qed.

Lemma to_int32_frac (a n : nat) (s : R) :
  0 <= s < 1 -> (a <= n)%N -> (Z.of_nat n < 2 ^ 31)%PyZ ->
  to_int32 (Num.floor ((Num.floor (a%:R + s))%:~R : R)) = Z.of_nat a.
Proof.
move=> bs /Z_of_nat_le le lt.
by rewrite floor_nat_frac // intrKfloor /to_int32 /= wrap32_small //; lia.
Qed.

Lemma subpixel_frac (a : nat) (s : R) :
  0 <= s < 1 -> a%:R + s - (Num.floor (a%:R + s))%:~R = s.
Proof. by move=> bs; rewrite floor_nat_frac // -pmulrn addrAC subrr add0r. Qed.

Lemma select_lerp h w (s t : R) (w00 w01 w10 w11 : image) :
  has_shape h w w00 -> has_shape h w w01 ->
  has_shape h w w10 -> has_shape h w w11 ->
  (x <- tbroadcast2 +%R
          (tscale (1 - t) (tscale (1 - s) ((h, w), w00)))
          (tscale t (tscale (1 - s) ((h, w), w01))) ;;
   x <- tbroadcast2 +%R x (tscale (1 - t) (tscale s ((h, w), w10))) ;;
   tbroadcast2 +%R x (tscale t (tscale s ((h, w), w11))))
  = Py.ret ((h, w), lerp2 s t w00 w01 w10 w11).
Proof.
move=> h00 h01 h10 h11; rewrite /tscale /fst /snd.
have i2 (a b : R) (x : image) :
    has_shape h w x -> has_shape h w (imap (cscale a) (imap (cscale b) x)).
  by move=> hx; do 2![apply: has_shape_imap].
rewrite (tbroadcast2_same _ (i2 _ _ _ h00) (i2 _ _ _ h01)) /=.
rewrite (tbroadcast2_same _ (has_shape_imap2 _ (i2 _ _ _ h00) (i2 _ _ _ h01))
                          (i2 _ _ _ h10)) /=.
by rewrite (tbroadcast2_same _
     (has_shape_imap2 _ (has_shape_imap2 _ (i2 _ _ _ h00) (i2 _ _ _ h01))
                      (i2 _ _ _ h10)) (i2 _ _ _ h11)).
Qed.

Lemma has_shape_lerp2 h w (s t : R) (w00 w01 w10 w11 : image) :
  has_shape h w w00 -> has_shape h w w01 ->
  has_shape h w w10 -> has_shape h w w11 ->
  has_shape h w (lerp2 s t w00 w01 w10 w11).
Proof.
by move=> h00 h01 h10 h11; rewrite /lerp2;
   do ![apply: has_shape_imap2 | apply: has_shape_imap].
Qed.

(** The four windows of one translation. *)
Definition windows_of (object : image) (sh : nat * nat)
    (p : (nat * nat) * (R * R)) : image :=
  lerp2 p.2.1 p.2.2
    (window object sh p.1.1 p.1.2) (window object sh p.1.1 (p.1.2 + 1))
    (window object sh (p.1.1 + 1) p.1.2)
    (window object sh (p.1.1 + 1) (p.1.2 + 1)).

Lemma get_exit_waves_windows (probe object : image)
    (offs : seq ((nat * nat) * (R * R))) :
  let sh := shape2 probe in
  let osh := shape2 object in
  rectangular probe -> rectangular object -> offs != [::] ->
  (Z.of_nat osh.1 < 2 ^ 31)%PyZ -> (Z.of_nat osh.2 < 2 ^ 31)%PyZ ->
  all (inside sh osh) offs ->
  get_exit_waves probe object [seq translation_of p | p <- offs]
  = Py.ret [seq imap2 (@cmult R) probe (windows_of object sh p) | p <- offs].
Proof.
move=> sh osh rp /rectangular_shape ho n0 b0 b1 Hall.
rewrite /get_exit_waves; set zs := zip _ _.
have Ez : zs = [seq ((Z.of_nat p.1.1, Z.of_nat p.1.2), p.2) | p <- offs].
  rewrite /zs /map2 {zs}; elim: offs Hall {n0} => [|p l IH] //=.
  case/andP=> /and4P[s1 s2 h1 h2] /IH ->.
  have l1 : (p.1.1 <= osh.1)%N.
    by apply: leq_trans h1; rewrite -addnA leq_addr.
  have l2 : (p.1.2 <= osh.2)%N.
    by apply: leq_trans h2; rewrite -addnA leq_addr.
  rewrite (to_int32_frac s1 l1) // (to_int32_frac s2 l2) //.
  by rewrite !subpixel_frac //; case: (p) => [[a b] [s t]].
rewrite Ez -map_comp.
rewrite (@sequence_map_in _ _ _
           (fun p => ((sh.1, sh.2), windows_of object sh p))) => [p|].
  move=> /(allP Hall) /and4P[s1 s2 h1 h2] /=.
  have le0 : (p.1.1 + sh.1 <= osh.1)%N by apply: leq_trans h1; rewrite leq_addr.
  have le1 : (p.1.2 + sh.2 <= osh.2)%N by apply: leq_trans h2; rewrite leq_addr.
  have le0' : (p.1.1 + 1 + sh.1 <= osh.1)%N by rewrite addnAC.
  have le1' : (p.1.2 + 1 + sh.2 <= osh.2)%N by rewrite addnAC.
  have a1 : (p.1.1 + 1 <= osh.1)%N.
    by apply: leq_trans le0'; rewrite leq_addr.
  have a2 : (p.1.2 + 1 <= osh.2)%N.
    by apply: leq_trans le1'; rewrite leq_addr.
  rewrite -[1%PyZ]/(Z.of_nat 1) !(add32_nat a1) // !(add32_nat a2) //.
  rewrite !(add32_nat le0) // !(add32_nat le1) //.
  rewrite !(add32_nat le0') // !(add32_nat le1') //.
  rewrite (tslice_window (sh := sh) ho le0 le1).
  rewrite (tslice_window (sh := sh) ho le0 le1').
  rewrite (tslice_window (sh := sh) ho le0' le1).
  rewrite (tslice_window (sh := sh) ho le0' le1').
  by apply: select_lerp; apply: (has_shape_window ho).
rewrite /= -map_comp.
rewrite (@sequence_map_in _ _ _
           (fun p => ((sh.1, sh.2),
                      imap2 (@cmult R) probe (windows_of object sh p))))
  => [p|].
  move=> /(allP Hall) /and4P[s1 s2 h1 h2] /=.
  have le0 : (p.1.1 + sh.1 <= osh.1)%N by apply: leq_trans h1; rewrite leq_addr.
  have le1 : (p.1.2 + sh.2 <= osh.2)%N by apply: leq_trans h2; rewrite leq_addr.
  have le0' : (p.1.1 + 1 + sh.1 <= osh.1)%N by rewrite addnAC.
  have le1' : (p.1.2 + 1 + sh.2 <= osh.2)%N by rewrite addnAC.
  by apply: (tbroadcast2_probe rp); apply: has_shape_lerp2;
     apply: (has_shape_window ho).
by rewrite /= t_stack_same //; apply/eqP.
Qed.


Lemma at2_imap (f : C -> C) (x : image) h w i j :
  has_shape h w x -> (i < h)%N -> (j < w)%N ->
  at2 (imap f x) i j = f (at2 x i j).
Proof.
move=> hx lti ltj; case/andP: (hx) => /eqP sx _.
rewrite /at2 /imap (nth_map [::]) ?sx // (nth_map 0) //.
by rewrite (has_shape_rows hx) ?sx.
Qed.

Lemma at2_imap2 (f : C -> C -> C) (x y : image) h w i j :
  has_shape h w x -> has_shape h w y -> (i < h)%N -> (j < w)%N ->
  at2 (imap2 f x y) i j = f (at2 x i j) (at2 y i j).
Proof.
move=> hx hy lti ltj; case/andP: (hx) => /eqP sx _.
case/andP: (hy) => /eqP sy _.
rewrite /at2 /imap2 (nth_map2 _ [::] [::]) ?sx ?sy //.
by rewrite (nth_map2 _ 0 0) ?(has_shape_rows hx) ?(has_shape_rows hy) ?sx ?sy.
Qed.

Lemma at2_window (object : image) (n0 n1 : nat) (sh : nat * nat) a b i j :
  has_shape n0 n1 object -> (a + sh.1 <= n0)%N -> (b + sh.2 <= n1)%N ->
  (i < sh.1)%N -> (j < sh.2)%N ->
  at2 (window object sh a b) i j = at2 object (a + i) (b + j).
Proof.
move=> ho le0 le1 lti ltj; case/andP: (ho) => /eqP so _.
have lt0 : (a + i < n0)%N by apply: leq_trans le0; rewrite ltn_add2l.
have sz : size (take sh.1 (drop a object)) = sh.1.
  by rewrite size_takel // size_drop so leq_subRL // (leq_trans (leq_addr _ _) le0).
rewrite /at2 /window (nth_map [::]) ?sz //.
by rewrite nth_take // nth_drop nth_take // nth_drop.
Qed.

Lemma lerp2_at (s t : R) (w00 w01 w10 w11 : image) h w i j :
  has_shape h w w00 -> has_shape h w w01 ->
  has_shape h w w10 -> has_shape h w w11 -> (i < h)%N -> (j < w)%N ->
  at2 (lerp2 s t w00 w01 w10 w11) i j
  = creal ((1 - s) * (1 - t)) * at2 w00 i j
    + creal ((1 - s) * t) * at2 w01 i j
    + creal (s * (1 - t)) * at2 w10 i j
    + creal (s * t) * at2 w11 i j.
Proof.
move=> h00 h01 h10 h11 lti ltj.
have i1 (a : R) (x : image) : has_shape h w x -> has_shape h w (imap (cscale a) x).
  exact: has_shape_imap.
have E (a b : R) (x : image) : has_shape h w x ->
    at2 (imap (cscale b) (imap (cscale a) x)) i j = creal (a * b) * at2 x i j.
  move=> hx; rewrite (at2_imap _ (i1 _ _ hx)) // (at2_imap _ hx) //.
  by rewrite !cscaleE crealM mulrA [creal b * _]mulrC.
have s00 := i1 (1 - t) _ (i1 (1 - s) _ h00).
have s01 := i1 t _ (i1 (1 - s) _ h01).
have s10 := i1 (1 - t) _ (i1 s _ h10).
have s11 := i1 t _ (i1 s _ h11).
have s2 := has_shape_imap2 +%R s00 s01.
have s3 := has_shape_imap2 +%R s2 s10.
rewrite /lerp2 (at2_imap2 _ s3 s11) // (at2_imap2 _ s2 s10) //.
by rewrite (at2_imap2 _ s00 s01) // !E.
Qed.

(** X4: for a list of at least one translation, each with a whole part
    (a, b) and fractions (s, t) and with windows that keep one pixel of
    margin inside the object, on an object of fewer than 2^31 rows and
    columns (the window offsets are [int32]), [get_exit_waves] returns one
    exit wave per translation, and its pixel (i, j) is the probe pixel times
    the bilinear interpolation of the four object pixels around
    (a + i + s, b + j + t). *)
Theorem exit_waves_bilinear (probe object : image)
    (offs : seq ((nat * nat) * (R * R))) :
  let sh := shape2 probe in
  let osh := shape2 object in
  rectangular probe -> rectangular object -> offs != [::] ->
  (Z.of_nat osh.1 < 2 ^ 31)%PyZ -> (Z.of_nat osh.2 < 2 ^ 31)%PyZ ->
  all (inside sh osh) offs ->
  exists2 waves,
    get_exit_waves probe object [seq translation_of p | p <- offs]
    = Py.ret waves
    & size waves = size offs /\
      forall k i j, (k < size offs)%N -> (i < sh.1)%N -> (j < sh.2)%N ->
        let p := nth ((0, 0)%N, (0, 0)) offs k in
        let a := p.1.1 in let b := p.1.2 in
        let s := p.2.1 in let t := p.2.2 in
        at2 (nth [::] waves k) i j
        = at2 probe i j *
          (creal ((1 - s) * (1 - t)) * at2 object (a + i) (b + j)
           + creal ((1 - s) * t) * at2 object (a + i) (b + j).+1
           + creal (s * (1 - t)) * at2 object (a + i).+1 (b + j)
           + creal (s * t) * at2 object (a + i).+1 (b + j).+1).
Proof.
move=> sh osh rp ro n0 b0 b1 Hall.
rewrite (get_exit_waves_windows rp ro n0 b0 b1 Hall); eexists; first by [].
rewrite size_map; split=> // k i j ltk lti ltj /=.
set p := nth _ offs k.
have /and4P[s1 s2 h1 h2] : inside sh osh p by apply: (allP Hall); apply: mem_nth.
have hp := rectangular_shape rp; have ho := rectangular_shape ro.
have le0 : (p.1.1 + sh.1 <= osh.1)%N by apply: leq_trans h1; rewrite leq_addr.
have le1 : (p.1.2 + sh.2 <= osh.2)%N by apply: leq_trans h2; rewrite leq_addr.
have le0' : (p.1.1 + 1 + sh.1 <= osh.1)%N by rewrite addnAC.
have le1' : (p.1.2 + 1 + sh.2 <= osh.2)%N by rewrite addnAC.
have w00 := has_shape_window ho le0 le1.
have w01 := has_shape_window ho le0 le1'.
have w10 := has_shape_window ho le0' le1.
have w11 := has_shape_window ho le0' le1'.
rewrite (nth_map ((0, 0)%N, (0, 0))) // -/p.
rewrite (at2_imap2 _ hp (has_shape_lerp2 _ _ w00 w01 w10 w11)) //.
rewrite /windows_of (lerp2_at _ _ w00 w01 w10 w11) //.
rewrite (at2_window ho le0 le1) // (at2_window ho le0 le1') //.
rewrite (at2_window ho le0' le1) // (at2_window ho le0' le1') //.
by rewrite ![(_ + 1 + _)%N]addnAC !addn1.
Qed.

Lemma map2_nseq {A B D : Type} (f : A -> B -> D) n x y :
  map2 f (nseq n x) (nseq n y) = nseq n (f x y).
Proof. by rewrite /map2; elim: n => [|n IH] //=; rewrite IH. Qed.

Lemma imap2_full {A B D : Type} (f : A -> B -> D) sh x y :
  imap2 f (full sh x) (full sh y) = full sh (f x y).
Proof. by rewrite /imap2 /full !map2_nseq. Qed.

Lemma window_full (osh sh : nat * nat) (c : C) a b :
  (a + sh.1 <= osh.1)%N -> (b + sh.2 <= osh.2)%N ->
  window (full osh c) sh a b = full sh c.
Proof.
move=> le0 le1.
have l0 : (sh.1 <= osh.1 - a)%N.
  by rewrite leq_subRL // (leq_trans (leq_addr _ _) le0).
have l1 : (sh.2 <= osh.2 - b)%N.
  by rewrite leq_subRL // (leq_trans (leq_addr _ _) le1).
by rewrite /window /full drop_nseq (take_nseq _ l0) map_nseq drop_nseq
           (take_nseq _ l1).
Qed.

Lemma lerp2_full (s t : R) sh (c : C) :
  lerp2 s t (full sh c) (full sh c) (full sh c) (full sh c) = full sh c.
Proof.
rewrite /lerp2 !imap_full !imap2_full; congr full.
rewrite !cscaleE !mulrA -!crealM -!mulrDl -!crealD.
have -> : (1 - t) * (1 - s) + t * (1 - s) + (1 - t) * s + t * s = 1 :> R by ring.
by rewrite creal1 mul1r.
Qed.

Lemma imap2_fullr (f : C -> C -> C) (x : image) h w (c : C) :
  has_shape h w x -> imap2 f x (full (h, w) c) = imap (f^~ c) x.
Proof.
case/andP=> /eqP sx rx; rewrite /imap2 /imap /full /map2 /= -sx.
elim: x rx {sx} => [|r x IH] //= /andP[/eqP Er /IH ->]; congr cons.
by rewrite -Er; elim: (r) => [|z r' IHr] //=; rewrite IHr.
Qed.

(** X5: over an object that is the same value everywhere the interpolation
    weights add up to one: for a list of at least one translation inside the
    one-pixel margin, on an object of fewer than 2^31 rows and columns (the
    window offsets are [int32]), every exit wave is the probe times that
    value, whatever the sub-pixel part of the translation. *)
Theorem exit_waves_constant_object (probe : image) (osh : nat * nat) (c : C)
    (offs : seq ((nat * nat) * (R * R))) :
  let sh := shape2 probe in
  rectangular probe -> offs != [::] ->
  (Z.of_nat osh.1 < 2 ^ 31)%PyZ -> (Z.of_nat osh.2 < 2 ^ 31)%PyZ ->
  all (inside sh osh) offs ->
  get_exit_waves probe (full osh c) [seq translation_of p | p <- offs]
  = Py.ret [seq imap (fun z => z * c) probe | p <- offs].
Proof.
move=> sh rp n0 b0 b1 Hall.
have o0 : (0 < osh.1)%N.
  case: offs n0 Hall => [|p l] //= _ /andP[/and4P[_ _ h1 _] _].
  by apply: leq_trans h1; rewrite addn1.
have Es : shape2 (full osh c) = osh.
  rewrite /shape2 /full size_nseq [RHS]surjective_pairing; congr (_, _).
  by case: (osh.1) o0 => [|h] //= _; rewrite size_nseq.
have ro : rectangular (full osh c).
  by rewrite /rectangular Es /full all_nseq size_nseq eqxx orbT.
rewrite get_exit_waves_windows ?Es //; congr Py.ret.
apply/eq_in_map => p /(allP Hall) /and4P[s1 s2 h1 h2].
have le0 : (p.1.1 + sh.1 <= osh.1)%N by apply: leq_trans h1; rewrite leq_addr.
have le1 : (p.1.2 + sh.2 <= osh.2)%N by apply: leq_trans h2; rewrite leq_addr.
have le0' : (p.1.1 + 1 + sh.1 <= osh.1)%N by rewrite addnAC.
have le1' : (p.1.2 + 1 + sh.2 <= osh.2)%N by rewrite addnAC.
rewrite /windows_of !window_full // lerp2_full.
by rewrite [X in full X]surjective_pairing
           (imap2_fullr _ _ (rectangular_shape rp)).
Qed.

End Interpolation.

(** *** The angular-spectrum kernel *)

Section AngularSpectrum.
Variable R : realFieldType.
Local Notation C := (cplx R).
Local Notation image := (image R).
Variable omega : nat -> C.

(** Functions of scipy, numpy and [tools.cmath] that lines 73-79 call:
    [fftpack.fftfreq n d] has [n] entries when it returns, and it raises for
    some arguments (a product [n * d] of zero); [complex_to_float] lays a
    complex array out as (real, imaginary) pairs and keeps its shape. *)
Variable fftfreq : nat -> R -> option (seq R).
Hypothesis size_fftfreq : forall n d r, fftfreq n d = Some r -> size r = n.
Variable np_pi : R.
Variable np_sqrt : R -> R.
Variable np_exp : C -> C.
Variable complex_to_float : seq (seq C) -> image.
Hypothesis shape_complex_to_float :
  forall h w x, has_shape h w x -> has_shape h w (complex_to_float x).

(** [np.meshgrid(x, y)] with its default indexing ['xy']: both grids have
    [len(y)] rows and [len(x)] columns, the first repeats [x] in every row,
    the second repeats [y] down every column. *)
Definition meshgrid {A : Type} (x y : seq A) : seq (seq A) * seq (seq A) :=
  ([seq x | _ <- y], [seq nseq (size x) b | b <- y]).

(** Lines 54-81; [None] stands for an exception: of [fftfreq], or of the
    division by a wavelength of zero.  The cast to [float32] and the move to
    the GPU change no value of the model. *)
Definition generate_angular_spectrum_propagator (shape : nat * nat)
    (spacing : R * R) (wavelength z : R) : option image :=
  if fftfreq shape.1 spacing.1 is Some ki then
    if fftfreq shape.2 spacing.2 is Some kj then
      let K := meshgrid ki kj in
      if wavelength == 0 then None
      else
        let propagator :=
          imap2 (fun a b =>
                   np_exp (Cplx 0 1
                           * creal (np_sqrt ((2 * np_pi / wavelength) ^+ 2
                                             - a ^+ 2 - b ^+ 2))
                           * creal z))
                K.1 K.2 in
        Some (complex_to_float propagator)
    else None
  else None.

Lemma has_shape_meshgrid {A : Type} (x y : seq A) :
  has_shape (size y) (size x) (meshgrid x y).1
  /\ has_shape (size y) (size x) (meshgrid x y).2.
Proof.
rewrite /has_shape /meshgrid /= !size_map !eqxx /= !all_map.
by split; elim: y => [|b y IH] //=; rewrite ?size_nseq eqxx.
Qed.

(** X6: the kernel made for arrays of shape (n, m) has m rows and n
    columns: the default indexing of [np.meshgrid] puts the frequencies of
    the first array axis along the second kernel axis. *)
Theorem angular_spectrum_kernel_shape (shape : nat * nat) (spacing : R * R)
    (wavelength z : R) (kernel : image) :
  generate_angular_spectrum_propagator shape spacing wavelength z
  = Some kernel ->
  has_shape shape.2 shape.1 kernel.
Proof.
rewrite /generate_angular_spectrum_propagator.
case Ei: (fftfreq _ _) => [ki|] //; case Ej: (fftfreq _ _) => [kj|] //.
cbv zeta; case: ifP => // _ [<-]; apply: shape_complex_to_float.
have [h1 h2] := has_shape_meshgrid ki kj.
rewrite (size_fftfreq Ei) (size_fftfreq Ej) in h1 h2.
exact: has_shape_imap2.
Qed.

Lemma kernel_rows (shape : nat * nat) (spacing : R * R)
    (wavelength z : R) (kernel : image) :
  generate_angular_spectrum_propagator shape spacing wavelength z
  = Some kernel ->
  size kernel = shape.2.
Proof.
rewrite /generate_angular_spectrum_propagator.
case Ei: (fftfreq _ _) => [ki|] //; case Ej: (fftfreq _ _) => [kj|] //.
cbv zeta; case: ifP => // _ [<-].
have [h1 h2] := has_shape_meshgrid ki kj.
have /andP[/eqP -> _] := shape_complex_to_float (has_shape_imap2
  (fun a b => np_exp (Cplx 0 1
     * creal (np_sqrt ((2 * np_pi / wavelength) ^+ 2 - a ^+ 2 - b ^+ 2))
     * creal z)) h1 h2).
exact: size_fftfreq Ej.
Qed.

Lemma bpairs_mismatch {A B : Type} (a : seq A) (b : seq B) :
  size a != size b -> (1 < size a)%N -> (1 < size b)%N ->
  bpairs a b = Py.raise Py.RuntimeError.
Proof.
rewrite /bpairs => /negbTE ->.
by case: a b => [|x [|x' a]] // [|y [|y' b]].
Qed.

(** X7: on wavefields of shape (n, m) with n and m different and both
    above one, [near_field] with the kernel generated for that very shape
    raises: the kernel is m x n and cannot be broadcast against the n x m
    transform. *)
Theorem near_field_generated_kernel_raises (wavefront : seq image)
    (n m : nat) (spacing : R * R) (wavelength z : R) (kernel : image) :
  generate_angular_spectrum_propagator (n, m) spacing wavelength z
  = Some kernel ->
  wavefront != [::] -> all (has_shape n m) wavefront ->
  n != m -> (1 < n)%N -> (1 < m)%N ->
  near_field omega wavefront kernel = Py.raise Py.RuntimeError.
Proof.
move/kernel_rows => /= sk.
case: wavefront => [|a w] // _ /= /andP[ha _] nm n1 m1.
have n0 : (0 < n)%N by apply: ltn_trans n1.
case/andP: (has_shape_t_fft omega ha n0) => /eqP sf _.
by rewrite /near_field /= /broadcast2 bpairs_mismatch ?sk ?sf // eq_sym.
Qed.

End AngularSpectrum.

(** *** The number of exit waves *)

Section ExitWaveCount.
Variable R : archiRealFieldType.
Local Notation image := (image R).

Lemma size_sequence {A : Type} (l : seq (Py.result A)) (xs : seq A) :
  sequence l = Py.ret xs -> size xs = size l.
Proof.
elim: l xs => [|m l IH] xs /=; first by case=> <-.
case: m => [e|x] //=; case E: (sequence l) => [e|ys] //= [<-] /=.
by rewrite (IH ys).
Qed.

(** X8: [get_exit_waves] returns as many exit waves as it was given
    translations, and it returns none for no translation: stacking an empty
    list raises. *)
Theorem exit_waves_count (probe object : image) (translations : seq (R * R))
    (waves : seq image) :
  get_exit_waves probe object translations = Py.ret waves ->
  size waves = size translations /\ translations != [::].
Proof.
rewrite /get_exit_waves.
case E1: (sequence _) => [e|sels] //=; case E2: (sequence _) => [e|ws] //=.
rewrite /t_stack; case: ws E2 => [|w ws] // E2; case: ifP => // _ [<-].
have Es1 := size_sequence E1; have Es2 := size_sequence E2.
move: Es1 Es2; rewrite !size_map size_zip size_map2 !size_map !minnn /=.
move=> Es1 Es2; split; first by rewrite size_map Es2 Es1.
by move: Es2; rewrite Es1; clear; case: translations.
Qed.

End ExitWaveCount.

(** *** Worked instances of the transforms over the rationals *)

Lemma prim_root_one (R : realFieldType) : 1.-primitive_root (1 : cplx R).
Proof.
apply/andP; split=> //; apply/forallP => i.
by rewrite (ord1 i) unity_rootE expr1 !eqxx.
Qed.

Lemma prim_root_minus_one (R : realFieldType) :
  2.-primitive_root (-1 : cplx R).
Proof.
have N : ((-1 : cplx R) == 1) = false.
  by apply/eqP => /(congr1 (@Re R)) /= /eqP; rewrite eqNr oner_eq0.
apply/andP; split=> //; apply/forallP => i; rewrite unity_rootE.
case: i => [[|[|i]] lt] //=; first by rewrite expr1 N.
by rewrite sqrrN expr1n !eqxx.
Qed.

Definition ex_omega (n : nat) : cplx rat := if n == 2%N then -1 else 1.
Definition ex_wave : image rat := [:: [:: Cplx 1 2]; [:: Cplx 3 4]].
Definition ex_kernel : image rat := [:: [:: Cplx 1 1]; [:: Cplx 1 (-1)]].
Definition ex_offs : seq ((nat * nat) * (rat * rat)) :=
  [:: ((0, 1)%N, (2^-1, 0))].

Lemma far_field_round_trip_witness :
  inverse_far_field ex_omega (far_field ex_omega [:: ex_wave]) = [:: ex_wave].
Proof.
exact: (@far_field_round_trip rat ex_omega [:: ex_wave] 2 1 erefl
          (prim_root_minus_one _) (prim_root_one _)).
Defined.

Lemma far_field_inverted_witness :
  inverse_far_field ex_omega (far_field ex_omega [:: ex_wave]) = [:: ex_wave]
  /\ all (has_shape 2 1) (far_field ex_omega [:: ex_wave]).
Proof.
have [_ H1 H2] := @far_field_inverted rat ex_omega [:: ex_wave] 2 1 erefl
                    (prim_root_minus_one _) (prim_root_one _).
by split.
Defined.

(** [near_field] multiplies real part by real part and imaginary part by
    imaginary part: for the 1 x 1 kernel i and the 1 x 1 wavefield i it
    returns i, where the complex product of the kernel and the transform
    of the wavefield is -1. *)
Lemma near_field_componentwise :
  (if near_field ex_omega [:: [:: [:: Cplx 0 1]]] [:: [:: Cplx 0 1]]
      is inr w then w == [:: [:: [:: Cplx 0 1]]] else false)
  && (t_ifft ex_omega (imap2 *%R [:: [:: Cplx 0 1]]
                         (t_fft ex_omega [:: [:: Cplx 0 1]]))
      == [:: [:: Cplx (-1) 0]]).
Proof. by []. Qed.

Lemma far_field_of_inverse_witness :
  far_field ex_omega (inverse_far_field ex_omega [:: ex_wave]) = [:: ex_wave].
Proof.
exact: (@far_field_of_inverse rat ex_omega [:: ex_wave] 2 1 erefl
          (prim_root_minus_one _) (prim_root_one _)).
Defined.

Lemma near_field_round_trip_witness :
  (x <- near_field ex_omega [:: ex_wave] ex_kernel ;;
   inverse_near_field ex_omega x ex_kernel) = Py.ret [:: ex_wave].
Proof.
have nz : all (all (@nonzero_parts rat)) ex_kernel.
  by [].
exact: (@near_field_round_trip rat ex_omega [:: ex_wave] ex_kernel 2 1
          erefl erefl nz (prim_root_minus_one _) (prim_root_one _)).
Defined.

Lemma ex_offs_inside :
  all (inside (shape2 ex_probe) (shape2 ex_object)) ex_offs.
Proof.
by [].
Qed.

Lemma exit_waves_bilinear_witness :
  exists2 waves,
    get_exit_waves ex_probe ex_object [seq translation_of p | p <- ex_offs]
    = Py.ret waves
    & size waves = size ex_offs.
Proof.
have [waves E [Es _]] :=
  @exit_waves_bilinear rat ex_probe ex_object ex_offs
    erefl erefl erefl erefl erefl ex_offs_inside.
by exists waves.
Defined.

Lemma exit_waves_constant_object_witness :
  get_exit_waves ex_probe (full (2, 4)%N (Cplx 2 0))
                 [seq translation_of p | p <- ex_offs]
  = Py.ret [seq imap (fun z => z * Cplx 2 0) ex_probe | p <- ex_offs].
Proof.
exact: (@exit_waves_constant_object rat ex_probe (2, 4)%N (Cplx 2 0) ex_offs
          erefl erefl erefl erefl ex_offs_inside).
Defined.

Definition ex_fftfreq (n : nat) (d : rat) : option (seq rat) :=
  Some (nseq n d).
Definition ex_wave23 : image rat := nseq 2 (nseq 3 1).

Lemma size_ex_fftfreq n d r : ex_fftfreq n d = Some r -> size r = n.
Proof. by case=> <-; rewrite size_nseq. Qed.

Lemma angular_spectrum_kernel_shape_witness :
  if generate_angular_spectrum_propagator ex_fftfreq 3 id id id
       (2, 3)%N (1, 1) 1 1 is Some kernel
  then has_shape 3 2 kernel else false.
Proof.
case E: (generate_angular_spectrum_propagator _ _ _ _ _ _ _ _ _) => [k|] //.
exact: (@angular_spectrum_kernel_shape rat ex_fftfreq size_ex_fftfreq 3 id id
          id (fun h w x H => H) (2, 3)%N (1, 1) 1 1 k E).
Defined.

Lemma near_field_generated_kernel_witness :
  if generate_angular_spectrum_propagator ex_fftfreq 3 id id id
       (2, 3)%N (1, 1) 1 1 is Some kernel
  then near_field ex_omega [:: ex_wave23] kernel = Py.raise Py.RuntimeError
  else False.
Proof.
case E: (generate_angular_spectrum_propagator _ _ _ _ _ _ _ _ _) => [k|] //.
exact: (@near_field_generated_kernel_raises rat ex_omega ex_fftfreq
          size_ex_fftfreq 3 id id id (fun h w x H => H)
          [:: ex_wave23] 2 3 (1, 1) 1 1 k E erefl erefl erefl erefl erefl).
Defined.

Lemma ex_exit_waves :
  get_exit_waves ex_probe ex_object [seq translation_of p | p <- ex_offs]
  = Py.ret [seq imap2 (@cmult rat) ex_probe
                      (windows_of ex_object (shape2 ex_probe) p)
           | p <- ex_offs].
Proof.
exact: (@get_exit_waves_windows rat ex_probe ex_object ex_offs
          erefl erefl erefl erefl erefl ex_offs_inside).
Qed.

Lemma exit_waves_count_witness :
  size [seq imap2 (@cmult rat) ex_probe
                  (windows_of ex_object (shape2 ex_probe) p) | p <- ex_offs]
  = size [seq translation_of p | p <- ex_offs].
Proof. by have [] := exit_waves_count ex_exit_waves. Defined.

End Propagators.

(** ** [fancy_ptycho.py]: density matrices, simulation and export *)

Module FancyPtychoMethods.
Import FancyPtycho Propagators.

Section Methods.
Variable R : rcfType.
Local Notation C := (cplx R).
Local Notation image := (image R).
Local Notation rimage := (rimage R).
Local Notation model := (model R).
Local Notation dataset := (dataset R).

Variable pi : R.
Variable pixel_to_translations :
  seq (seq R) -> seq (R * R) -> seq R -> seq (seq R).

Local Notation __init__ := (__init__ pi).
Local Notation from_dataset := (from_dataset pi).
Local Notation save_results := (save_results pixel_to_translations).

(** *** What a model built from a dataset gives back *)

Lemma init_fields (a : init_args R) (m : model) :
  __init__ a = Py.ret m ->
  [/\ obj m = a_obj_guess a, weights m = a_weights a
    & forall b, a_background a = Some b -> background m = b].
Proof.
rewrite /FancyPtycho.__init__.
case: (getitem _ _) => [e|p0] //=; case: (t_max _) => [e|n] //=.
case: (getitem _ _) => [e|q0] //=; case: (select_loss _) => [e|l] //=.
by case=> <- /=; split=> // b ->.
Qed.

Lemma imap_id_pixels (P : pred R) (f : R -> R) (x : rimage) :
  (forall v, P v -> f v = v) -> all_pixels P x -> imap f x = x.
Proof.
move=> fP; rewrite /all_pixels /imap; elim: x => [|r x IH] //= /andP[Pr /IH ->].
by congr cons; elim: r Pr => [|v r IHr] //= /andP[/fP -> /IHr ->].
Qed.

(** X9: a model built by [from_dataset] from a dataset whose background is
    nowhere negative has its weights set, so that [save_results] finds them
    and returns; the results hold that background again, and the initial
    object with it. *)
Theorem background_round_trip (d : dataset) (n_modes : Z)
    (dm_rank : option Z) (ts : R) (sat : option R) (o : nat)
    (loss_name : Py.str) (sim : bool) (m : model) (b : rimage)
    (translations : seq (seq R)) :
  from_dataset d n_modes dm_rank ts sat o loss_name sim = Py.ret m ->
  ds_background d = Some b -> all_pixels (fun x => 0 <= x) b ->
  isSome (weights m)
  /\ exists2 r, save_results m translations = Py.ret r
              & r_background r = b /\ r_obj r = ds_obj d.
Proof.
rewrite /FancyPtycho.from_dataset => E Eb b0; move: E.
case: (t_max _) => [e|n] //=; case: (initial_weights _ _ _) => [e|W] //=.
move/init_fields=> [/= Eo Ew Ebg]; rewrite Ew; split=> //.
rewrite (save_results_weights _ _ Ew); eexists; first by []; split=> /=.
- rewrite (Ebg (imap Num.sqrt b)) ?Eb // imap_comp.
  by apply: imap_id_pixels b0 => v v0 /=; rewrite sqr_sqrtr.
- by rewrite Eo.
Qed.

Lemma from_dataset_succeeds (d : dataset) (n_modes : Z) (dm_rank : option Z)
    (ts : R) (sat : option R) (o : nat) (loss_name : Py.str) (sim : bool)
    (l : loss_t) (W : weights_t R) :
  flatten (ds_probe d) <> [::] -> ds_probe_support d = None ->
  initial_weights R (ds_len d) n_modes dm_rank = Py.ret W ->
  select_loss loss_name = Py.ret l ->
  exists m, from_dataset d n_modes dm_rank ts sat o loss_name sim = Py.ret m.
Proof.
move=> nz Esup EW El; rewrite /FancyPtycho.from_dataset.
case E: (flatten (ds_probe d)) nz => [|z s] // _ /=.
rewrite EW /= Esup.
by apply: (@init_succeeds R pi _ (ds_probe d) _ l) => //; rewrite E.
Qed.

(** *** [get_rhos] *)

(** [np.swapaxes(W, 0, 1)] and [np.matmul] on one matrix of the stack. *)
Definition swapaxes (W : seq (seq C)) : seq (seq C) :=
  mkseq (fun a => mkseq (fun r => at2 W r a) (size W)) (shape2 W).2.

Definition matmul (A B : seq (seq C)) : seq (seq C) :=
  mkseq (fun i => mkseq (fun j =>
    sumc (mkseq (fun k => at2 A i k * at2 B k j) (size B)))
    (shape2 B).2) (size A).

(** Lines 435-444; without weights the method fails on [None.dim]. *)
Definition get_rhos (m : model) : option (seq (seq (seq C))) :=
  match weights m with
  | Some (MatrixWeights Ws) =>
      Some [seq matmul (swapaxes W) (imap (@cconj R) W) | W <- Ws]
  | Some (ScalarWeights ws) =>
      Some (nseq (size ws) (identity_weights R (size (probe m))))
  | None => None
  end.

Lemma at2_default (x : seq (seq C)) i j :
  ~~ ((i < size x) && (j < size (nth [::] x i)))%N -> at2 x i j = 0.
Proof.
rewrite /at2 negb_and -!leqNgt => /orP[le|le]; last exact: nth_default.
by rewrite (nth_default _ le) nth_nil.
Qed.

Lemma at2_conj (W : seq (seq C)) k b :
  at2 (imap (@cconj R) W) k b = cconj (at2 W k b).
Proof.
have E1 : nth [::] [seq [seq cconj z | z <- r] | r <- W] k
          = [seq cconj z | z <- nth [::] W k].
  case: (ltnP k (size W)) => [lt|le]; first by rewrite (nth_map [::]).
  by rewrite nth_default ?size_map // [in RHS]nth_default.
rewrite /at2 /imap E1.
case: (ltnP b (size (nth [::] W k))) => [ltb|le]; first by rewrite (nth_map 0).
by rewrite nth_default ?size_map // [in RHS]nth_default // cconj0.
Qed.

Lemma rho_at (W : seq (seq C)) (a b : nat) :
  (a < (shape2 W).2)%N -> (b < (shape2 W).2)%N ->
  at2 (matmul (swapaxes W) (imap (@cconj R) W)) a b
  = \sum_(k < size W) at2 W k a * cconj (at2 W k b).
Proof.
move=> lta ltb; rewrite /matmul /swapaxes !size_mkseq shape2_imap size_map.
rewrite at2_mkseq // sumcE; apply: eq_bigr => k _.
by rewrite at2_mkseq // at2_conj.
Qed.

Lemma rho_shape (W : seq (seq C)) :
  has_shape (shape2 W).2 (shape2 W).2
            (matmul (swapaxes W) (imap (@cconj R) W)).
Proof.
rewrite /matmul /swapaxes /has_shape !size_mkseq shape2_imap eqxx /=.
by apply/(all_nthP [::]) => i; rewrite size_mkseq => lt;
   rewrite nth_mkseq // size_mkseq.
Qed.

Lemma rho_outside (W : seq (seq C)) (a b : nat) :
  ~~ ((a < (shape2 W).2) && (b < (shape2 W).2))%N ->
  at2 (matmul (swapaxes W) (imap (@cconj R) W)) a b = 0.
Proof.
move=> out; apply: at2_default; apply: contra out => /andP[lta ltb].
have hs := rho_shape W; have Er := has_shape_rows hs lta.
case/andP: (hs) => /eqP sz _; rewrite sz in lta.
by rewrite lta andTb -Er.
Qed.

Lemma identity_at (n a b : nat) :
  at2 (identity_weights R n) a b
  = if (a < n)%N && (b < n)%N && (a == b) then 1 else 0.
Proof.
rewrite /identity_weights.
case: (ltnP a n) => [lta|le] /=; last first.
  by rewrite at2_default // size_mkseq ltnNge le.
case: (ltnP b n) => [ltb|le] /=; first by rewrite at2_mkseq.
by rewrite at2_default // size_mkseq lta /= nth_mkseq // size_mkseq ltnNge le.
Qed.

Definition hermitian (rho : seq (seq C)) : Prop :=
  forall a b, at2 rho a b = cconj (at2 rho b a).

(** X10: every density matrix that [get_rhos] returns is Hermitian, and
    its diagonal entries are real and not negative. *)
Theorem get_rhos_hermitian (m : model) (rhos : seq (seq (seq C)))
    (rho : seq (seq C)) :
  get_rhos m = Some rhos -> rho \in rhos ->
  hermitian rho
  /\ forall a, Im (at2 rho a a) = 0 /\ 0 <= Re (at2 rho a a).
Proof.
rewrite /get_rhos; case: (weights m) => [[ws|Ws]|] // [<-].
  rewrite mem_nseq => /andP[_ /eqP ->]; split=> [a b|a].
    rewrite !identity_at [b == a]eq_sym [(b < _)%N && _]andbC.
    by case: ifP => _; rewrite ?cconj1 ?cconj0.
  by rewrite identity_at; case: ifP => _ /=; rewrite ?ler01.
case/mapP=> W _ ->; split=> [a b|a].
  case: (boolP ((a < (shape2 W).2) && (b < (shape2 W).2))%N) => [/andP[lta ltb]|out].
    rewrite !rho_at // (big_morph (@cconj R) (@cconjD R) (@cconj0 R)).
    by apply: eq_bigr => k _; rewrite cconjM cconjK mulrC.
  by rewrite !rho_outside ?cconj0 // andbC.
case: (boolP (a < (shape2 W).2)%N) => [lta|out]; last first.
  by rewrite rho_outside ?(negbTE out).
rewrite rho_at //.
have -> : \sum_(k < size W) at2 W k a * cconj (at2 W k a)
          = creal (\sum_(k < size W) cabssq (at2 W k a)).
  rewrite (big_morph (@creal R) (@crealD R) (@creal0 R)).
  by apply: eq_bigr => k _; rewrite cmul_conj.
by split=> //=; apply: Num.Theory.sumr_ge0 => k _; apply: cabssq_ge0.
Qed.


Lemma has_shape_mkseq2 {A : Type} (f : nat -> nat -> A) (n m : nat) :
  has_shape n m (mkseq (fun i => mkseq (f i) m) n).
Proof.
rewrite /has_shape size_mkseq eqxx /=.
by apply/(all_nthP [::]) => i; rewrite size_mkseq => lt;
   rewrite nth_mkseq // size_mkseq.
Qed.

Lemma matmul_identity (n : nat) :
  matmul (swapaxes (identity_weights R n))
         (imap (@cconj R) (identity_weights R n))
  = identity_weights R n.
Proof.
case: n => [|n] //; set W := identity_weights R n.+1.
have Es : shape2 W = (n.+1, n.+1) by rewrite /W /identity_weights shape2_mkseq.
have hW : has_shape n.+1 n.+1 W by apply: has_shape_mkseq2.
have := rho_shape W; rewrite Es /= => hr.
apply: (eq_from_at2 hr hW) => a b lta ltb.
rewrite rho_at ?Es // /W size_mkseq (bigD1 (Ordinal lta)) //= big1 => [k ne|].
  rewrite identity_at ltn_ord lta /=.
  by rewrite (negbTE (_ : nat_of_ord k != a)) ?mul0r.
by rewrite !identity_at lta ltb eqxx /= addr0 mul1r; case: ifP; 
   rewrite ?cconj1 ?cconj0.
Qed.

(** X11: right after [from_dataset], with [dm_rank] of [-1], [0] or [None]
    and at least one mode, every density matrix of [get_rhos] is the
    identity matrix, one per shot. *)
Theorem initial_rhos_identity (d : dataset) (n_modes : Z)
    (dm_rank : option Z) (ts : R) (sat : option R) (o : nat)
    (loss_name : Py.str) (sim : bool) (m : model) :
  from_dataset d n_modes dm_rank ts sat o loss_name sim = Py.ret m ->
  dm_rank = None \/ dm_rank = Some 0%PyZ \/ dm_rank = Some (-1)%PyZ ->
  (1 <= n_modes)%PyZ ->
  get_rhos m
  = Some (nseq (ds_len d) (identity_weights R (Z.to_nat n_modes))).
Proof.
rewrite /FancyPtycho.from_dataset => E Er n1; move: E.
case: (t_max _) => [e|n] //=.
case Ew: (initial_weights _ _ _) => [e|W] //= E.
have [_ Ep] := init_probe E; have [_ Em _] := init_fields E.
rewrite /get_rhos Em /=.
have Esz : size (probe m) = Z.to_nat n_modes.
  rewrite Ep size_map /=; case: (ds_probe_support d) => [sup|] /=;
    by rewrite ?size_map size_iota -Z2Nat.inj_succ; [lia | congr (Z.to_nat _); lia].
move: Ew; rewrite /initial_weights.
case: Er => [->|[->|->]] /=; try by case=> <-; rewrite size_nseq Esz.
case: Z.gtb_spec => [|_] /=; first by lia.
case: Z.ltb_spec => [|_] /=; first by lia.
by case=> <-; rewrite map_nseq -/(identity_weights R _) matmul_identity.
Qed.

(** *** Indices outside the stored offsets *)

Variable translations_to_pixel :
  seq (seq R) -> seq (seq R) -> seq R -> seq (R * R).
Variable ptycho_2D_sinc :
  seq (seq image) -> image -> seq (R * R) -> seq (seq image).
Variable t_expi : R -> C.

Local Notation interaction :=
  (interaction translations_to_pixel ptycho_2D_sinc t_expi).

(** X12: with stored translation offsets, [interaction] raises an
    [IndexError] as soon as one index of the batch lies outside
    [-len, len) of the offsets; it never wraps such an index around. *)
Theorem interaction_index_error (m : model) (index : seq Z)
    (translations : seq (seq R)) (offsets : seq (R * R)) :
  translation_offsets m = Some offsets ->
  has (fun i => ~~ valid_index (size offsets) i) index ->
  interaction m index translations = Py.raise Py.IndexError.
Proof.
move=> Eo bad.
rewrite /FancyPtycho.interaction /exit_waves_of /interaction_pix_trans Eo.
by rewrite (getitems_invalid bad).
Qed.

End Methods.

(** *** [sim_to_dataset] *)

Section Simulation.
Variable R : rcfType.
Local Notation rimage := (rimage R).

(** [CDIModel.forward], the simulation of a batch of shots: interaction,
    propagation and measurement. *)
Variable forward : seq Z -> seq (seq R) -> Py.result (seq rimage).

(** What [sim_to_dataset] can raise: the [ValueError] of [range] on a zero
    step, or an exception of the model and of torch. *)
Inductive sim_exn : Type :=
  | ValueError
  | Raised (e : Py.exn).

(** [range(0, n, step)] for a positive step, with fuel for the loop. *)
Fixpoint range_up (fuel i n step : nat) : seq nat :=
  if fuel is fuel'.+1 then
    if (i < n)%N then i :: range_up fuel' (i + step) n step else [::]
  else [::].

(** [range(0, n, step)]: a zero step is refused, a negative step counts
    nothing. *)
Definition py_range (n : nat) (step : Z) : option (seq nat) :=
  if (step =? 0)%PyZ then None
  else if (step <? 0)%PyZ then Some [::]
  else Some (range_up n 0 n (Z.to_nat step)).

(** [[x[i:i + width] for i in range(0, n, width)]] *)
Definition chunks {A : Type} (n : nat) (width : Z) (x : seq A)
    : option (seq (seq A)) :=
  omap (map (fun i => slice (Z.of_nat i) (Z.of_nat i + width)%PyZ x))
       (py_range n width).

(** Lines 394-418: the simulated patterns that go into the dataset, next to
    the translations. *)
Definition sim_to_dataset (indices : seq Z) (translations : seq (seq R))
    (calculation_width : option Z)
    : sim_exn + (seq (seq R) * seq rimage) :=
  let calculation_width :=
    if calculation_width is Some w then w else Z.of_nat (size indices) in
  match chunks (size indices) calculation_width indices,
        chunks (size indices) calculation_width translations with
  | Some index_chunks, Some translation_chunks =>
      match sequence [seq forward p.1 p.2
                     | p <- zip index_chunks translation_chunks] with
      | inl e => inl (Raised e)
      | inr [::] => inl (Raised Py.RuntimeError)
      | inr data => inr (translations, flatten data)
      end
  | _, _ => inl ValueError
  end.

Lemma slice_chunk {A : Type} (i w : nat) (x : seq A) :
  slice (Z.of_nat i) (Z.of_nat i + Z.of_nat w)%PyZ x = take w (drop i x).
Proof.
rewrite -Nat2Z.inj_add /slice !clip_index_nat plusE.
case: (leqP i (size x)) => [le|/ltnW lt]; last first.
  by rewrite drop_size (drop_oversize lt).
case: (leqP (i + w) (size x)) => [le'|/ltnW lt']; first by rewrite addKn.
have sz : (size (drop i x) <= w)%N by rewrite size_drop leq_subLR.
by rewrite (take_oversize sz) take_oversize // size_drop.
Qed.

Definition chunks_up {A : Type} (fuel i w : nat) (x : seq A) : seq (seq A) :=
  [seq take w (drop j x) | j <- range_up fuel i (size x) w].

Lemma chunksE {A : Type} (w : nat) (x : seq A) :
  (0 < w)%N ->
  chunks (size x) (Z.of_nat w) x = Some (chunks_up (size x) 0 w x).
Proof.
move=> w0; rewrite /chunks /py_range.
have w0Z : (0 < Z.of_nat w)%PyZ by move/ssrnat.ltP: w0 => w0; lia.
case: Z.eqb_spec => [|_]; first by lia.
case: Z.ltb_spec => [|_]; first by lia.
rewrite Nat2Z.id /= /chunks_up; congr Some; apply: eq_map => j.
exact: slice_chunk.
Qed.

Lemma flatten_chunks_up {A : Type} (fuel i w : nat) (x : seq A) :
  (0 < w)%N -> (size x - i <= fuel)%N ->
  flatten (chunks_up fuel i w x) = drop i x.
Proof.
move=> w0; rewrite /chunks_up.
elim: fuel i => [|fuel IH] i /=.
  by rewrite leqn0 subn_eq0 => le; rewrite drop_oversize.
case: ltnP => [lt le|le _] /=; last by rewrite drop_oversize.
have le' : (size x - (i + w) <= fuel)%N.
  rewrite subnDA leq_subLR (leq_trans le) // -addn1 addnC leq_add2r.
  exact: w0.
by rewrite (IH _ le') addnC -drop_drop cat_take_drop.
Qed.

Lemma all_chunks_up {A : Type} (fuel i w : nat) (x : seq A) :
  (0 < w)%N ->
  all (fun c => (0 < size c <= w)%N) (chunks_up fuel i w x).
Proof.
move=> w0; rewrite /chunks_up.
elim: fuel i => [|fuel IH] i //=; case: ltnP => [lt|le] //=.
by rewrite IH andbT size_take_min size_drop leq_min w0 subn_gt0 lt geq_minl.
Qed.

(** X13: for a positive width the chunks of [sim_to_dataset] cover the
    indices exactly: put end to end they are the index list again, none of
    them is empty and none is longer than the width. *)
Theorem sim_chunks_cover {A : Type} (width : nat) (x : seq A) :
  (0 < width)%N ->
  exists2 cs, chunks (size x) (Z.of_nat width) x = Some cs
    & flatten cs = x /\ all (fun c => (0 < size c <= width)%N) cs.
Proof.
move=> w0; exists (chunks_up (size x) 0 width x); first exact: chunksE.
split; last exact: all_chunks_up.
by rewrite flatten_chunks_up ?drop0 // subn0.
Qed.

(** X14: [sim_to_dataset] refuses degenerate batches: with no index and
    the default width, and with a width of zero, [range] raises a
    [ValueError]; with a negative width there is no chunk and stacking
    nothing raises. *)
Theorem sim_to_dataset_edge_cases (indices : seq Z)
    (translations : seq (seq R)) (w : Z) :
  [/\ sim_to_dataset [::] translations None = inl ValueError,
      sim_to_dataset indices translations (Some 0%PyZ) = inl ValueError
    & (w < 0)%PyZ ->
      sim_to_dataset indices translations (Some w)
      = inl (Raised Py.RuntimeError)].
Proof.
split=> // w0; rewrite /sim_to_dataset /chunks /py_range.
case: Z.eqb_spec => [|_]; first by lia.
by case: Z.ltb_spec => [_|] //=; lia.
Qed.

(** A forward model that treats the shots of a batch one by one. *)
Definition shotwise : Prop :=
  forall i1 i2 t1 t2, size i1 = size t1 ->
    forward (i1 ++ i2) (t1 ++ t2)
    = (x <- forward i1 t1 ;; y <- forward i2 t2 ;; Py.ret (x ++ y)).

Lemma forward_chunks_up (fuel i w : nat) (indices : seq Z)
    (translations : seq (seq R)) :
  shotwise -> (0 < w)%N -> size translations = size indices ->
  (i < size indices)%N -> (size indices - i <= fuel)%N ->
  (data <- sequence [seq forward p.1 p.2
                    | p <- zip (chunks_up fuel i w indices)
                               (chunks_up fuel i w translations)] ;;
   Py.ret (flatten data))
  = forward (drop i indices) (drop i translations).
Proof.
move=> sw w0 Es; rewrite /chunks_up Es.
elim: fuel i => [|fuel IH] i /=.
  by move=> lt; rewrite leqn0 subn_eq0 leqNgt lt.
move=> lt le; rewrite lt /=.
have le' : (size indices - (i + w) <= fuel)%N.
  rewrite subnDA leq_subLR (leq_trans le) // -addn1 addnC leq_add2r.
  exact: w0.
case: (ltnP (i + w) (size indices)) => [lt'|ge].
  have IHi := IH _ lt' le'.
  have Esz : size (take w (drop i indices))
             = size (take w (drop i translations)).
    by rewrite !size_take_min !size_drop Es.
  rewrite -[X in _ = forward X _](cat_take_drop w).
  rewrite -[X in _ = forward _ X](cat_take_drop w) (sw _ _ _ _ Esz).
  rewrite !drop_drop [(w + i)%N]addnC -IHi.
  case: (forward (take _ _) _) => [e|x] //=.
  by case: (sequence _) => [e|ys].
have -> : range_up fuel (i + w) (size indices) w = [::].
  by case: (fuel) => [|f] //=; rewrite ltnNge ge.
have s1 : (size (drop i indices) <= w)%N by rewrite size_drop leq_subLR.
have s2 : (size (drop i translations) <= w)%N.
  by rewrite size_drop Es leq_subLR.
rewrite /= (take_oversize s1) (take_oversize s2).
by case: (forward _ _) => [e|x] //=; rewrite cats0.
Qed.

(** X15: when the forward model treats the shots of a batch one by one,
    the simulated data do not depend on the calculation width: for every
    positive width, and for the default, they are what one call of
    [forward] on the whole batch returns. *)
Theorem sim_to_dataset_width_independent (indices : seq Z)
    (translations : seq (seq R)) (calculation_width : option Z) :
  shotwise -> (0 < size indices)%N -> size translations = size indices ->
  (if calculation_width is Some w then (0 < w)%PyZ else True) ->
  sim_to_dataset indices translations calculation_width
  = match forward indices translations with
    | inl e => inl (Raised e)
    | inr data => inr (translations, data)
    end.
Proof.
move=> sw i0 Es wpos; rewrite /sim_to_dataset.
set cw := (if calculation_width is Some w then w else _).
have [w w0 ->] : exists2 w, (0 < w)%N & cw = Z.of_nat w.
  rewrite /cw; case: (calculation_width) wpos => [z z0|_]; last by exists (size indices).
  exists (Z.to_nat z); last by rewrite Z2Nat.id //; lia.
  by apply/ssrnat.ltP; lia.
rewrite (chunksE _ w0) -Es (chunksE _ w0) Es.
have := forward_chunks_up sw w0 Es i0 (leq_subr 0 _).
rewrite !drop0 => <-.
case E: (sequence _) => [e|data] //=.
have := size_sequence E; rewrite size_map size_zip.
have [c [cs ->]] : exists c cs, chunks_up (size indices) 0 w indices = c :: cs.
  by rewrite /chunks_up; case: (size indices) i0 => [|n] //= _; do 2!eexists.
have [c' [cs' ->]] :
    exists c cs, chunks_up (size indices) 0 w translations = c :: cs.
  rewrite /chunks_up Es; case: (size indices) i0 => [|n] //= _.
  by do 2!eexists.
by rewrite /= minnSS; case: data {E}.
Qed.

End Simulation.

(** *** Worked instances over the real algebraic numbers *)

Section Instances.
Local Notation Rx := algR.

Definition ex_dataset_bg : dataset Rx :=
  {| ds_len := 2; ds_background := Some [:: [:: 1]]; ds_probe_basis := [::];
     ds_detector_basis := [::]; ds_det_slice := None;
     ds_surface_normal := [::]; ds_min_translation := (0, 0);
     ds_probe := [:: [:: 1]]; ds_rand := fun _ => [:: [:: 1]];
     ds_obj := [:: [:: 1]]; ds_probe_support := None |}.

Definition ex_model_weights (w : option (weights_t Rx)) : model Rx :=
  {| min_translation := (0, 0); probe_basis := [::]; detector_basis := [::];
     detector_slice := None; surface_normal := [::]; saturation := None;
     probe_norm := 1; probe := [:: [:: [:: 1]]]; obj := [:: [:: 1]];
     background := [:: [:: 0]]; weights := w;
     translation_offsets := None; translation_scale := 1;
     probe_support := [:: [:: true]]; oversampling := 1;
     simulate_probe_translation := false; I_phase := [::]; J_phase := [::];
     loss := amplitude_mse |}.

Definition ex_W : seq (seq (cplx Rx)) := [:: [:: Cplx 0 1; 1]].

Definition ex_forward (index : seq Z) (translations : seq (seq Rx))
    : Py.result (seq (rimage Rx)) :=
  Py.ret [seq [:: t] | t <- translations].

Lemma ex_select_loss :
  select_loss (Py.str_of "amplitude mse") = Py.ret amplitude_mse.
Proof. by vm_compute. Qed.

Lemma ex_from_dataset_ok (dm_rank : option Z) (W : weights_t Rx) :
  initial_weights Rx 2 1 dm_rank = Py.ret W ->
  exists m, from_dataset ex_pi ex_dataset_bg 1 dm_rank 1 None 1
                         (Py.str_of "amplitude mse") false = Py.ret m.
Proof.
move=> EW.
by apply: (@from_dataset_succeeds Rx ex_pi ex_dataset_bg 1 dm_rank 1 None 1 _
             false amplitude_mse W _ erefl EW ex_select_loss).
Qed.

Lemma background_round_trip_witness :
  match from_dataset ex_pi ex_dataset_bg 1 None 1 None 1
                     (Py.str_of "amplitude mse") false with
  | inr m =>
      exists2 r, save_results ex_pixel_to_translations m [::] = Py.ret r
               & r_background r = [:: [:: 1]]
  | inl _ => False
  end.
Proof.
case E: (from_dataset _ _ _ _ _ _ _ _ _) => [e|m].
  by have [m] := ex_from_dataset_ok (dm_rank := None) erefl; rewrite E.
have b0 : all_pixels (fun x : Rx => 0 <= x) [:: [:: 1]].
  by rewrite /all_pixels /= ler01.
have [_ [r Er [Eb _]]] :=
  background_round_trip ex_pixel_to_translations [::] E erefl b0.
by exists r.
Defined.

Lemma get_rhos_hermitian_witness :
  hermitian (matmul (swapaxes ex_W) (imap (@cconj Rx) ex_W)).
Proof.
have [] // := @get_rhos_hermitian Rx
  (ex_model_weights (Some (MatrixWeights [:: ex_W])))
  [:: matmul (swapaxes ex_W) (imap (@cconj Rx) ex_W)]
  (matmul (swapaxes ex_W) (imap (@cconj Rx) ex_W)) erefl (mem_head _ _).
Defined.

Lemma initial_rhos_identity_witness :
  match from_dataset ex_pi ex_dataset_bg 1 (Some (-1)%PyZ) 1 None 1
                     (Py.str_of "amplitude mse") false with
  | inr m => get_rhos m = Some (nseq 2 (identity_weights Rx 1))
  | inl _ => False
  end.
Proof.
case E: (from_dataset _ _ _ _ _ _ _ _ _) => [e|m].
  by have [m] := ex_from_dataset_ok (dm_rank := Some (-1)%PyZ) erefl;
     rewrite E.
exact: (initial_rhos_identity E (or_intror (or_intror erefl)) _).
Defined.

Lemma interaction_index_error_witness :
  interaction ex_translations_to_pixel ex_ptycho_2D_sinc ex_t_expi
    (ex_model None (Some [:: (1, 1); (3, 3)])) [:: 0%PyZ; 2%PyZ]
    [:: [:: 5; 7]; [:: 5; 7]]
  = Py.raise Py.IndexError.
Proof.
exact: (@interaction_index_error Rx ex_translations_to_pixel
          ex_ptycho_2D_sinc ex_t_expi
          (ex_model None (Some [:: (1, 1); (3, 3)])) [:: 0%PyZ; 2%PyZ]
          [:: [:: 5; 7]; [:: 5; 7]] [:: (1, 1); (3, 3)] erefl erefl).
Defined.

Lemma sim_chunks_cover_witness :
  exists2 cs, chunks 3 2 [:: 1; 2; 3]%N = Some cs
    & flatten cs = [:: 1; 2; 3]%N
      /\ all (fun c => (0 < size c <= 2)%N) cs.
Proof. exact: (@sim_chunks_cover nat 2 [:: 1; 2; 3]%N erefl). Defined.

Lemma sim_to_dataset_edge_witness :
  sim_to_dataset ex_forward [:: 0%PyZ] [:: [:: 1]] (Some (-1)%PyZ)
  = inl (Raised Py.RuntimeError).
Proof.
have [_ _ H] := sim_to_dataset_edge_cases ex_forward [:: 0%PyZ] [:: [:: 1]]
                  (-1)%PyZ.
exact: H erefl.
Defined.

Lemma ex_forward_shotwise : shotwise ex_forward.
Proof. by move=> i1 i2 t1 t2 _; rewrite /ex_forward map_cat. Qed.

Lemma sim_to_dataset_width_witness :
  sim_to_dataset ex_forward [:: 0; 1; 2]%PyZ [:: [:: 1]; [:: 2]; [:: 3]]
                 (Some 2%PyZ)
  = inr ([:: [:: 1]; [:: 2]; [:: 3]],
         [:: [:: [:: 1]]; [:: [:: 2]]; [:: [:: 3]]]).
Proof.
exact: (@sim_to_dataset_width_independent Rx ex_forward [:: 0; 1; 2]%PyZ
          [:: [:: 1]; [:: 2]; [:: 3]] (Some 2%PyZ) ex_forward_shotwise
          erefl erefl erefl).
Defined.

End Instances.
(** *** The translation offsets of a new model *)

Section InitialOffsets.
Variable R : rcfType.
Local Notation C := (cplx R).
Local Notation image := (image R).
Local Notation model := (model R).
Local Notation dataset := (dataset R).

Variable pi : R.
Variable translations_to_pixel :
  seq (seq R) -> seq (seq R) -> seq R -> seq (R * R).

Lemma init_geometry (a : init_args R) (m : model) :
  __init__ pi a = Py.ret m ->
  [/\ min_translation m = a_min_translation a,
      probe_basis m = a_probe_basis a,
      surface_normal m = a_surface_normal a,
      translation_scale m = a_translation_scale a
    & translation_offsets m
      = omap (map (fun o => (o.1 / a_translation_scale a,
                             o.2 / a_translation_scale a)))
             (a_translation_offsets a)].
Proof.
rewrite /FancyPtycho.__init__.
case: (getitem _ _) => [e|p0] //=; case: (t_max _) => [e|n] //=.
case: (getitem _ _) => [e|q0] //=; case: (select_loss _) => [e|l] //=.
by case=> <-.
Qed.

Lemma getitem_nseq {A : Type} (n : nat) (x : A) (i : Z) :
  valid_index n i -> getitem (nseq n x) i = Py.ret x.
Proof.
rewrite /valid_index /getitem size_nseq.
move=> /andP[/Z.leb_spec0 l1 /Z.ltb_spec0 l2].
case: n l1 l2 => [|n] l1 l2; first by lia.
have Enth k : nth x (nseq n.+1 x) k = x by rewrite nth_nseq; case: ifP.
case: Z.leb_spec => l3 /=.
  by case: Z.ltb_spec => [_|]; [rewrite -/(nseq n.+1 x) Enth | lia].
case: Z.leb_spec => [_|]; last by lia.
by case: Z.ltb_spec => [_|] /=; [rewrite -/(nseq n.+1 x) Enth | lia].
Qed.

Lemma getitems_nseq {A : Type} (n : nat) (x : A) (index : seq Z) :
  all (valid_index n) index ->
  getitems (nseq n x) index = Py.ret (nseq (size index) x).
Proof.
elim: index => [|i index IH] // /andP[vi /IH {}IH].
have -> : getitems (nseq n x) (i :: index)
          = (y <- getitem (nseq n x) i ;; ys <- getitems (nseq n x) index ;;
             Py.ret (y :: ys)) by [].
by rewrite (getitem_nseq _ vi) /= IH.
Qed.

(** X24: a model fresh from [from_dataset] has its translation offsets at
    zero: for indices inside the dataset, one per translation, and a
    translation scale that is not zero, [interaction] works with the
    converted translations less the minimum translation of the dataset,
    nothing added. *)
Theorem initial_offsets_vanish (d : dataset) (n_modes : Z)
    (dm_rank : option Z) (ts : R) (sat : option R) (o : nat)
    (loss_name : Py.str) (sim : bool) (m : model) (index : seq Z)
    (translations : seq (seq R)) :
  let converted :=
    translations_to_pixel (ds_probe_basis d) translations
                          (ds_surface_normal d) in
  from_dataset pi d n_modes dm_rank ts sat o loss_name sim = Py.ret m ->
  ts != 0 -> all (valid_index (ds_len d)) index ->
  size index = size converted ->
  interaction_pix_trans translations_to_pixel m index translations
  = Py.ret [seq sub2 p (ds_min_translation d) | p <- converted].
Proof.
move=> converted E ts0 vi Es; move: E; rewrite /FancyPtycho.from_dataset.
case: (t_max _) => [e|n] //=; case: (initial_weights _ _ _) => [e|W] //=.
move/init_geometry=> [/= Emin Eb En Ets Eo].
rewrite /interaction_pix_trans Eo Emin Eb En Ets map_nseq /=.
rewrite (getitems_nseq _ vi) /= /iadd_rows !size_map size_nseq Es eqxx.
congr Py.ret; rewrite map_nseq -/converted /map2.
set z := scale2 _ _.
have -> : z = (0, 0) by rewrite /z /scale2 /= !mul0r !mulr0.
rewrite -(size_map (fun p => sub2 p (ds_min_translation d)) converted).
elim: [seq _ | p <- converted] => [|p l IH] //=.
by rewrite IH /add2 /= !addr0 -surjective_pairing.
Qed.

End InitialOffsets.

Lemma initial_offsets_vanish_witness :
  match from_dataset ex_pi ex_dataset_bg 1 None 1 None 1
                     (Py.str_of "amplitude mse") false with
  | inr m =>
      interaction_pix_trans ex_translations_to_pixel m [:: 1%PyZ; (-1)%PyZ]
                            [:: [:: 5; 7]; [:: 6; 8]]
      = Py.ret [:: (5, 7); (6, 8)]
  | inl _ => False
  end.
Proof.
case E: (from_dataset _ _ _ _ _ _ _ _ _) => [e|m].
  by have [m] := ex_from_dataset_ok (dm_rank := None) erefl; rewrite E.
rewrite (@initial_offsets_vanish algR ex_pi ex_translations_to_pixel
           ex_dataset_bg 1 None 1 None 1 _ false m [:: 1%PyZ; (-1)%PyZ]
           [:: [:: 5; 7]; [:: 6; 8]] E (oner_neq0 _) erefl erefl).
by rewrite /= /sub2 /= !subr0.
Defined.

End FancyPtychoMethods.

(** ** [orthogonalize_probes] and [tidy_probes]: the eigenvalues under the
       square root *)

Module Tidy.
Import FancyPtycho Propagators FancyPtychoMethods.

Section Eigenvalues.
Variable R : rcfType.
Local Notation C := (cplx R).
Local Notation matrix := (seq (seq C)).

(** What the modelled lines end in when they do not return: an exception
    of scipy ([LinAlgError]), an exception of numpy for shapes that do not
    fit ([ValueError]), the [AttributeError] of a model without weights, or
    a nan.  [np.sqrt] of a negative number is a nan,
    with a warning and without an exception; a nan is no number of the
    field, and the model stops at the first one. *)
Inductive failure : Type :=
  | LinAlgError
  | ValueError
  | AttributeError
  | NotANumber.
Definition outcome (A : Type) : Type := (failure + A)%type.
Definition obind {A B : Type} (m : outcome A) (f : A -> outcome B)
    : outcome B :=
  match m with inl e => inl e | inr a => f a end.

Local Notation "x <~ m ;; f" := (obind m (fun x => f))
  (at level 61, m at next level, right associativity).

(** [scipy.linalg.eigh]: the eigenvalues in ascending order and the matrix
    whose columns are the eigenvectors, or a [LinAlgError]. *)
Variable eigh : matrix -> option (seq R * matrix).

Definition call {A : Type} (o : option A) : outcome A :=
  if o is Some a then inr a else inl LinAlgError.

Definition np_sqrt (x : R) : outcome R :=
  if 0 <= x then inr (Num.sqrt x) else inl NotANumber.

Fixpoint sqrt_all (w : seq R) : outcome (seq R) :=
  if w is x :: w' then
    y <~ np_sqrt x ;; ys <~ sqrt_all w' ;; inr (y :: ys)
  else inr [::].

Definition np_maximum (w : seq R) (c : R) : seq R := [seq Num.max x c | x <- w].

Definition np_diag (d : seq R) : matrix :=
  mkseq (fun i => mkseq (fun j => if i == j then creal (nth 0 d i) else 0)
                        (size d)) (size d).

Definition transpose (v : matrix) : matrix := swapaxes v.

(** [np.dot] of two matrices: the columns of the first are as many as the
    rows of the second. *)
Definition np_dot (A B : matrix) : outcome matrix :=
  if (shape2 A).2 == size B then inr (matmul A B) else inl ValueError.

(** Lines 84-94 of [orthogonalize_probes]: [B_dagger], the square root of
    the density matrix. *)
Definition B_dagger_of (density_matrix : matrix) : outcome matrix :=
  wv <~ call (eigh density_matrix) ;;
  let w := rev wv.1 in
  let v := [seq rev r | r <- wv.2] in
  let w := np_maximum w 0 in
  sq <~ sqrt_all w ;;
  np_dot (np_diag sq) (transpose (imap (@cconj R) v)).

(** Lines 490-504 of [tidy_probes]: the weight matrix of one shot, cut to
    [dm_rank] eigenvalues. *)
Definition new_W (dm_rank : nat) (rho : matrix) : outcome matrix :=
  wv <~ call (eigh rho) ;;
  let w := take dm_rank (rev wv.1) in
  let v := [seq take dm_rank (rev r) | r <- wv.2] in
  let w := np_maximum w 0 in
  sq <~ sqrt_all w ;;
  np_dot (np_diag sq) (transpose v).

Definition clamp (w : seq R) : seq R := [seq (if x < 0 then 0 else x) | x <- w].

Lemma sqrt_all_maximum (w : seq R) :
  sqrt_all (np_maximum w 0) = inr [seq Num.sqrt x | x <- clamp w].
Proof.
elim: w => [|x w IH] //=; rewrite IH /np_sqrt le_max lexx orbT /=.
by congr (inr (Num.sqrt _ :: _)); case: ltP => [/ltW|] /max_idPr.
Qed.

Lemma np_dot_number (A B : matrix) : np_dot A B <> inl NotANumber.
Proof. by rewrite /np_dot; case: ifP. Qed.

(** C8: the numbers handed to [np.sqrt] are the eigenvalues with every
    negative one replaced by zero, so none is negative and no square root
    is a nan, in [orthogonalize_probes] as in the loop of [tidy_probes];
    what these lines compute is the product with the square roots of the
    clamped eigenvalues, and they fail only where [eigh] raises or a shape
    does not fit. *)
Theorem negative_eigenvalues_clamped (density_matrix rho : matrix)
    (dm_rank : nat) :
  [/\ forall w : seq R,
        sqrt_all (np_maximum w 0) = inr [seq Num.sqrt x | x <- clamp w]
        /\ all (fun x => 0 <= x) (np_maximum w 0),
      B_dagger_of density_matrix
      = (wv <~ call (eigh density_matrix) ;;
         np_dot (np_diag [seq Num.sqrt x | x <- clamp (rev wv.1)])
                (transpose (imap (@cconj R) [seq rev r | r <- wv.2]))),
      new_W dm_rank rho
      = (wv <~ call (eigh rho) ;;
         np_dot (np_diag [seq Num.sqrt x
                         | x <- clamp (take dm_rank (rev wv.1))])
                (transpose [seq take dm_rank (rev r) | r <- wv.2]))
    & B_dagger_of density_matrix <> inl NotANumber
      /\ new_W dm_rank rho <> inl NotANumber].
Proof.
split.
- move=> w; split; first exact: sqrt_all_maximum.
  by rewrite /np_maximum all_map; apply/allP => x _ /=; rewrite le_max lexx orbT.
- rewrite /B_dagger_of; case: (eigh _) => [[w v]|] //=.
  by rewrite sqrt_all_maximum.
- rewrite /new_W; case: (eigh _) => [[w v]|] //=.
  by rewrite sqrt_all_maximum.
- split.
    rewrite /B_dagger_of; case: (eigh _) => [[w v]|] //=.
    by rewrite sqrt_all_maximum /=; apply: np_dot_number.
  rewrite /new_W; case: (eigh _) => [[w v]|] //=.
  by rewrite sqrt_all_maximum /=; apply: np_dot_number.
Qed.

End Eigenvalues.

(** *** The whole of [orthogonalize_probes] and [tidy_probes] *)

Section Orthogonalize.
Variable R : rcfType.
Local Notation C := (cplx R).
Local Notation image := (image R).
Local Notation matrix := (seq (seq C)).
Local Notation model := (model R).

Local Notation "x <~ m ;; f" := (obind m (fun x => f))
  (at level 61, m at next level, right associativity).

(** [scipy.linalg.eigh], [scipy.linalg.svd] with [full_matrices=False]
    ([u], [s] and [vh]) and [np.linalg.pinv]; [None] is a [LinAlgError]. *)
Variable eigh : matrix -> option (seq R * matrix).
Variable svd : matrix -> option (matrix * seq R * matrix).
Variable pinv : matrix -> option matrix.

Local Notation B_dagger_of := (B_dagger_of eigh).
Local Notation new_W := (new_W eigh).

Fixpoint osequence {A : Type} (l : seq (outcome A)) : outcome (seq A) :=
  if l is m :: l' then
    x <~ m ;; xs <~ osequence l' ;; inr (x :: xs)
  else inr [::].

(** [x.reshape(l, n * m)] of a stack of images and [x.reshape(l, n, m)] of
    a matrix: the entries keep their order, and their number has to fit. *)
Definition reshape2 (probes : seq image) : matrix :=
  [seq flatten p | p <- probes].
Definition reshape3 (l n m : nat) (x : matrix) : outcome (seq image) :=
  let flat := flatten x in
  if size flat == (l * (n * m))%N then
    inr (mkseq (fun a => mkseq (fun i =>
           take m (drop (a * (n * m) + i * m) flat)) n) l)
  else inl ValueError.

(** Lines 22-124 of [analysis.py].  The conversions between torch and numpy
    change no value; the function is modelled as returning both the probes
    and the transform [A], of which [keep_transform] passes on one or
    both. *)
Definition orthogonalize_probes (probes : seq image)
    (density_matrix : option matrix) (normalize : bool)
    : outcome (seq image * matrix) :=
  let l := size probes in
  let nm := shape2 (head [::] probes) in
  let probes_mat := reshape2 probes in
  let density_matrix :=
    if density_matrix is Some dm then dm else identity_weights R l in
  B_dagger <~ B_dagger_of density_matrix ;;
  x <~ np_dot B_dagger probes_mat ;;
  usv <~ call (svd x) ;;
  let u := usv.1.1 in let s := usv.1.2 in let vh := usv.2 in
  if normalize then
    ortho_probes <~ reshape3 l nm.1 nm.2 vh ;;
    B_dagger_inv <~ call (pinv B_dagger) ;;
    us <~ np_dot u (np_diag s) ;;
    A <~ np_dot B_dagger_inv us ;;
    inr (ortho_probes, A)
  else
    sv <~ np_dot (np_diag s) vh ;;
    ortho_probes <~ reshape3 l nm.1 nm.2 sv ;;
    B_dagger_inv <~ call (pinv B_dagger) ;;
    A <~ np_dot B_dagger_inv u ;;
    inr (ortho_probes, A).

(** [np.mean(rhos, axis=0)]; the mean of no matrix is a nan. *)
Definition np_mean0 (rhos : seq matrix) : outcome matrix :=
  if rhos is rho0 :: _ then
    inr (imap (fun z : C => z / (size rhos)%:R)
              (foldr (imap2 +%R) (full (shape2 rho0) 0) rhos))
  else inl NotANumber.

Definition set_probe (m : model) (probe : seq image)
    (weights : option (weights_t R)) : model :=
  {| min_translation := min_translation m;
     probe_basis := probe_basis m;
     detector_basis := detector_basis m;
     detector_slice := detector_slice m;
     surface_normal := surface_normal m;
     saturation := saturation m;
     probe_norm := probe_norm m;
     probe := probe;
     obj := obj m;
     background := background m;
     weights := weights;
     translation_offsets := translation_offsets m;
     translation_scale := translation_scale m;
     probe_support := probe_support m;
     oversampling := oversampling m;
     simulate_probe_translation := simulate_probe_translation m;
     I_phase := I_phase m;
     J_phase := J_phase m;
     loss := loss m |}.

(** Lines 446-512 of [fancy_ptycho.py]; the method returns nothing and
    stores new weights and probes in the model. *)
Definition tidy_probes (m : model) (normalization : R) (normalize : bool)
    : outcome model :=
  match weights m with
  | None => inl AttributeError
  | Some (ScalarWeights ws) =>
      r <~ orthogonalize_probes (probe m) None false ;;
      inr (set_probe m r.1 (Some (ScalarWeights ws)))
  | Some (MatrixWeights Ws) =>
      let rhos := [seq matmul (swapaxes W) (imap (@cconj R) W) | W <- Ws] in
      overall_rho <~ np_mean0 rhos ;;
      r <~ orthogonalize_probes (probe m) (Some overall_rho) normalize ;;
      let ortho_probes := r.1 in let A := r.2 in
      let Aconj := imap (@cconj R) A in
      let Atrans := transpose A in
      new_rhos <~ osequence [seq (y <~ np_dot rho Aconj ;; np_dot Atrans y)
                            | rho <- rhos] ;;
      new_rhos <~ (if normalization == 0 then inl NotANumber
                   else inr [seq imap (fun z : C => z / creal normalization) rho
                            | rho <- new_rhos]) ;;
      c <~ np_sqrt normalization ;;
      let ortho_probes := [seq imap (cscale c) p | p <- ortho_probes] in
      let dm_rank := size (head [::] Ws) in
      new_Ws <~ osequence [seq new_W dm_rank rho | rho <- new_rhos] ;;
      inr (set_probe m ortho_probes (Some (MatrixWeights new_Ws)))
  end.

End Orthogonalize.

(** *** The modes are orthogonal *)

Section Orthogonality.
Variable R : rcfType.
Local Notation C := (cplx R).
Local Notation image := (image R).
Local Notation matrix := (seq (seq C)).
Local Notation model := (model R).
Variable eigh : matrix -> option (seq R * matrix).
Variable svd : matrix -> option (matrix * seq R * matrix).
Variable pinv : matrix -> option matrix.

(** The inner product of two modes over their pixels. *)
Definition inner_flat (x y : seq C) : C :=
  sumc (map2 (fun a b => a * cconj b) x y).
Definition inner (x y : image) : C := inner_flat (flatten x) (flatten y).

Local Notation orthogonalize_probes := (orthogonalize_probes eigh svd pinv).
Local Notation tidy_probes := (tidy_probes eigh svd pinv).

Definition orthogonal_modes (probes : seq image) : Prop :=
  forall i j, i != j -> inner (nth [::] probes i) (nth [::] probes j) = 0.

(** What the proof uses of [scipy.linalg.svd]: the rows of [vh] are as long
    as the rows of the matrix that was decomposed, and any two of them are
    orthogonal. *)
Definition svd_rows_orthogonal : Prop :=
  forall x u s vh, svd x = Some (u, s, vh) ->
    all (fun r => size r == (shape2 x).2) vh
    /\ forall a b, a != b -> inner_flat (nth [::] vh a) (nth [::] vh b) = 0.

Lemma mkseqS {A : Type} (f : nat -> A) (n : nat) :
  mkseq f n.+1 = f 0%N :: mkseq (fun i => f i.+1) n.
Proof. by rewrite /mkseq /= -[1%N]addn0 iotaDl -map_comp. Qed.

Lemma flatten_pieces {A : Type} (s : seq A) (m n b : nat) :
  flatten (mkseq (fun i => take m (drop (b + i * m) s)) n)
  = take (n * m) (drop b s).
Proof.
elim: n b => [|n IH] b; first by rewrite mul0n take0.
rewrite mkseqS /= mul0n addn0 mulSn takeD drop_drop; congr (_ ++ _).
rewrite [(m + b)%N]addnC -IH; congr flatten; apply: eq_map => i /=.
by rewrite mulSn addnA.
Qed.

Lemma flatten_row {A : Type} (Y : seq (seq A)) (p a : nat) :
  all (fun r => size r == p) Y ->
  take p (drop (a * p) (flatten Y)) = nth [::] Y a.
Proof.
elim: Y a => [|r Y IH] a /=; first by rewrite nth_nil.
case/andP=> /eqP Er /IH{}IH; case: a => [|a] /=.
  by rewrite mul0n drop0 take_size_cat.
by rewrite mulSn addnC -drop_drop (drop_size_cat _ Er).
Qed.

Lemma inner_flat_nill (x : seq C) : inner_flat [::] x = 0.
Proof. by rewrite /inner_flat /map2; case: x. Qed.

Lemma inner_flat_nilr (x : seq C) : inner_flat x [::] = 0.
Proof. by rewrite /inner_flat /map2; case: x. Qed.

Lemma inner_flat_scale (c d : C) (x y : seq C) :
  inner_flat [seq c * z | z <- x] [seq d * z | z <- y]
  = c * cconj d * inner_flat x y.
Proof.
rewrite /inner_flat /map2; elim: x y => [|a x IH] [|b y] /=; rewrite ?mulr0 //.
by rewrite IH cconjM mulrDr; congr (_ + _); rewrite !mulrA [c * a * _]mulrAC.
Qed.

Lemma diag_at (s : seq R) (a k : nat) :
  at2 (np_diag s) a k
  = if (a < size s)%N && (k < size s)%N && (a == k) then creal (nth 0 s a)
    else 0.
Proof.
rewrite /np_diag.
case: (ltnP a (size s)) => [lta|le] /=; last first.
  by rewrite at2_default // size_mkseq ltnNge le.
case: (ltnP k (size s)) => [ltk|le] /=; first by rewrite at2_mkseq.
by rewrite at2_default // size_mkseq lta /= nth_mkseq // size_mkseq ltnNge le.
Qed.

Lemma diag_dot_row (s : seq R) (vh : matrix) (q a : nat) :
  size s = size vh -> all (fun r => size r == q) vh ->
  nth [::] (matmul (np_diag s) vh) a
  = [seq creal (nth 0 s a) * z | z <- nth [::] vh a].
Proof.
move=> Es rows; rewrite /matmul {1}/np_diag size_mkseq.
case: (ltnP a (size s)) => [lta|le]; last first.
  by rewrite nth_default ?size_mkseq // [nth [::] vh a]nth_default // -Es.
have ltv : (a < size vh)%N by rewrite -Es.
have Er : size (nth [::] vh a) = q by apply/eqP/(all_nthP [::] rows).
have Eq : (shape2 vh).2 = q.
  by move: rows ltv; rewrite /shape2; case: (vh) => [|r v] //= /andP[/eqP].
rewrite nth_mkseq // Eq; apply: (@eq_from_nth _ 0); rewrite size_mkseq ?size_map //.
move=> j ltj; rewrite nth_mkseq // (nth_map 0) ?Er // sumcE.
rewrite (bigD1 (Ordinal ltv)) //= big1 => [k ne|].
  rewrite diag_at lta Es ltn_ord /=.
  by rewrite (negbTE (_ : a != k)) ?mul0r // eq_sym.
by rewrite diag_at lta eqxx /= addr0.
Qed.

Lemma flatten_empty_rows {A : Type} (Y : seq (seq A)) :
  all (fun r => size r == 0%N) Y -> flatten Y = [::].
Proof. by elim: Y => [|r Y IH] //= /andP[/eqP/size0nil -> /IH]. Qed.

Lemma reshape3_orthogonal (l n m : nat) (Y : matrix) (ortho : seq image) :
  reshape3 l n m Y = inr ortho ->
  all (fun r => size r == (n * m)%N) Y \/ flatten Y = [::] ->
  (forall a b, a != b -> inner_flat (nth [::] Y a) (nth [::] Y b) = 0) ->
  orthogonal_modes ortho.
Proof.
rewrite /reshape3; case: ifP => // _ [<-] rows orth a b ab.
case: (ltnP a l) => [lta|le]; last first.
  by rewrite [nth _ _ a]nth_default ?size_mkseq // /inner /= inner_flat_nill.
case: (ltnP b l) => [ltb|le]; last first.
  by rewrite [nth _ _ b]nth_default ?size_mkseq // /inner /= inner_flat_nilr.
rewrite /inner !nth_mkseq // !flatten_pieces.
case: rows => [rows|->]; first by rewrite !(flatten_row _ rows); apply: orth.
by rewrite /inner_flat.
Qed.

Lemma shape2_matmul (A B : matrix) :
  (shape2 (matmul A B)).2 = if size A == 0%N then 0%N else (shape2 B).2.
Proof. by rewrite /matmul /shape2; case: (size A) => [|k] //=; rewrite size_mkseq. Qed.

Lemma size_flatten_rect {A : Type} (x : seq (seq A)) :
  rectangular x -> size (flatten x) = ((shape2 x).1 * (shape2 x).2)%N.
Proof.
rewrite /rectangular; move: (shape2 x).2 => w; rewrite /shape2 /=.
by elim: x => [|r x IH] //= /andP[/eqP Er /IH E]; rewrite size_cat Er E mulSn.
Qed.

Lemma shape2_diag (s : seq R) : (shape2 (np_diag s)).2 = size s.
Proof.
rewrite /np_diag; case E: (size s) => [|k] //.
by rewrite (shape2_mkseq (fun i j => if i == j then creal (nth 0 s i) else 0)).
Qed.

Lemma size_matmul (A B : matrix) : size (matmul A B) = size A.
Proof. by rewrite /matmul size_mkseq. Qed.

Lemma size_diag (s : seq R) : size (np_diag s) = size s.
Proof. by rewrite /np_diag size_mkseq. Qed.

Lemma orthogonalize_probes_orthogonal (probes ortho : seq image)
    (dm : option matrix) (normalize : bool) (A : matrix) (n k : nat) :
  svd_rows_orthogonal -> all (has_shape n k) probes ->
  orthogonalize_probes probes dm normalize = inr (ortho, A) ->
  orthogonal_modes ortho.
Proof.
move=> Hsvd hp; rewrite /Tidy.orthogonalize_probes.
case: (B_dagger_of _ _) => [f|B] //=.
rewrite {1}/np_dot; case: ifP => // _ /=.
case Es: (svd _) => [[[u s] vh]|] //=.
have [rows orth] := Hsvd _ _ _ _ Es.
set p := ((shape2 (head [::] probes)).1 * (shape2 (head [::] probes)).2)%N.
have Ep : (shape2 (reshape2 probes)).2 = p.
  rewrite /reshape2 /shape2 /= /p; case: (probes) hp => [|x ps] //= /andP[hx _].
  have rx : rectangular x.
    case/andP: hx => /eqP sx; rewrite /rectangular /shape2 /=.
    by case: (x) sx => [|r x'] //= _ /andP[/eqP -> ->]; rewrite eqxx.
  exact: size_flatten_rect.
have rows' : all (fun r : seq C => size r == p) vh \/
             all (fun r : seq C => size r == 0%N) vh.
  by move: rows; rewrite shape2_matmul Ep; case: ifP => _; [right | left].
have fit (Y : matrix) (q : nat) :
    all (fun r : seq C => size r == q) Y -> (q = p \/ q = 0%N) ->
    all (fun r : seq C => size r == p) Y \/ flatten Y = [::].
  by move=> rY [<-|E0]; [left | right; apply: flatten_empty_rows; rewrite -E0].
case: normalize.
  case Er: (reshape3 _ _ _ vh) => [f|o] //=.
  case: (pinv B) => [Binv|] //=; case: (np_dot u _) => [f|us] //=.
  case: (np_dot Binv us) => [f|A'] //= [<- _].
  apply: reshape3_orthogonal Er _ orth.
  by case: rows' => rv; [left | right; apply: flatten_empty_rows].
rewrite {1}/np_dot shape2_diag; case: ifP => // /eqP Esz /=.
case Er: (reshape3 _ _ _ _) => [f|o] //=.
case: (pinv B) => [Binv|] //=; case: (np_dot Binv u) => [f|A'] //= [<- _].
have [q [rq Eq]] : exists q, all (fun r : seq C => size r == q) vh
                             /\ (q = p \/ q = 0%N).
  by case: rows' => rv; [exists p; split=> //; left | exists 0%N; split=> //; right].
have rowY a : nth [::] (matmul (np_diag s) vh) a
              = [seq creal (nth 0 s a) * z | z <- nth [::] vh a].
  exact: diag_dot_row Esz rq.
apply: reshape3_orthogonal Er _ _.
  apply: (fit _ q) => //; apply/(all_nthP [::]) => a.
  rewrite size_matmul size_diag => lta; rewrite rowY size_map.
  by apply: (all_nthP [::] rq); rewrite -Esz.
by move=> a b ab; rewrite !rowY inner_flat_scale orth // mulr0.
Qed.

Lemma inner_scale (c : R) (x y : image) :
  inner (imap (cscale c) x) (imap (cscale c) y)
  = creal c * cconj (creal c) * inner x y.
Proof.
have E (s : seq C) : [seq cscale c z | z <- s] = [seq creal c * z | z <- s].
  by apply: eq_map => z; rewrite cscaleE.
by rewrite /inner /imap -!map_flatten !E inner_flat_scale.
Qed.

Lemma orthogonal_scale (c : R) (probes : seq image) :
  orthogonal_modes probes ->
  orthogonal_modes [seq imap (cscale c) p | p <- probes].
Proof.
move=> H i j ij.
have E a : nth [::] [seq imap (cscale c) p | p <- probes] a
           = imap (cscale c) (nth [::] probes a).
  case: (ltnP a (size probes)) => [lt|le]; first by rewrite (nth_map [::]).
  by rewrite !nth_default ?size_map.
by rewrite !E inner_scale H // mulr0.
Qed.


End Orthogonality.

(** *** A worked instance over the real algebraic numbers *)

Section TidyInstances.
Local Notation Rx := algR.
Local Notation matrix := (seq (seq (cplx Rx))).

(** Decompositions of unitary matrices, which is what the worked instance
    runs into: the eigenvalues of the identity, the singular values of a
    permutation matrix, and the conjugate transpose as its inverse. *)
Definition ex_eigh (x : matrix) : option (seq Rx * matrix) :=
  Some (nseq (size x) 1, identity_weights Rx (size x)).
Definition ex_svd (x : matrix) : option (matrix * seq Rx * matrix) :=
  Some (x, nseq (size x) 1, diagonal_weights Rx (size x) (shape2 x).2).
Definition ex_pinv (x : matrix) : option matrix :=
  Some (transpose (imap (@cconj Rx) x)).

Definition ex_two_modes : model Rx :=
  {| min_translation := (0, 0); probe_basis := [::]; detector_basis := [::];
     detector_slice := None; surface_normal := [::]; saturation := None;
     probe_norm := 1; probe := [:: [:: [:: 1; 0]]; [:: [:: 0; 1]]];
     obj := [:: [:: 1]]; background := [:: [:: 0]];
     weights := Some (ScalarWeights [:: 1]);
     translation_offsets := None; translation_scale := 1;
     probe_support := [:: [:: true; true]]; oversampling := 1;
     simulate_probe_translation := false; I_phase := [::]; J_phase := [::];
     loss := amplitude_mse |}.

Lemma map2_mkseq {A B D : Type} (f : A -> B -> D) (g : nat -> A)
    (h : nat -> B) (n : nat) :
  map2 f (mkseq g n) (mkseq h n) = mkseq (fun i => f (g i) (h i)) n.
Proof.
rewrite /map2 /mkseq; elim: (iota 0 n) => [|i l IH] //=.
by rewrite IH.
Qed.

Lemma ex_svd_rows_orthogonal : svd_rows_orthogonal ex_svd.
Proof.
move=> x u s vh [_ _ <-]; split.
  by case/andP: (has_shape_mkseq2
       (fun i j => if i == j then 1 else 0 : cplx Rx) (size x) (shape2 x).2).
move=> a b ab; rewrite /diagonal_weights.
case: (ltnP a (size x)) => [lta|le]; last first.
  by rewrite [nth _ _ a]nth_default ?size_mkseq // inner_flat_nill.
case: (ltnP b (size x)) => [ltb|le]; last first.
  by rewrite [nth _ _ b]nth_default ?size_mkseq // inner_flat_nilr.
rewrite !nth_mkseq // /inner_flat map2_mkseq sumcE big1 // => j _.
case: eqP => [<-|_]; last by rewrite mul0r.
by rewrite eq_sym (negbTE ab) cconj0 mulr0.
Qed.

Lemma B_dagger_ofE (eigh : matrix -> option (seq Rx * matrix))
    (dm : matrix) (w : seq Rx) (v : matrix) :
  eigh dm = Some (w, v) ->
  B_dagger_of eigh dm
  = np_dot (np_diag [seq Num.sqrt x | x <- clamp (rev w)])
           (transpose (imap (@cconj Rx) [seq rev r | r <- v])).
Proof. by rewrite /B_dagger_of => -> /=; rewrite sqrt_all_maximum. Qed.

Lemma ex_tidy_ok :
  exists m', tidy_probes ex_eigh ex_svd ex_pinv ex_two_modes 1 false = inr m'.
Proof.
rewrite /tidy_probes /ex_two_modes /weights /probe /orthogonalize_probes.
rewrite (@B_dagger_ofE ex_eigh _ _ _ erefl).
by eexists; reflexivity.
Qed.


End TidyInstances.

End Tidy.

(** ** [CDTools/models/simple_ptycho.py] *)

Module SimplePtycho.
Import FancyPtycho.

Section Model.
Variable R : rcfType.
Local Notation C := (cplx R).
Local Notation image := (image R).

(** Functions of [tools.interactions] that the model calls and that are not
    part of the modelled sources. *)
Variable translations_to_pixel : seq (seq R) -> seq (seq R) -> seq (R * R).
Variable ptycho_2D_round : image -> image -> seq (R * R) -> seq image.

Record model : Type := Model {
  min_translation : R * R;
  probe_basis : seq (seq R);
  detector_slice : option slice2;
  probe_norm : R;
  probe : image;
  obj : image
}.

(** Lines 16-47; [cmath.cabs] is the modulus, [t.max] raises on a tensor
    without elements.  The wavelength, the detector geometry and the mask
    are stored unchanged and take part in none of the modelled methods. *)
Definition __init__ (probe_basis : seq (seq R))
    (detector_slice : option slice2) (probe_guess obj_guess : image)
    (min_translation : R * R) : Py.result model :=
  norm <- t_max [seq t_abs z | z <- flatten probe_guess] ;;
  Py.ret {| min_translation := min_translation;
            probe_basis := probe_basis;
            detector_slice := detector_slice;
            probe_norm := norm;
            probe := imap (fun z => cdivr z norm) probe_guess;
            obj := obj_guess |}.

(** Lines 93-100. *)
Definition interaction (m : model) (index : seq Z)
    (translations : seq (seq R)) : seq image :=
  let pix_trans := translations_to_pixel (probe_basis m) translations in
  let pix_trans := [seq sub2 p (min_translation m) | p <- pix_trans] in
  ptycho_2D_round (imap (cscale (probe_norm m)) (probe m)) (obj m) pix_trans.

(** Lines 181-185. *)
Definition save_results (m : model) : image * image :=
  (imap (cscale (probe_norm m)) (probe m), obj m).

Lemma foldl_max_ge (x0 : R) (s : seq R) :
  x0 <= foldl Num.max x0 s /\ {in s, forall y, y <= foldl Num.max x0 s}.
Proof.
elim: s x0 => [|x s IH] x0 /=; first by split.
have [le1 le2] := IH (Num.max x0 x); split.
  by apply: le_trans le1; rewrite le_max lexx.
move=> y; rewrite in_cons => /orP[/eqP ->|/le2 //].
by apply: le_trans le1; rewrite le_max lexx orbT.
Qed.

Lemma t_max_ge (s : seq R) (v : R) :
  t_max s = Py.ret v -> {in s, forall y, y <= v}.
Proof.
case: s => [|x s] //= [<-] y; rewrite in_cons.
have [le1 le2] := foldl_max_ge x s.
by case/orP=> [/eqP ->|/le2].
Qed.

Lemma t_abs_gt0 (z : C) : z != 0 -> 0 < t_abs z.
Proof.
by move=> z0; rewrite /t_abs sqrtr_gt0 lt0r cabssq_eq0 z0 cabssq_ge0.
Qed.

Lemma imap_scale_cdivr (n : R) (x : image) :
  n != 0 -> imap (cscale n) (imap (fun z => cdivr z n) x) = x.
Proof.
move=> n0; rewrite imap_comp; apply: imap_id_in => z /=.
exact: cscale_cdivr.
Qed.

(** X16: a probe guess with at least one pixel that is not zero comes
    back unchanged from [save_results] right after construction, and
    [interaction] hands that very guess, with the stored object and the
    pixel translations less [min_translation], to [ptycho_2D_round]. *)
Theorem probe_norm_round_trip (basis : seq (seq R)) (ds : option slice2)
    (probe_guess obj_guess : image) (min_tr : R * R) (index : seq Z)
    (translations : seq (seq R)) :
  has (fun z => z != 0) (flatten probe_guess) ->
  exists2 m, __init__ basis ds probe_guess obj_guess min_tr = Py.ret m
    & save_results m = (probe_guess, obj_guess)
      /\ interaction m index translations
         = ptycho_2D_round probe_guess obj_guess
             [seq sub2 p min_tr
             | p <- translations_to_pixel basis translations].
Proof.
case/hasP=> z zin z0; rewrite /__init__.
case E: (t_max _) => [e|n] /=.
  by case: (flatten probe_guess) zin E.
have n0 : n != 0.
  apply: lt0r_neq0; apply: lt_le_trans (t_abs_gt0 z0) _.
  exact: (t_max_ge E (map_f _ zin)).
eexists; first by [].
by rewrite /save_results /interaction /= imap_scale_cdivr.
Qed.

End Model.

Lemma probe_norm_round_trip_witness :
  exists2 m,
    __init__ [::] None [:: [:: 0; 1 : cplx algR]] [:: [:: 1]] (0, 0)
    = Py.ret m
    & save_results m = ([:: [:: 0; 1]], [:: [:: 1]]).
Proof.
have nz : has (fun z : cplx algR => z != 0) (flatten [:: [:: 0; 1]]).
  by rewrite /= oner_neq0 orbT.
have [m E [Es _]] :=
  @probe_norm_round_trip algR (fun _ _ => [::]) (fun _ _ _ => [::])
    [::] None [:: [:: 0; 1]] [:: [:: 1]] (0, 0) [::] [::] nz.
by exists m.
Defined.

End SimplePtycho.

(** ** [CDTools/models/time_resolved_rpi.py] *)

Module TimeResolvedRPI.
Import FancyPtycho Propagators.

Section Model.
Variable R : rcfType.
Local Notation C := (cplx R).
Local Notation image := (image R).

(** [tools.interactions.RPI_interaction], which is not part of the modelled
    sources. *)
Variable RPI_interaction : image -> image -> image.

(** What the modelled methods can raise: the error of a division by zero,
    or an exception of indexing and of torch. *)
Inductive exn : Type :=
  | ZeroDivisionError
  | Raised (e : Py.exn).

Definition result (A : Type) : Type := (exn + A)%type.

Definition lift {A : Type} (m : Py.result A) : result A :=
  match m with inl e => inl (Raised e) | inr a => inr a end.

(** [a // b] on Python integers. *)
Definition floordiv (a b : Z) : result Z :=
  if (b =? 0)%PyZ then inl ZeroDivisionError else inr (a / b)%PyZ.

Record model : Type := Model {
  framerate : Z;
  probe : seq image;
  obj : seq image;
  obj_support : image
}.

(** Line 148 of [from_dataset]: the number of object frames made for a
    stack of [n_probe] probes. *)
Definition n_modes (n_probe : nat) (framerate : Z) : result Z :=
  match floordiv (Z.of_nat n_probe - 1) framerate with
  | inl e => inl e
  | inr q => inr (q + 1)%PyZ
  end.

(** Lines 188-202 of [interaction]: one exit wave per probe, made with the
    object frame [i // framerate]; [t.cat] refuses an empty list. *)
Fixpoint exit_waves_from (m : model) (i : nat) (prs : seq image)
    : result (seq image) :=
  if prs is pr :: prs' then
    match floordiv (Z.of_nat i) (framerate m) with
    | inl e => inl e
    | inr obj_frame =>
        match lift (frame <- getitem (obj m) obj_frame ;;
                    broadcast2 *%R (obj_support m) frame) with
        | inl e => inl e
        | inr masked =>
            match exit_waves_from m i.+1 prs' with
            | inl e => inl e
            | inr waves => inr (RPI_interaction pr masked :: waves)
            end
        end
    end
  else inr [::].

Definition exit_wave_stack (m : model) : result (seq image) :=
  match exit_waves_from m 0 (probe m) with
  | inl e => inl e
  | inr [::] => inl (Raised Py.RuntimeError)
  | inr waves => inr waves
  end.

(** The value of [interaction]: the stack itself for an index without a
    length, the stack repeated once per index otherwise. *)
Inductive output : Type :=
  | Stack (waves : seq image)
  | Repeated (waves : seq (seq (seq image))).

Definition interaction (m : model) (index : option (seq Z)) : result output :=
  match exit_wave_stack m with
  | inl e => inl e
  | inr waves =>
      match index with
      | Some idx => inr (Repeated [:: nseq (size idx) waves])
      | None => inr (Stack waves)
      end
  end.

Lemma frame_bounds (p i : nat) (fr : Z) :
  (0 < fr)%PyZ -> (i < p)%N ->
  (0 <= Z.of_nat i / fr < (Z.of_nat p - 1) / fr + 1)%PyZ.
Proof.
move=> fr0 /ssrnat.ltP lt; split; first by apply: Z.div_pos; lia.
have : (Z.of_nat i / fr <= (Z.of_nat p - 1) / fr)%PyZ.
  by apply: Z.div_le_mono; lia.
by lia.
Qed.

Lemma getitem_nat {A : Type} (s : seq A) (x0 : A) (q : Z) :
  (0 <= q < Z.of_nat (size s))%PyZ ->
  getitem s q = Py.ret (nth x0 s (Z.to_nat q)).
Proof.
move=> bq; rewrite /getitem.
case: Z.leb_spec => [_|]; last by lia.
case: Z.ltb_spec => [_|] /=; last by lia.
case: s bq => [|x s] bq; first by move: bq => /=; lia.
by apply/congr1/set_nth_default/ssrnat.ltP; move: bq; case: (size _); lia.
Qed.

(** The exit wave that probe [i] makes with its object frame. *)
Definition exit_wave_of (m : model) (i : nat) : image :=
  RPI_interaction (nth [::] (probe m) i)
    (imap2 *%R (obj_support m)
           (nth [::] (obj m) (Z.to_nat (Z.of_nat i / framerate m)))).

Lemma exit_waves_fromE (m : model) (h w : nat) (i : nat) (prs : seq image) :
  (0 < framerate m)%PyZ ->
  n_modes (i + size prs) (framerate m) = inr (Z.of_nat (size (obj m))) ->
  has_shape h w (obj_support m) -> all (has_shape h w) (obj m) ->
  exit_waves_from m i prs
  = inr [seq RPI_interaction p.1
               (imap2 *%R (obj_support m)
                  (nth [::] (obj m)
                       (Z.to_nat (Z.of_nat p.2 / framerate m))))
        | p <- zip prs (iota i (size prs))].
Proof.
move=> fr0 En hs ho; elim: prs i En => [|pr prs IH] i En //=.
rewrite /floordiv; case: Z.eqb_spec => [|_]; first by lia.
have lt : (i < i + (size prs).+1)%N by rewrite -addSnnS leq_addr.
have bq := frame_bounds fr0 lt.
have Eq : ((Z.of_nat (i + (size prs).+1) - 1) / framerate m + 1)%PyZ
          = Z.of_nat (size (obj m)).
  move: En; rewrite /n_modes /floordiv.
  by case: Z.eqb_spec => [|_]; [lia | case].
rewrite Eq in bq; rewrite (getitem_nat [::] bq) /=.
have lto : (Z.to_nat (Z.of_nat i / framerate m) < size (obj m))%N.
  by apply/ssrnat.ltP; lia.
rewrite (broadcast2_same _ hs (allP ho _ (mem_nth [::] lto))) /=.
by rewrite IH // addSnnS.
Qed.

Lemma zip_iota_map {A B : Type} (f : A -> nat -> B) (x0 : A) (s : seq A)
    (k : nat) :
  [seq f p.1 p.2 | p <- zip s (iota k (size s))]
  = [seq f (nth x0 s (i - k)) i | i <- iota k (size s)].
Proof.
elim: s k => [|x s IH] k //=; rewrite subnn /= IH; congr cons.
apply/eq_in_map => i; rewrite mem_iota => /andP[lt _].
by have -> : (i - k)%N = (i - k.+1).+1 by rewrite subnS prednK // subn_gt0.
Qed.

(** X17: when the object has the [n_modes] frames that [from_dataset]
    makes for the probe stack and the frame rate is positive, the exit-wave
    stack of [interaction] never fails on a frame index: it holds one exit
    wave per probe, probe [i] paired with object frame [i // framerate]. *)
Theorem frames_in_range (m : model) (h w : nat) :
  (0 < framerate m)%PyZ -> probe m <> [::] ->
  n_modes (size (probe m)) (framerate m) = inr (Z.of_nat (size (obj m))) ->
  has_shape h w (obj_support m) -> all (has_shape h w) (obj m) ->
  exit_wave_stack m
  = inr [seq exit_wave_of m i | i <- iota 0 (size (probe m))].
Proof.
move=> fr0 p0 En hs ho; rewrite /exit_wave_stack.
rewrite (exit_waves_fromE (i := 0) fr0 _ hs ho) //.
rewrite (zip_iota_map (fun pr i => RPI_interaction pr
          (imap2 *%R (obj_support m)
             (nth [::] (obj m) (Z.to_nat (Z.of_nat i / framerate m)))))
          [::] (probe m) 0).
have -> : [seq exit_wave_of m i | i <- iota 0 (size (probe m))]
          = [seq RPI_interaction (nth [::] (probe m) (i - 0))
                   (imap2 *%R (obj_support m)
                      (nth [::] (obj m)
                           (Z.to_nat (Z.of_nat i / framerate m))))
            | i <- iota 0 (size (probe m))].
  by apply: eq_map => i; rewrite /exit_wave_of subn0.
by case: (probe m) p0.
Qed.

End Model.

(** *** The low-resolution crop of [from_dataset] *)

Section Crop.
Variable A : Type.

(** Lines 155-159: the middle [obj_size] pixels of an array that has the
    shape of the probe. *)
Definition lowres_crop (obj_size : Z * Z) (x : seq (seq A)) : seq (seq A) :=
  let sh := shape2 x in
  let pad0l := ((Z.of_nat sh.1 - obj_size.1) / 2)%PyZ in
  let pad0r := (Z.of_nat sh.1 - obj_size.1 - pad0l)%PyZ in
  let pad1l := ((Z.of_nat sh.2 - obj_size.2) / 2)%PyZ in
  let pad1r := (Z.of_nat sh.2 - obj_size.2 - pad1l)%PyZ in
  slice2d pad0l (- pad0r)%PyZ pad1l (- pad1r)%PyZ x.

Lemma size_slice {B : Type} (a b : Z) (s : seq B) :
  size (slice a b s)
  = minn (clip_index (size s) b - clip_index (size s) a)
         (size s - clip_index (size s) a).
Proof. by rewrite /slice size_take_min size_drop. Qed.

Lemma size_crop1 {B : Type} (o : Z) (s : seq B) :
  let n := Z.of_nat (size s) in
  let padl := ((n - o) / 2)%PyZ in
  let padr := (n - o - padl)%PyZ in
  (0 <= o < n)%PyZ -> size (slice padl (- padr)%PyZ s) = Z.to_nat o.
Proof.
move=> n padl padr bo.
have bl : (0 <= padl /\ 2 * padl <= n - o /\ n - o < 2 * padl + 2)%PyZ.
  have := Z.div_mod (n - o) 2; have := Z.mod_pos_bound (n - o) 2.
  by rewrite /padl; lia.
have El : clip_index (size s) padl = Z.to_nat padl.
  rewrite /clip_index; case: Z.ltb_spec => [|_]; first by lia.
  by apply/minn_idPl/ssrnat.leP; rewrite -/n in bl *; lia.
have Er : clip_index (size s) (- padr)%PyZ = Z.to_nat (o + padl).
  rewrite /clip_index; case: Z.ltb_spec => [_|]; last by rewrite /padr; lia.
  by congr Z.to_nat; rewrite /padr -/n; lia.
rewrite size_slice El Er.
have -> : (Z.to_nat (o + padl) - Z.to_nat padl)%N = Z.to_nat o.
  by rewrite -minusE; lia.
apply/minn_idPl/ssrnat.leP; rewrite -minusE.
by move: bl; rewrite /n; lia.
Qed.

Lemma slice_empty_to_0 {B : Type} (a : Z) (s : seq B) :
  (0 <= a)%PyZ -> slice a (- 0)%PyZ s = [::].
Proof.
move=> a0; rewrite /slice /= /clip_index /=.
by case: Z.ltb_spec => [|_]; [lia | rewrite min0n sub0n take0].
Qed.

Lemma shape2_of_shape {B : Type} (x : seq (seq B)) (n m : nat) :
  has_shape n m x -> (0 < n)%N -> shape2 x = (n, m).
Proof.
rewrite /has_shape /shape2; case: x => [|r x] /=; first by case: n.
by case/andP=> /eqP <- /andP[/eqP <-].
Qed.

(** X18: the crop keeps exactly [obj_size] pixels along each axis when the
    object is smaller than the probe along that axis. *)
Theorem lowres_crop_shape (obj_size : Z * Z) (x : seq (seq A)) (p0 p1 : nat) :
  has_shape p0 p1 x ->
  (0 <= obj_size.1 < Z.of_nat p0)%PyZ ->
  (0 <= obj_size.2 < Z.of_nat p1)%PyZ ->
  has_shape (Z.to_nat obj_size.1) (Z.to_nat obj_size.2)
            (lowres_crop obj_size x).
Proof.
move=> hx b0 b1; have p0pos : (0 < p0)%N by apply/ssrnat.ltP; lia.
case/andP: (hx) => /eqP sx rows.
rewrite /lowres_crop (shape2_of_shape hx p0pos) /= /slice2d /has_shape.
rewrite size_map -sx size_crop1 ?sx // eqxx /= all_map.
rewrite {1}/slice; apply: sub_all (all_take_drop _ _ rows) => r /= /eqP sr.
by rewrite -sr size_crop1 ?sr.
Qed.

(** X19: when the object is as large as the probe along one axis the crop
    has no pixel left: the upper bound [-0] of the slice is the index 0. *)
Theorem lowres_crop_empty (obj_size : Z * Z) (x : seq (seq A)) (p0 p1 : nat) :
  has_shape p0 p1 x -> (0 < p0)%N ->
  obj_size.1 = Z.of_nat p0 \/ obj_size.2 = Z.of_nat p1 ->
  flatten (lowres_crop obj_size x) = [::].
Proof.
move=> hx p0pos E; rewrite /lowres_crop (shape2_of_shape hx p0pos) /=.
case: E => ->; rewrite Z.sub_diag /= /slice2d.
  by rewrite slice_empty_to_0.
by elim: (slice _ _ x) => [|r l IH] //=; rewrite slice_empty_to_0.
Qed.

End Crop.

(** Worked instances. *)

Definition ex_rpi_model : model algR :=
  {| framerate := 2; probe := [:: [:: [:: 1]]; [:: [:: 1]]; [:: [:: 1]]];
     obj := [:: [:: [:: 1]]; [:: [:: 1]]]; obj_support := [:: [:: 1]] |}.

Lemma frames_in_range_witness :
  exit_wave_stack (fun pr o => o) ex_rpi_model
  = inr [seq exit_wave_of (fun pr o => o) ex_rpi_model i | i <- iota 0 3].
Proof.
by apply: (@frames_in_range algR (fun pr o => o) ex_rpi_model 1 1).
Defined.

Definition ex_array : seq (seq nat) := nseq 4 (iota 0 4).

Lemma lowres_crop_shape_witness :
  has_shape 2 2 (lowres_crop (2, 2)%PyZ ex_array).
Proof.
have b : (0 <= 2 < Z.of_nat 4)%PyZ by [].
exact: (@lowres_crop_shape nat (2, 2)%PyZ ex_array 4 4 erefl b b).
Defined.

Lemma lowres_crop_empty_witness :
  flatten (lowres_crop (4, 2)%PyZ ex_array) = [::].
Proof.
exact: (@lowres_crop_empty nat (4, 2)%PyZ ex_array 4 4 erefl erefl
          (or_introl erefl)).
Defined.

(** *** [regularizer] *)

Section Regularizer.
Variable R : rcfType.
Local Notation C := (cplx R).
Local Notation image := (image R).

(** [t.sum(t.abs(x)**2)] over a stack of frames. *)
Definition sum_abs_sq (frames : seq image) : R :=
  sumr [seq t_abs z ^+ 2 | z <- flatten (flatten frames)].

(** Lines 241-243: [factors[0]], [obj[0]] and [factors[1]] are read in
    this order, each raising an [IndexError] when it is missing. *)
Definition regularizer (m : model R) (factors : seq R) : Py.result R :=
  f0 <- getitem factors 0 ;;
  frame0 <- getitem (obj m) 0 ;;
  f1 <- getitem factors 1 ;;
  Py.ret (f0 * sum_abs_sq [:: frame0] + f1 * sum_abs_sq (behead (obj m))).

Lemma sum_abs_sq_ge0 (frames : seq image) : 0 <= sum_abs_sq frames.
Proof.
rewrite /sum_abs_sq; apply: FancyPtycho.sumr_ge0.
by rewrite all_map; apply/allP => z _ /=; apply: sqr_ge0.
Qed.

(** X23: with two factors that are not negative and an object of at least
    one frame the regularizer returns a penalty that is not negative; with
    fewer than two factors, or without a frame, it raises an [IndexError]. *)
Theorem regularizer_ge0 (m : model R) (factors : seq R) :
  [/\ forall f0 f1 rest, factors = f0 :: f1 :: rest -> obj m <> [::] ->
        0 <= f0 -> 0 <= f1 ->
        exists2 v, regularizer m factors = Py.ret v & 0 <= v
    & (size factors < 2)%N \/ obj m = [::] ->
        regularizer m factors = Py.raise Py.IndexError].
Proof.
split=> [f0 f1 rest -> o0 p0 p1|].
  have E1 : getitem (f0 :: f1 :: rest) 1 = Py.ret f1.
    by rewrite (getitem_nat 0) //=; lia.
  rewrite /regularizer; case: (obj m) o0 => [|fr frs] // _.
  rewrite E1 /=; eexists; first by [].
  by rewrite addr_ge0 // mulr_ge0 // sum_abs_sq_ge0.
rewrite /regularizer; case: factors => [|f0 [|f1 rest]] //=.
  by move=> _; case: (obj m).
by case=> // ->.
Qed.

End Regularizer.

Lemma regularizer_ge0_witness :
  exists2 v : algR,
    regularizer ex_rpi_model [:: 1; 0] = Py.ret v & 0 <= v.
Proof.
have [H _] := regularizer_ge0 ex_rpi_model [:: 1; 0].
by apply: (H 1 0 [::] erefl _ ler01 (lexx 0)).
Defined.

End TimeResolvedRPI.

(** ** [cdtools/tools/analysis/analysis.py]: [calc_rms_error] *)

Module Analysis.
Import FancyPtycho Propagators.

Section RmsError.
Variable R : rcfType.
Local Notation C := (cplx R).
Local Notation image := (image R).
Local Notation rimage := (rimage R).

(** [t.exp(1j * t.angle(z))], the phase factor of a complex number: it has
    modulus one, and the modulus of [z] times it is [z] again.  The angle
    of zero is zero, its phase factor one. *)
Variable unit_phase : C -> C.
Hypothesis unit_phase_abs : forall z, cabssq (unit_phase z) = 1.
Hypothesis unit_phase_polar : forall z, creal (t_abs z) * unit_phase z = z.

(** [t.sum] and [t.mean] over the two axes of a field. *)
Definition t_sum (x : image) : C := sumc (flatten x).
Definition t_mean (x : rimage) : R :=
  sumr (flatten x) / (size (flatten x))%:R.

Definition abs_sq (x : image) : rimage := imap (fun z => t_abs z ^+ 2) x.

(** Lines 640-709, for two-dimensional fields and [dims = 2]; a factor
    [gamma] kept with [keepdim] is broadcast over the field. *)
Definition calc_rms_error (field_1 field_2 : image)
    (align_phases normalize : bool) : Py.result R :=
  gamma <-
    (if align_phases then
       prod <- broadcast2 *%R field_1 (imap (@cconj R) field_2) ;;
       Py.ret (unit_phase (t_sum prod))
     else Py.ret 1) ;;
  let norm := if normalize then 1 / t_mean (abs_sq field_1) else 1 in
  difference <-
    broadcast2 (fun x y => x - y) field_1 (imap ( *%R gamma) field_2) ;;
  Py.ret (Num.sqrt (norm * t_mean (abs_sq difference))).

(** The sums that the error is made of. *)
Definition energy (x : image) : R := sumr [seq cabssq z | z <- flatten x].
Definition overlap (x y : image) : C :=
  sumc (map2 (fun a b => a * cconj b) (flatten x) (flatten y)).

Lemma ReB (x y : C) : Re (x - y) = Re x - Re y. Proof. by []. Qed.
Lemma ImB (x y : C) : Im (x - y) = Im x - Im y. Proof. by []. Qed.

Lemma t_abs_sq (z : C) : t_abs z ^+ 2 = cabssq z.
Proof. by rewrite /t_abs sqr_sqrtr // cabssq_ge0. Qed.

Lemma cabssqM (x y : C) : cabssq (x * y) = cabssq x * cabssq y.
Proof. by case: x y => [a b] [c d]; rewrite /cabssq /=; ring. Qed.

Lemma cabssq_conj (x : C) : cabssq (cconj x) = cabssq x.
Proof. by rewrite /cabssq /= sqrrN. Qed.

Lemma cabssq_diff (g x y : C) :
  cabssq (x - g * y)
  = cabssq x + cabssq g * cabssq y - 2 * Re (cconj g * (x * cconj y)).
Proof.
by case: g x y => [g1 g2] [a b] [c d]; rewrite /cabssq /=; ring.
Qed.

Lemma flatten_imap {A B : Type} (f : A -> B) (x : seq (seq A)) :
  flatten (imap f x) = [seq f z | z <- flatten x].
Proof. by rewrite /imap map_flatten. Qed.

Lemma flatten_imap2 {A B D : Type} (f : A -> B -> D) h w
    (x : seq (seq A)) (y : seq (seq B)) :
  has_shape h w x -> has_shape h w y ->
  flatten (imap2 f x y) = map2 f (flatten x) (flatten y).
Proof.
case/andP=> /eqP sx rx /andP[/eqP sy ry]; move: sx; rewrite -sy => {sy}.
rewrite /imap2 /map2.
elim: x y rx ry => [|r x IH] [|r' y] //= /andP[/eqP Er rx] /andP[/eqP Er' ry].
case=> Es; rewrite IH // -map_cat; congr map.
by rewrite zip_cat // Er Er'.
Qed.

Lemma size_flatten_shape {A : Type} h w (x : seq (seq A)) :
  has_shape h w x -> size (flatten x) = (h * w)%N.
Proof.
case/andP=> /eqP <- rows; rewrite size_flatten /shape.
elim: x rows => [|r x IH] //= /andP[/eqP -> /IH ->].
by rewrite /= mulSn.
Qed.

Lemma sum_sq_diff_zip (g : C) (ps : seq (C * C)) :
  \sum_(p <- ps) cabssq (p.1 - g * p.2)
  = \sum_(p <- ps) cabssq p.1 + cabssq g * (\sum_(p <- ps) cabssq p.2)
    - 2 * Re (cconj g * \sum_(p <- ps) (p.1 * cconj p.2)).
Proof.
elim: ps => [|p ps IH].
  by rewrite !big_nil !mulr0 addr0 subr0.
rewrite !big_cons IH cabssq_diff [in RHS](mulrDr (cconj g)) ReD.
by ring.
Qed.

Lemma sum_sq_diff (g : C) (xs ys : seq C) :
  size xs = size ys ->
  sumr [seq cabssq z | z <- map2 (fun a b => a - g * b) xs ys]
  = sumr [seq cabssq z | z <- xs]
    + cabssq g * sumr [seq cabssq z | z <- ys]
    - 2 * Re (cconj g * sumc (map2 (fun a b => a * cconj b) xs ys)).
Proof.
move=> Es; rewrite /sumr /sumc !foldrE /map2 !big_map.
have E1 : xs = unzip1 (zip xs ys) by rewrite unzip1_zip // Es.
have E2 : ys = unzip2 (zip xs ys) by rewrite unzip2_zip // Es.
have -> : \sum_(z <- xs) cabssq z = \sum_(p <- zip xs ys) cabssq p.1.
  by rewrite {1}E1 /unzip1 big_map.
have -> : \sum_(z <- ys) cabssq z = \sum_(p <- zip xs ys) cabssq p.2.
  by rewrite {1}E2 /unzip2 big_map.
exact: sum_sq_diff_zip.
Qed.

(** The aligned error in closed form. *)
Lemma aligned_sum (h w : nat) (f1 f2 : image) :
  has_shape h w f1 -> has_shape h w f2 ->
  let gamma := unit_phase (overlap f1 f2) in
  sumr (flatten (abs_sq (imap2 (fun x y => x - y) f1
                               (imap ( *%R gamma) f2))))
  = energy f1 + energy f2 - 2 * t_abs (overlap f1 f2).
Proof.
move=> h1 h2 gamma.
rewrite /abs_sq flatten_imap imap2_imapr (flatten_imap2 _ h1 h2).
under eq_map do rewrite t_abs_sq.
have Esz : size (flatten f1) = size (flatten f2).
  by rewrite (size_flatten_shape h1) (size_flatten_shape h2).
rewrite (sum_sq_diff _ Esz).
rewrite unit_phase_abs mul1r -/(energy f1) -/(energy f2) -/(overlap f1 f2).
congr (_ - 2 * _).
rewrite -[X in cconj gamma * X](unit_phase_polar (overlap f1 f2)) -/gamma.
rewrite mulrCA [cconj gamma * gamma]mulrC cmul_conj unit_phase_abs.
by rewrite -crealM mulr1.
Qed.

Lemma calc_rms_errorE (h w : nat) (f1 f2 : image) (normalize : bool) :
  has_shape h w f1 -> has_shape h w f2 ->
  calc_rms_error f1 f2 true normalize
  = Py.ret (Num.sqrt
      ((if normalize then 1 / t_mean (abs_sq f1) else 1)
       * ((energy f1 + energy f2 - 2 * t_abs (overlap f1 f2))
          / (h * w)%:R))).
Proof.
move=> h1 h2; rewrite /calc_rms_error.
rewrite (broadcast2_same _ h1 (has_shape_imap _ h2)) /=.
have -> : t_sum (imap2 *%R f1 (imap (@cconj R) f2)) = overlap f1 f2.
  by rewrite /t_sum imap2_imapr (flatten_imap2 _ h1 h2).
rewrite (broadcast2_same _ h1 (has_shape_imap _ h2)) /=.
rewrite /t_mean (aligned_sum h1 h2) /abs_sq !flatten_imap !size_map.
rewrite (size_flatten_shape (has_shape_imap2 _ h1 (has_shape_imap _ h2))).
by [].
Qed.


Lemma sumc_scale (c : C) (l : seq C) :
  sumc [seq c * z | z <- l] = c * sumc l.
Proof. by rewrite /sumc !foldrE big_map big_distrr. Qed.

Lemma t_abs_unit (u z : C) : cabssq u = 1 -> t_abs (u * z) = t_abs z.
Proof. by move=> u1; rewrite /t_abs cabssqM u1 mul1r. Qed.

Lemma energy_scale (u : C) (f : image) :
  cabssq u = 1 -> energy (imap ( *%R u) f) = energy f.
Proof.
move=> u1; rewrite /energy flatten_imap -map_comp; congr sumr.
by apply: eq_map => z /=; rewrite cabssqM u1 mul1r.
Qed.

Lemma overlap_scale (u : C) (f1 f2 : image) :
  overlap f1 (imap ( *%R u) f2) = cconj u * overlap f1 f2.
Proof.
rewrite /overlap flatten_imap map2_mapr -sumc_scale /map2 -map_comp.
by congr sumc; apply: eq_map => p /=; rewrite cconjM mulrCA.
Qed.

Lemma overlap_sym (f1 f2 : image) :
  size (flatten f1) = size (flatten f2) ->
  overlap f2 f1 = cconj (overlap f1 f2).
Proof.
rewrite /overlap /map2 /sumc !foldrE !big_map.
elim: (flatten f1) (flatten f2) => [|x xs IH] [|y ys] //=.
  by rewrite !big_nil cconj0.
by case=> /IH {}IH; rewrite !big_cons IH cconjD cconjM cconjK mulrC.
Qed.

Lemma overlap_self (f : image) : overlap f f = creal (energy f).
Proof.
rewrite /overlap /energy /map2 /sumc /sumr !foldrE !big_map.
elim: (flatten f) => [|x xs IH] /=; first by rewrite !big_nil.
by rewrite !big_cons IH crealD cmul_conj.
Qed.

Lemma energy_ge0 (f : image) : 0 <= energy f.
Proof.
rewrite /energy /sumr foldrE big_map.
by apply: Num.Theory.sumr_ge0 => z _; apply: cabssq_ge0.
Qed.

Lemma t_abs_real (a : R) : 0 <= a -> t_abs (creal a) = a.
Proof.
by move=> a0; rewrite /t_abs /cabssq /= expr0n addr0 sqrtr_sqr ger0_norm.
Qed.

(** X20: with phase alignment the error does not see a global phase of the
    second field: multiplying that field by a number of modulus one leaves
    the returned error unchanged.  The fields have pixels, and a
    normalization divides by an energy that is not zero. *)
Theorem rms_error_phase_invariant (h w : nat) (f1 f2 : image) (u : C)
    (normalize : bool) :
  has_shape h w f1 -> has_shape h w f2 -> (0 < h * w)%N ->
  normalize ==> (energy f1 != 0) -> cabssq u = 1 ->
  calc_rms_error f1 (imap ( *%R u) f2) true normalize
  = calc_rms_error f1 f2 true normalize.
Proof.
move=> h1 h2 _ _ u1.
rewrite (calc_rms_errorE _ h1 (has_shape_imap _ h2)) (calc_rms_errorE _ h1 h2).
by rewrite energy_scale // overlap_scale t_abs_unit // cabssq_conj.
Qed.

(** X21: with phase alignment and without normalization the error is
    symmetric in its two fields. *)
Theorem rms_error_symmetric (h w : nat) (f1 f2 : image) :
  has_shape h w f1 -> has_shape h w f2 -> (0 < h * w)%N ->
  calc_rms_error f1 f2 true false = calc_rms_error f2 f1 true false.
Proof.
move=> h1 h2 _; rewrite (calc_rms_errorE _ h1 h2) (calc_rms_errorE _ h2 h1).
rewrite (@overlap_sym f1 f2) ?(size_flatten_shape h1) ?(size_flatten_shape h2) //.
by rewrite /t_abs cabssq_conj [energy f2 + _]addrC.
Qed.

(** X22: the error between a field and itself is zero, with and without
    phase alignment and normalization. *)
Theorem rms_error_self (h w : nat) (f : image)
    (align_phases normalize : bool) :
  has_shape h w f -> (0 < h * w)%N -> normalize ==> (energy f != 0) ->
  calc_rms_error f f align_phases normalize = Py.ret 0.
Proof.
move=> hf _ _; case: align_phases.
  rewrite (calc_rms_errorE _ hf hf) overlap_self t_abs_real ?energy_ge0 //.
  have -> : energy f + energy f - 2 * energy f = 0 by ring.
  by rewrite mul0r mulr0 sqrtr0.
rewrite /calc_rms_error /= (broadcast2_same _ hf (has_shape_imap _ hf)) /=.
have -> : imap2 (fun x y => x - y) f (imap ( *%R 1) f) = imap (fun=> 0) f.
  rewrite imap2_imapr /imap2 /imap /map2.
  elim: (f) => [|r l IH] //=; rewrite IH; congr cons.
  by elim: r => [|z r IHr] //=; rewrite IHr mul1r subrr.
have -> : t_mean (abs_sq (imap (fun=> 0) f)) = 0.
  rewrite /t_mean /abs_sq imap_comp flatten_imap.
  have -> : sumr [seq ((fun z : C => t_abs z ^+ 2) \o (fun=> 0)) z
                 | z <- flatten f] = 0.
    rewrite /sumr; elim: (flatten f) => [|z l IH] //=.
    by rewrite IH t_abs_sq /cabssq /= expr0n addr0 addr0.
  by rewrite mul0r.
by rewrite mulr0 sqrtr0.
Qed.

End RmsError.

(** The phase factor spelled out: [z / |z|], and one for zero. *)
Section PhaseFactor.
Variable R : rcfType.
Local Notation C := (cplx R).

Definition phase_of (z : C) : C :=
  if z == 0 then 1 else cdivr z (t_abs z).

Lemma t_abs_neq0 (z : C) : z != 0 -> t_abs z != 0.
Proof. by move=> z0; rewrite /t_abs sqrtr_eq0 -ltNge lt0r cabssq_eq0 z0 cabssq_ge0. Qed.

Lemma phase_of_abs (z : C) : cabssq (phase_of z) = 1.
Proof.
rewrite /phase_of; case: eqP => [_|/eqP z0].
  by rewrite /cabssq /= expr1n expr0n addr0.
rewrite /cabssq /= !expr_div_n -mulrDl -/(cabssq z) t_abs_sq divff //.
by rewrite cabssq_eq0.
Qed.

Lemma phase_of_polar (z : C) : creal (t_abs z) * phase_of z = z.
Proof.
rewrite /phase_of; case: eqP => [->|/eqP z0].
  by rewrite mulr1 /t_abs /cabssq /= expr0n addr0 sqrtr0.
by rewrite -cscaleE cscale_cdivr // t_abs_neq0.
Qed.

End PhaseFactor.

Definition ex_field_1 : image algR := [:: [:: 1; Cplx 0 1]].
Definition ex_field_2 : image algR := [:: [:: Cplx 0 1; 1]].

Lemma rms_error_phase_invariant_witness :
  calc_rms_error (@phase_of algR) ex_field_1
    (imap ( *%R (Cplx 0 1)) ex_field_2) true false
  = calc_rms_error (@phase_of algR) ex_field_1 ex_field_2 true false.
Proof.
have u1 : cabssq (Cplx 0 1 : cplx algR) = 1.
  by rewrite /cabssq /= expr0n expr1n add0r.
exact: (@rms_error_phase_invariant algR (@phase_of algR) (@phase_of_abs algR)
          (@phase_of_polar algR) 1 2 ex_field_1 ex_field_2 (Cplx 0 1) false
          erefl erefl erefl erefl u1).
Defined.

Lemma rms_error_symmetric_witness :
  calc_rms_error (@phase_of algR) ex_field_1 ex_field_2 true false
  = calc_rms_error (@phase_of algR) ex_field_2 ex_field_1 true false.
Proof.
exact: (@rms_error_symmetric algR (@phase_of algR) (@phase_of_abs algR)
          (@phase_of_polar algR) 1 2 ex_field_1 ex_field_2 erefl erefl
          erefl).
Defined.

Lemma rms_error_self_witness :
  calc_rms_error (@phase_of algR) ex_field_1 ex_field_1 true false
  = Py.ret 0.
Proof.
exact: (@rms_error_self algR (@phase_of algR) (@phase_of_abs algR)
          (@phase_of_polar algR) 1 2 ex_field_1 true false erefl erefl
          erefl).
Defined.

(** *** [calc_vn_entropy] and [calc_top_mode_fraction] *)

Section Spectrum.
Variable R : rcfType.
Local Notation C := (cplx R).
Local Notation matrix := (seq (seq C)).

(** [np.linalg.eigh(m)[0]], the eigenvalues of a Hermitian matrix, and
    [np.log]. *)
Variable eigvalsh : matrix -> seq R.
Variable np_log : R -> R.

(** A single matrix or a stack of matrices; a number or an array of
    numbers. *)
Inductive arg : Type := Single (m : matrix) | Stack (ms : seq matrix).
Inductive value : Type := Scalar (v : R) | Array (vs : seq R).

(** [scipy.special.xlogy]: x * log(y), and zero for x = 0. *)
Definition xlogy (x y : R) : R := if x == 0 then 0 else x * np_log y.

(** [np.max], which raises on an array without elements. *)
Definition np_max (s : seq R) : option R :=
  if s is x :: s' then Some (foldl Num.max x s') else None.

Definition entropy_of_stack_entry (m : matrix) : R :=
  let eig := eigvalsh m in
  let eig := [seq x / sumr eig | x <- eig] in
  - sumr [seq xlogy x x | x <- eig].

Definition entropy_of_single (m : matrix) : R :=
  let eig := eigvalsh m in
  - sumr [seq xlogy x x | x <- eig] / sumr eig.

(** Lines 576-606. *)
Definition calc_vn_entropy (a : arg) : value :=
  match a with
  | Stack ms => Array [seq entropy_of_stack_entry m | m <- ms]
  | Single m => Scalar (entropy_of_single m)
  end.

Fixpoint sequence_opt {A : Type} (l : seq (option A)) : option (seq A) :=
  if l is m :: l' then
    if m is Some x then omap (cons x) (sequence_opt l') else None
  else Some [::].

Definition fraction_of (m : matrix) : option R :=
  let eig := eigvalsh m in
  omap (fun top => top / sumr eig) (np_max eig).

(** Lines 609-637; [None] stands for the exception of [np.max]. *)
Definition calc_top_mode_fraction (a : arg) : option value :=
  match a with
  | Stack ms => omap Array (sequence_opt [seq fraction_of m | m <- ms])
  | Single m => omap Scalar (fraction_of m)
  end.

Lemma sumr_scale (c : R) (l : seq R) :
  sumr [seq x / c | x <- l] = sumr l / c.
Proof.
by rewrite /sumr; elim: l => [|x l IH] /=; rewrite ?mul0r // IH mulrDl.
Qed.

Lemma sumr_gt0_in (l : seq R) (x : R) :
  all (fun y => 0 <= y) l -> x \in l -> x <= sumr l.
Proof.
rewrite /sumr; elim: l => [|y l IH] //= /andP[y0 l0].
rewrite in_cons => /orP[/eqP ->|/(IH l0) le].
  by rewrite lerDl; apply: FancyPtycho.sumr_ge0.
by apply: le_trans le _; rewrite lerDr.
Qed.

Lemma foldl_max_in (x : R) (l : seq R) : foldl Num.max x l \in x :: l.
Proof.
elim: l x => [|y l IH] x /=; first by rewrite mem_head.
have := IH (Num.max x y); rewrite !in_cons.
case/orP=> [/eqP ->|->]; last by rewrite !orbT.
by rewrite maxEle; case: ifP => _; rewrite eqxx ?orbT.
Qed.

Lemma sumr_le_max (l : seq R) (top : R) :
  {in l, forall y, y <= top} -> sumr l <= (size l)%:R * top.
Proof.
rewrite /sumr; elim: l => [|y l IH] le /=; first by rewrite mul0r.
rewrite -natr1 mulrDl mul1r addrC lerD //.
  by apply: IH => z zin; apply: le; rewrite in_cons zin orbT.
by apply: le; rewrite mem_head.
Qed.

(** X25: for a matrix whose eigenvalues are not negative and do not add
    up to zero, [calc_top_mode_fraction] returns a number between one over
    the number of eigenvalues and one. *)
Theorem top_mode_fraction_bounds (m : matrix) :
  all (fun x => 0 <= x) (eigvalsh m) -> 0 < sumr (eigvalsh m) ->
  exists2 v, calc_top_mode_fraction (Single m) = Some (Scalar v)
    & (size (eigvalsh m))%:R^-1 <= v <= 1.
Proof.
move=> e0 s0; rewrite /= /fraction_of /np_max.
case E: (eigvalsh m) e0 s0 => [|x l] e0 s0; first by rewrite ltxx in s0.
eexists; first by []; apply/andP; split.
  rewrite ler_pdivlMr // ler_pdivrMl ?ltr0n //.
  apply: sumr_le_max => y yin.
  have [le1 le2] := SimplePtycho.foldl_max_ge x l.
  by move: yin; rewrite in_cons => /orP[/eqP ->|/le2].
by rewrite ler_pdivrMr // mul1r; apply: sumr_gt0_in (foldl_max_in x l).
Qed.

(** X26: the two branches of [calc_vn_entropy] differ by the logarithm of
    the trace: for eigenvalues that are not negative and add up to a
    positive number, the entropy of a matrix passed as a stack of one is
    the entropy of the matrix passed alone plus [log] of the sum of the
    eigenvalues, [log] turning quotients of positive numbers into
    differences. *)
Theorem vn_entropy_branches (m : matrix) :
  (forall x s, 0 < x -> 0 < s -> np_log (x / s) = np_log x - np_log s) ->
  all (fun x => 0 <= x) (eigvalsh m) -> 0 < sumr (eigvalsh m) ->
  calc_vn_entropy (Stack [:: m])
  = Array [:: entropy_of_single m + np_log (sumr (eigvalsh m))].
Proof.
move=> logD e0 s0; rewrite /= /entropy_of_stack_entry /entropy_of_single.
set s := sumr (eigvalsh m) in s0 *; congr (Array [:: _]).
have sn0 : s != 0 by rewrite gt_eqF.
have E (x : R) : 0 <= x ->
    xlogy (x / s) (x / s) = xlogy x x / s - x / s * np_log s.
  rewrite /xlogy le_eqVlt eq_sym => /orP[/eqP ->|x0].
    by rewrite !mul0r eqxx mul0r subr0.
  rewrite mulf_eq0 invr_eq0 (negbTE sn0) orbF gt_eqF // logD //.
  by rewrite mulrBr mulrAC.
have -> : sumr [seq xlogy x x | x <- [seq x / s | x <- eigvalsh m]]
          = sumr [seq xlogy x x | x <- eigvalsh m] / s
            - sumr (eigvalsh m) / s * np_log s.
  rewrite /sumr; elim: (eigvalsh m) e0 => [|x l IH] /=.
    by rewrite !mul0r subr0.
  case/andP=> x0 /IH ->; rewrite E // !mulrDl.
  by rewrite opprD addrACA.
by rewrite -/s divff // mul1r opprB addrC mulNr.
Qed.

End Spectrum.

Definition ex_eigvalsh (m : seq (seq (cplx algR))) : seq algR :=
  [seq Re (nth 0 r 0) | r <- m].

Lemma ex_eig_ok :
  all (fun x : algR => 0 <= x) (ex_eigvalsh [:: [:: 1]; [:: 1]])
  /\ 0 < FancyPtycho.sumr (ex_eigvalsh [:: [:: 1]; [:: 1]]).
Proof.
by rewrite /= /FancyPtycho.sumr /= !ler01 addr0 addr_gt0 ?ltr01.
Qed.

Lemma top_mode_fraction_bounds_witness :
  exists2 v,
    calc_top_mode_fraction ex_eigvalsh (Single [:: [:: 1]; [:: 1]])
    = Some (Scalar v)
    & 2^-1 <= v <= 1.
Proof.
have [e0 s0] := ex_eig_ok.
exact: (@top_mode_fraction_bounds algR ex_eigvalsh [:: [:: 1]; [:: 1]] e0 s0).
Defined.

Lemma vn_entropy_branches_witness :
  calc_vn_entropy ex_eigvalsh (fun=> 0) (Stack [:: [:: [:: 1]; [:: 1]]])
  = Array [:: entropy_of_single ex_eigvalsh (fun=> 0) [:: [:: 1]; [:: 1]]
              + 0].
Proof.
have [e0 s0] := ex_eig_ok.
have logD : forall x s : algR, 0 < x -> 0 < s ->
    (fun=> 0) (x / s) = (fun=> 0) x - (fun=> 0) s :> algR.
  by move=> x s _ _; rewrite subrr.
exact: (@vn_entropy_branches algR ex_eigvalsh (fun=> 0) [:: [:: 1]; [:: 1]]
          logD e0 s0).
Defined.

(** *** [standardize] *)

Section Standardize.
Variable R : rcfType.
Local Notation C := (cplx R).
Local Notation image := (image R).

(** [t.exp(-1j * t.angle(z))], the conjugate phase factor of a complex
    number: it has modulus one and turns [z] into its modulus. *)
Variable neg_phase : C -> C.
Hypothesis neg_phase_abs : forall z, cabssq (neg_phase z) = 1.
Hypothesis neg_phase_polar : forall z, z * neg_phase z = creal (t_abs z).

(** One probe, or a stack of incoherently mixing probes. *)
Inductive probes : Type := One (p : image) | Many (ps : seq image).

Definition stack_of (p : probes) : seq image :=
  match p with One p => [:: p] | Many ps => ps end.

(** The default [obj_slice]: from 3/8 to 5/8 of the way across. *)
Definition default_slice (obj : image) : slice2 :=
  (((shape2 obj).1 %/ 8 * 3, (shape2 obj).1 %/ 8 * 5),
   ((shape2 obj).2 %/ 8 * 3, (shape2 obj).2 %/ 8 * 5))%N.

(** Lines 127-232 with [correct_ramp = False], the default. *)
Definition standardize (probe : probes) (obj : image)
    (obj_slice : option slice2) : Py.result (probes * image) :=
  let stack := stack_of probe in
  probe0 <- getitem stack 0 ;;
  let normalization := Num.sqrt (t_mean (abs_sq probe0)) in
  let stack := [seq imap (fun z => cdivr z normalization) p | p <- stack] in
  let obj := imap (cscale normalization) obj in
  let obj_slice :=
    if obj_slice is Some sl then sl else default_slice obj in
  let obj_factor := neg_phase (t_sum (getslice2 obj_slice obj)) in
  let obj := imap ( *%R^~ obj_factor) obj in
  let stack := [seq imap ( *%R^~ (neg_phase (t_sum p))) p | p <- stack] in
  Py.ret (match probe with
          | One _ => One (head [::] stack)
          | Many _ => Many stack
          end, obj).

Definition real_ge0 (z : C) : bool := (Im z == 0) && (0 <= Re z).

Lemma t_sum_scaler (c : C) (x : image) :
  t_sum (imap ( *%R^~ c) x) = t_sum x * c.
Proof.
rewrite /t_sum flatten_imap mulrC -sumc_scale; congr sumc.
by apply: eq_map => z /=; rewrite mulrC.
Qed.

Lemma real_ge0_phase (x : image) :
  real_ge0 (t_sum (imap ( *%R^~ (neg_phase (t_sum x))) x)).
Proof.
rewrite t_sum_scaler neg_phase_polar /real_ge0 /= eqxx /=.
by rewrite /t_abs sqrtr_ge0.
Qed.

Lemma getslice2_imap {A B : Type} (f : A -> B) (sl : slice2)
    (x : seq (seq A)) :
  getslice2 sl (imap f x) = imap f (getslice2 sl x).
Proof.
rewrite /getslice2 /imap /py_slice -map_drop -map_take -!map_comp.
by apply: eq_map => r /=; rewrite map_take map_drop.
Qed.

Lemma sumr_map_scale (c : R) (l : seq R) :
  sumr [seq c * x | x <- l] = c * sumr l.
Proof.
by rewrite /sumr; elim: l => [|x l IH] /=; rewrite ?mulr0 // IH mulrDr.
Qed.

Lemma t_mean_unit (n : R) (c : C) (p : image) :
  cabssq c = 1 -> n ^+ 2 = t_mean (abs_sq p) -> n != 0 ->
  t_mean (abs_sq (imap ( *%R^~ c) (imap (fun z => cdivr z n) p))) = 1.
Proof.
move=> c1 En n0.
have {}En : n ^+ 2 = sumr [seq t_abs z ^+ 2 | z <- flatten p]
                     / (size (flatten p))%:R.
  by rewrite En /t_mean /abs_sq flatten_imap size_map.
rewrite /abs_sq !imap_comp /t_mean flatten_imap size_map.
have -> : [seq ((fun z : C => t_abs z ^+ 2) \o
                  (( *%R^~ c) \o (fun z => cdivr z n))) z | z <- flatten p]
          = [seq (n ^- 2) * x | x <- [seq t_abs z ^+ 2 | z <- flatten p]].
  rewrite -map_comp; apply: eq_map => z /=.
  rewrite !t_abs_sq cabssqM c1 mulr1 cdivrE cscaleE cabssqM.
  by rewrite /cabssq /= expr0n addr0 exprVn.
by rewrite sumr_map_scale -mulrA -En mulVf // expf_neq0.
Qed.

(** X27: [standardize] fixes the scale and the phases: when the first
    probe has pixels and is not zero everywhere, the first probe it returns
    has a mean intensity of one, and the sum of every probe it returns and
    the sum of the object it returns over the slice are real and not
    negative. *)
Theorem standardize_normalizes (probe : probes) (obj : image)
    (obj_slice : option slice2) (probe0 : image) (rest : seq image) :
  stack_of probe = probe0 :: rest -> flatten probe0 <> [::] ->
  energy probe0 != 0 ->
  exists2 res, standardize probe obj obj_slice = Py.ret res
    & [/\ t_mean (abs_sq (head [::] (stack_of res.1))) = 1,
          all (fun p => real_ge0 (t_sum p)) (stack_of res.1)
        & real_ge0 (t_sum (getslice2
            (if obj_slice is Some sl then sl else default_slice obj)
            res.2))].
Proof.
move=> Es p0 e0; rewrite /standardize Es /=.
set n := Num.sqrt _; eexists; first by [].
have m0 : 0 < t_mean (abs_sq probe0).
  rewrite /t_mean /abs_sq flatten_imap size_map divr_gt0 //; last first.
    by rewrite ltr0n; case: (flatten probe0) p0.
  rewrite lt0r; apply/andP; split; last first.
    apply: FancyPtycho.sumr_ge0; rewrite all_map; apply/allP => z _ /=.
    exact: sqr_ge0.
  apply: contra e0 => /eqP E0; rewrite /energy -E0; apply/eqP; congr sumr.
  by apply: eq_map => z; rewrite t_abs_sq.
have n0 : n != 0 by rewrite /n sqrtr_eq0 -ltNge.
have En : n ^+ 2 = t_mean (abs_sq probe0) by rewrite /n sqr_sqrtr // ltW.
have H1 : t_mean (abs_sq (imap ( *%R^~ (neg_phase
              (t_sum (imap (fun z => cdivr z n) probe0))))
              (imap (fun z => cdivr z n) probe0))) = 1.
  exact: t_mean_unit.
have H2 : all (fun p => real_ge0 (t_sum p))
    [seq imap ( *%R^~ (neg_phase (t_sum p))) p
    | p <- [seq imap (fun z => cdivr z n) p | p <- probe0 :: rest]].
  by rewrite all_map; apply/allP => p _ /=; apply: real_ge0_phase.
split.
- by case: (probe) Es => [p|ps] /= _.
- by case: (probe) Es => [p|ps] /= E; [move: H2 => /= /andP[-> _] | ].
- have -> : default_slice (imap (cscale n) obj) = default_slice obj.
    by rewrite /default_slice shape2_imap.
  rewrite [getslice2 _ (imap ( *%R^~ _) _)]getslice2_imap.
  exact: real_ge0_phase.
Qed.

End Standardize.

Section NegPhase.
Variable R : rcfType.
Local Notation C := (cplx R).

Definition neg_phase_of (z : C) : C := cconj (phase_of z).

Lemma neg_phase_of_abs (z : C) : cabssq (neg_phase_of z) = 1.
Proof. by rewrite /neg_phase_of cabssq_conj phase_of_abs. Qed.

Lemma neg_phase_of_polar (z : C) : z * neg_phase_of z = creal (t_abs z).
Proof.
rewrite /neg_phase_of -{1}(phase_of_polar z) -mulrA cmul_conj phase_of_abs.
by rewrite -crealM mulr1.
Qed.

End NegPhase.

Lemma standardize_normalizes_witness :
  exists2 res,
    standardize (@neg_phase_of algR) (One [:: [:: 1]]) [:: [:: 1]] None
    = Py.ret res
    & t_mean (abs_sq (head [::] (stack_of res.1))) = 1.
Proof.
have e0 : energy ([:: [:: 1]] : image algR) != 0.
  by rewrite /energy /= /FancyPtycho.sumr /= /cabssq /= expr1n expr0n
             !addr0 oner_neq0.
have nz : flatten ([:: [:: 1]] : image algR) <> [::] by [].
have [res E [H _ _]] :=
  @standardize_normalizes algR (@neg_phase_of algR) (@neg_phase_of_abs algR)
    (@neg_phase_of_polar algR) (One [:: [:: 1]]) [:: [:: 1]] None
    [:: [:: 1]] [::] erefl nz e0.
by exists res.
Defined.

End Analysis.
